(** * Sequential library: byte packing, PCM processing, Pro 3 wavetables

    A shallow embedding of [sequential_packing.h], [pcm_proc.h] and
    [pro3_wavetable.h], and the properties of their documentation that can be
    stated over it.

    Conventions of the embedding.
    - C integers are Rocq integers ([Z]).  Arithmetic on [pcm_sample_t]
      (a 32-bit [int]) is written with its two's complement wrap-around
      ([wrap32]); [int16_t] and [uint16_t] conversions are [to_int16] and
      [to_uint16].  Values of type [unsigned long] (sizes and indices) never
      come near 2^64 here and are left unwrapped.  [x >> k] is [Z.shiftr]
      (arithmetic on negative values, as compilers implement it).
    - A [SequentialData] is the list of its first [size] values.  Writing
      [values[size++] = v] appends [v]; the list is allowed to grow past
      [SEQUENTIAL_DATA_MAX], where the C code writes beyond its array.
    - The sample arrays of [pcm_proc.h] are functions from index to value,
      updated with [upd].  Storage that C leaves uninitialised (a local
      array, the [data] of a fresh [PCMData]) starts as the array [mem]
      that the function takes as an argument.
    - Single precision arithmetic is kept abstract in the interface
      [Float32]; a result that depends on what the operations compute
      says so in a hypothesis ([halving_exact], [float_keeps_level]), every
      other one holds however they round.  [exact_float] is an exact model
      of it for running examples.
    - Buffers are taken to fit their arrays and sizes to stay below 2^64
      where a statement needs it; it then says so in a hypothesis.
    - [char] is signed in [get_wav_meta], where only comparisons with
      letters depend on it; [wav_extract], whose samples depend on it, takes
      the signedness as an argument.
    - The 6502 assembly versions of the packing routines are not embedded. *)

From Stdlib Require Import ZArith List Lia Bool.
From Stdlib Require Ascii QArith.
Import ListNotations.
Local Open Scope Z_scope.

(** ** Generic helpers *)

Definition len {A : Type} (l : list A) : Z := Z.of_nat (length l).

(** [a[i] = v] on a fixed-length local array held as a list. *)
Fixpoint set_nth {A : Type} (i : nat) (v : A) (l : list A) : list A :=
  match l, i with
  | [], _ => []
  | _ :: t, O => v :: t
  | h :: t, S i' => h :: set_nth i' v t
  end.

(** C arrays of integers, as functions from index to value. *)
Definition array := Z -> Z.

(** [a[i] = v]. *)
Definition upd (a : array) (i v : Z) : array :=
  fun j => if j =? i then v else a j.

Definition array_of_list (l : list Z) : array :=
  fun i => nth (Z.to_nat i) l 0.

(** [for (i = lo; i < hi; i++) body], threading the state [s]. *)
Fixpoint for_loop {S : Type} (n : nat) (i : Z) (body : Z -> S -> S) (s : S) : S :=
  match n with
  | O => s
  | Datatypes.S n' => for_loop n' (i + 1) body (body i s)
  end.

Definition for_range {S : Type} (lo hi : Z) (body : Z -> S -> S) (s : S) : S :=
  for_loop (Z.to_nat (hi - lo)) lo body s.

(** Integer conversions of C, two's complement. *)
Definition wrap32 (z : Z) : Z := (z + 2 ^ 31) mod 2 ^ 32 - 2 ^ 31.
Definition to_uint32 (z : Z) : Z := z mod 2 ^ 32.
Definition to_int16 (z : Z) : Z := (z + 2 ^ 15) mod 2 ^ 16 - 2 ^ 15.
Definition to_uint16 (z : Z) : Z := z mod 2 ^ 16.
Definition to_char (z : Z) : Z := (z + 2 ^ 7) mod 2 ^ 8 - 2 ^ 7.
Definition to_uchar (z : Z) : Z := z mod 2 ^ 8.

(** Single precision arithmetic, as far as the library uses it: conversion
    from and to integers (the latter truncates), sum, product, quotient. *)
Class Float32 := {
  float : Type;
  float_of_int : Z -> float;
  int_of_float : float -> Z;
  float_add : float -> float -> float;
  float_mul : float -> float -> float;
  float_div : float -> float -> float
}.

(** An idealised model of it, with exact rational arithmetic.  It agrees
    with single precision wherever single precision is exact, in particular
    on integers below 2^24 and their quotients by powers of two; it is used
    to run the functions on examples. *)
Definition exact_float : Float32 := {|
  float := QArith_base.Q;
  float_of_int := QArith_base.inject_Z;
  int_of_float :=
    fun q => Z.quot (QArith_base.Qnum q) (Z.pos (QArith_base.Qden q));
  float_add := QArith_base.Qplus;
  float_mul := QArith_base.Qmult;
  float_div := QArith_base.Qdiv
|}.

(** ** sequential_packing.h *)

Module Packing.

Definition SEQUENTIAL_DATA_MAX : Z := 128000.

(** [struct _SequentialData { int size; unsigned int value[...]; }]:
    the list holds [value[0 .. size-1]]. *)
Definition SequentialData := list Z.
Definition UnpackedData := SequentialData.
Definition PackedData := SequentialData.

(** [Seq_set]: keeps [size] and copies the first [size] values. *)
Definition Seq_set (sz : Z) (values : list Z) : SequentialData :=
  firstn (Z.to_nat sz) values.

(** Locals of [Seq_unpack]; [size] is the length of [u_values]. *)
Record unpack_state := mkU {
  u_packbyte : Z;
  u_pos : Z;
  u_values : list Z
}.

Definition unpack_init : unpack_state := mkU 0 0 [].

(** Body of the [for] loop of [Seq_unpack], up to the [break] test. *)
Definition unpack_body (c : Z) (st : unpack_state) : unpack_state :=
  let st1 :=
    if u_pos st =? 0 then
      mkU c (u_pos st) (u_values st)
    else
      let c1 :=
        if Z.land (u_packbyte st) (Z.shiftl 1 (u_pos st - 1)) =? 0
        then c else Z.lor c 0x80 in
      mkU (u_packbyte st) (u_pos st) (u_values st ++ [c1]) in
  mkU (u_packbyte st1) (Z.land (u_pos st1 + 1) 0x07) (u_values st1).

(** The loop, with [if (size > SEQUENTIAL_DATA_MAX) break;]. *)
Fixpoint unpack_loop (input : list Z) (st : unpack_state) : unpack_state :=
  match input with
  | [] => st
  | c :: rest =>
      let st' := unpack_body c st in
      if len (u_values st') >? SEQUENTIAL_DATA_MAX then st'
      else unpack_loop rest st'
  end.

Definition Seq_unpack (packed : PackedData) : UnpackedData :=
  let st := unpack_loop packed unpack_init in
  Seq_set (len (u_values st)) (u_values st).

(** Locals of [pack]; [size] is the length of [p_values], and [p_packet] is
    the seven-entry array [packet]. *)
Record pack_state := mkP {
  p_values : list Z;
  p_packbyte : Z;
  p_pos : Z;
  p_packet : list Z
}.

Definition pack_init : pack_state := mkP [] 0 0 (repeat 0 7).

(** [values[size++] = packbyte; for (i = 0; i < pos; i++) values[size++] = packet[i];] *)
Definition flush (st : pack_state) : list Z :=
  p_values st ++ p_packbyte st :: firstn (Z.to_nat (p_pos st)) (p_packet st).

(** Body of the [for] loop of [pack], up to the [break] test. *)
Definition pack_body (c : Z) (st : pack_state) : pack_state :=
  let st1 :=
    if p_pos st =? 7 then mkP (flush st) 0 0 (p_packet st) else st in
  let '(pb, c1) :=
    if Z.land c 0x80 =? 0 then (p_packbyte st1, c)
    else (p_packbyte st1 + Z.shiftl 1 (p_pos st1), Z.land c 0x7f) in
  mkP (p_values st1) pb (p_pos st1 + 1)
      (set_nth (Z.to_nat (p_pos st1)) c1 (p_packet st1)).

(** The loop, with [if ((size + 8) > SEQUENTIAL_DATA_MAX) break;]. *)
Fixpoint pack_loop (input : list Z) (st : pack_state) : pack_state :=
  match input with
  | [] => st
  | c :: rest =>
      let st' := pack_body c st in
      if len (p_values st') + 8 >? SEQUENTIAL_DATA_MAX then st'
      else pack_loop rest st'
  end.

(** Defined as [pack] in the header and declared as [Seq_pack]. *)
Definition Seq_pack (unpacked : UnpackedData) : PackedData :=
  let values := flush (pack_loop unpacked pack_init) in
  Seq_set (len values) values.

(** The loops without their [break]: what they compute as long as the
    capacity test stays false. *)
Definition unpack_run (input : list Z) (st : unpack_state) : unpack_state :=
  fold_left (fun s c => unpack_body c s) input st.

Definition pack_run (input : list Z) (st : pack_state) : pack_state :=
  fold_left (fun s c => pack_body c s) input st.

Definition is_byte (c : Z) : Prop := 0 <= c < 256.

End Packing.

(** ** pcm_proc.h *)

Module PCM.

Definition PCM_PROC_MAX : Z := 131072.

(** [struct _PCM_DATA]; [size] is the number of samples per channel. *)
Record PCMData := mkPCM {
  size : Z;
  data : array;
  channels : Z;
  resolution : Z
}.

(** [new_PCMData]: [data] is not initialised. *)
Definition new_PCMData (mem : array) : PCMData :=
  mkPCM 0 mem 1 16.

(** [set_pcm_data]: [sz] is the overall size, not the size per channel. *)
Definition set_pcm_data (pcm : PCMData) (sz : Z) (src : array) : PCMData :=
  mkPCM (sz / channels pcm)
        (for_range 0 sz (fun i d => upd d i (src i)) (data pcm))
        (channels pcm)
        (resolution pcm).

(** Body of the loop of [pcm_change_resolution]: the new value of one
    sample, from resolution [res] to [new_resolution]. *)
Definition change_sample (res new_resolution : Z) (sample : Z) : Z :=
  let sample := if res =? 8 then wrap32 (sample - 128) else sample in
  let sample :=
    if new_resolution <? res then
      let max := wrap32 (wrap32 (Z.shiftl 1 new_resolution) - 1) in
      let min := wrap32 (-1 - max) in
      let sample := Z.shiftr sample (res - new_resolution - 1) in
      let round_up := negb (Z.land sample 1 =? 0) && (sample >=? 0) in
      let round_dn := (Z.land sample 1 =? 0) && (sample <? 0) in
      let sample := Z.shiftr sample 1 in
      let sample :=
        if round_up && (sample <? max) then wrap32 (sample + 1) else sample in
      let sample :=
        if round_dn && (sample >? min) then wrap32 (sample - 1) else sample in
      sample
    else sample in
  let sample :=
    if new_resolution >? res
    then wrap32 (Z.shiftl sample (new_resolution - res))
    else sample in
  let sample :=
    if new_resolution =? 8 then Z.land (wrap32 (sample + 128)) 0xff
    else sample in
  sample.

(** [pcm_change_resolution]; the local array [data] starts as [mem]. *)
Definition pcm_change_resolution (mem : array) (pcm : PCMData)
    (new_resolution : Z) : PCMData :=
  let new_resolution :=
    if (new_resolution >? 32) || (new_resolution <? 8)
    then resolution pcm else new_resolution in
  if resolution pcm =? new_resolution then pcm
  else
    let data' :=
      for_range 0 (size pcm * channels pcm)
        (fun i d =>
           upd d i (change_sample (resolution pcm) new_resolution (data pcm i)))
        mem in
    let pcm := mkPCM (size pcm) (data pcm) (channels pcm) new_resolution in
    set_pcm_data pcm (size pcm * channels pcm) data'.

(** One round of the [while] loop of [pcm_change_size]: a mean value is put
    between every two samples of a channel.  Returns the new [data_size] and
    the new [data]. *)
Definition expand_step (chans data_size : Z) (mem data0 : array) : Z * array :=
  let '(ex, expanded_data) :=
    for_range 0 data_size
      (fun i st =>
         for_range 0 chans
           (fun ch '(ex, expanded_data) =>
              let dx := i * chans + ch in
              let nx := dx + chans in
              let expanded_data := upd expanded_data ex (data0 dx) in
              let ex := ex + 1 in
              if nx <? data_size * chans then
                let dx_v := to_int16 (data0 dx) in
                let nx_v := to_int16 (data0 nx) in
                (ex + 1,
                 upd expanded_data ex
                     (wrap32 (Z.quot dx_v 2 + Z.quot nx_v 2)))
              else (ex, expanded_data))
           st)
      (0, mem) in
  (ex / chans, for_range 0 ex (fun i d => upd d i (expanded_data i)) data0).

(** [while (data_size < new_size)]; [None] when [fuel] rounds do not reach
    [new_size]. *)
Fixpoint expand_loop (fuel : nat) (chans new_size data_size : Z)
    (mem data0 : array) : option (Z * array) :=
  match fuel with
  | O => if data_size <? new_size then None else Some (data_size, data0)
  | S fuel' =>
      if data_size <? new_size then
        let '(data_size', data') := expand_step chans data_size mem data0 in
        expand_loop fuel' chans new_size data_size' mem data'
      else Some (data_size, data0)
  end.

(** [pcm_change_size]; the local arrays start as [mem]. *)
Definition pcm_change_size `{Float32} (fuel : nat) (mem : array)
    (pcm : PCMData) (new_size : Z) : option PCMData :=
  let new_size :=
    if new_size >? Z.quot PCM_PROC_MAX (channels pcm)
    then Z.quot PCM_PROC_MAX (channels pcm) else new_size in
  if size pcm >? 1 then
    let data0 := for_range 0 (size pcm) (fun i d => upd d i (data pcm i)) mem in
    match expand_loop fuel (channels pcm) new_size (size pcm) mem data0 with
    | None => None
    | Some (data_size, data1) =>
        let inc := float_div (float_of_int data_size) (float_of_int new_size) in
        let '(dx, resized_data) :=
          for_range 0 new_size
            (fun i st =>
               for_range 0 (channels pcm)
                 (fun ch '(dx, resized_data) =>
                    let ix :=
                      int_of_float
                        (float_add
                           (float_mul (float_mul (float_of_int i) inc)
                                      (float_of_int (channels pcm)))
                           (float_of_int ch)) in
                    let ix :=
                      if ix >=? data_size * channels pcm
                      then data_size * channels pcm else ix in
                    (dx + 1, upd resized_data dx (data1 ix)))
                 st)
            (0, mem) in
        Some (set_pcm_data pcm dx resized_data)
    end
  else Some pcm.

(** Body of the loop of [pcm_morph]. *)
Definition morph_sample `{Float32} (start_v end_v : Z) (scale : float) : Z :=
  let diff := float_of_int (wrap32 (end_v - start_v)) in
  let v := float_add (float_of_int start_v) (float_mul diff scale) in
  int_of_float v.

(** [pcm_morph]; the fresh [PCMData] and the local array start as [mem]. *)
Definition pcm_morph `{Float32} (mem : array) (start end_ : PCMData)
    (scale : float) : PCMData :=
  let morphed := new_PCMData mem in
  let pcm_data :=
    for_range 0 (size start)
      (fun i d => upd d i (morph_sample (data start i) (data end_ i) scale))
      mem in
  set_pcm_data morphed (size start) pcm_data.

(** The operations that return a new [PCMData], [pcm_normalize] and the
    generators. *)

Definition PCM_PROC_CHANNEL_LEFT : Z := 0.
Definition PCM_PROC_CHANNEL_RIGHT : Z := 1.

(** [pcm_clone]; the fresh [PCMData] starts as [mem]. *)
Definition pcm_clone (mem : array) (pcm : PCMData) : PCMData :=
  let clone := new_PCMData mem in
  let clone := mkPCM (size pcm) (data clone) (channels pcm) (resolution pcm) in
  set_pcm_data clone (size pcm * channels pcm) (data pcm).

(** [pcm_trim]; the fresh [PCMData] and the local array start as [mem]. *)
Definition pcm_trim (mem : array) (pcm : PCMData) (start sz : Z) : PCMData :=
  let trimmed := new_PCMData mem in
  if size pcm >=? start + sz then
    let offset := start * channels pcm in
    let '(new_ix, data') :=
      for_range 0 (sz * channels pcm)
        (fun i '(new_ix, d) => (new_ix + 1, upd d new_ix (data pcm (i + offset))))
        (0, mem) in
    let trimmed :=
      mkPCM (size trimmed) (data trimmed) (channels pcm) (resolution pcm) in
    set_pcm_data trimmed (sz * channels pcm) data'
  else trimmed.

(** The inner loop of [pcm_from_channel], left at the channel asked for:
    [for (ch = 0; ch < channels; ch++) if (ch == channel) { ...; break; }],
    with [left] iterations to go. *)
Fixpoint channel_scan (left : nat) (ch channel ic chans : Z) (src d : array)
    : array :=
  match left with
  | O => d
  | S left' =>
      if ch =? channel then upd d ic (src (ic * chans + ch))
      else channel_scan left' (ch + 1) channel ic chans src d
  end.

(** [pcm_from_channel]; the fresh [PCMData] and the local array start as
    [mem]. *)
Definition pcm_from_channel (mem : array) (pcm : PCMData) (channel : Z)
    : PCMData :=
  let channel :=
    if (channel >? channels pcm - 1) || (channel <? 0)
    then PCM_PROC_CHANNEL_LEFT else channel in
  let data' :=
    for_range 0 (size pcm)
      (fun ic d =>
         channel_scan (Z.to_nat (channels pcm)) 0 channel ic (channels pcm)
                      (data pcm) d)
      mem in
  let converted := new_PCMData mem in
  let converted :=
    mkPCM (size converted) (data converted) (channels converted)
          (resolution pcm) in
  set_pcm_data converted (size pcm) data'.

(** [pcm_normalize]; the local array starts as [mem]. *)
Definition pcm_normalize `{Float32} (mem : array) (pcm : PCMData)
    (new_amplitude : float) : PCMData :=
  let max := wrap32 (Z.quot (wrap32 (Z.shiftl 1 (resolution pcm))) 2 - 1) in
  let peak :=
    for_range 0 (size pcm * channels pcm)
      (fun i peak =>
         let pos_sample := wrap32 (Z.abs (data pcm i)) in
         if pos_sample >? peak then pos_sample else peak)
      0 in
  let coeff :=
    if peak =? 0 then float_of_int 1
    else float_div (float_mul (float_of_int max) new_amplitude)
                   (float_of_int peak) in
  let data' :=
    for_range 0 (size pcm * channels pcm)
      (fun i d =>
         upd d i (int_of_float (float_mul (float_of_int (data pcm i)) coeff)))
      mem in
  set_pcm_data pcm (size pcm) data'.

(** [pcm_gen_saw] and [pcm_gen_square]. *)
Definition pcm_gen_saw (mem : array) : PCMData :=
  let data' :=
    for_range 0 512
      (fun i d =>
         let d := upd d i (wrap32 (i * 64)) in
         upd d (i + 512) (wrap32 (i * 64 - 32768)))
      mem in
  let saw := new_PCMData mem in
  set_pcm_data saw 1024 data'.

Definition pcm_gen_square (mem : array) : PCMData :=
  let data' :=
    for_range 0 512
      (fun i d =>
         let d := upd d i (wrap32 32767) in
         upd d (i + 512) (wrap32 (-32768)))
      mem in
  let saw := new_PCMData mem in
  set_pcm_data saw 1024 data'.

End PCM.

(** ** pcm_proc.h: WAV files *)

Module WAV.

Definition WAV_CHANNEL_OFFSET : Z := 7.
Definition WAV_RESOLUTION_OFFSET : Z := 19.

Record WAVMeta := mkMeta {
  data_start : Z;
  data_end : Z;
  samples : Z;
  channels : Z;
  resolution : Z
}.

(** ["data"] and ["fmt "], with their terminating zero. *)
Definition dcid : list Z := [100; 97; 116; 97; 0].
Definition fcid : list Z := [102; 109; 116; 32; 0].

(** Locals of [get_wav_meta]. *)
Record scan_state := mkScan {
  s_channels : Z;
  s_resolution : Z;
  s_dcx : Z;
  s_fcx : Z;
  s_d_st : Z;
  s_d_end : Z
}.

(** Body of the scanning loop, up to the [break] test. *)
Definition scan_body (size : Z) (data : array) (i : Z) (st : scan_state)
    : scan_state :=
  let b := to_char (data i) in
  let st :=
    if (b =? nth (Z.to_nat (s_fcx st)) fcid 0) && (s_channels st =? 0) then
      let st :=
        if s_fcx st =? 3 then
          let chans :=
            if i + WAV_CHANNEL_OFFSET <? size
            then data (i + WAV_CHANNEL_OFFSET) else s_channels st in
          let res :=
            if i + WAV_RESOLUTION_OFFSET <? size
            then data (i + WAV_RESOLUTION_OFFSET) else s_resolution st in
          mkScan chans res (s_dcx st) (s_fcx st) (s_d_st st) (s_d_end st)
        else st in
      mkScan (s_channels st) (s_resolution st) (s_dcx st) (s_fcx st + 1)
             (s_d_st st) (s_d_end st)
    else
      mkScan (s_channels st) (s_resolution st) (s_dcx st) 0
             (s_d_st st) (s_d_end st) in
  if (b =? nth (Z.to_nat (s_dcx st)) dcid 0) && (s_d_end st =? 0) then
    let st :=
      if s_dcx st =? 3 then
        let d_st := i + 5 in
        let d_end :=
          d_st + wrap32 (data (i + 1) + Z.shiftl (data (i + 2)) 8
                         + Z.shiftl (data (i + 3)) 16
                         + Z.shiftl (data (i + 4)) 24) in
        mkScan (s_channels st) (s_resolution st) (s_dcx st) (s_fcx st)
               d_st d_end
      else st in
    mkScan (s_channels st) (s_resolution st) (s_dcx st + 1) (s_fcx st)
           (s_d_st st) (s_d_end st)
  else
    mkScan (s_channels st) (s_resolution st) 0 (s_fcx st)
           (s_d_st st) (s_d_end st).

(** [if (d_st && d_end && channels && resolution) break;] *)
Definition scan_done (st : scan_state) : bool :=
  negb (s_d_st st =? 0) && negb (s_d_end st =? 0)
  && negb (s_channels st =? 0) && negb (s_resolution st =? 0).

(** [for (i = 0; i < size; i++)]: [n] iterations are left. *)
Fixpoint scan_loop (n : nat) (size : Z) (data : array) (i : Z)
    (st : scan_state) : scan_state :=
  match n with
  | O => st
  | S n' =>
      let st' := scan_body size data i st in
      if scan_done st' then st' else scan_loop n' size data (i + 1) st'
  end.

(** [get_wav_meta]; [meta] is the uninitialised local that is returned
    untouched when [size <= 44]. *)
Definition get_wav_meta (meta : WAVMeta) (size : Z) (data : array) : WAVMeta :=
  if size >? 44 then
    let st := scan_loop (Z.to_nat size) size data 0 (mkScan 0 0 0 0 0 0) in
    mkMeta (s_d_st st) (s_d_end st)
           ((s_d_end st - s_d_st st) / Z.quot (s_resolution st) 8)
           (s_channels st) (s_resolution st)
  else meta.

(** The conversion [char b = data[dx]] of [wav_extract]: whether [char] is
    signed is left to the compiler, and it matters there. *)
Definition char_value (signed_char : bool) (z : Z) : Z :=
  if signed_char then to_char z else to_uchar z.

(** The innermost loop of [wav_extract]: the bytes of one sample, lowest
    first.  Returns the new [dx] and the sample. *)
Definition read_sample (signed_char : bool) (meta : WAVMeta)
    (data : array) (dx : Z) : Z * Z :=
  for_range 0 (Z.quot (resolution meta) 8)
    (fun bn '(dx, sample) =>
       if dx <=? data_end meta then
         let b := char_value signed_char (data dx) in
         (dx + 1, wrap32 (sample + wrap32 (Z.shiftl b (bn * 8))))
       else (dx, sample))
    (dx, 0).

(** [wav_extract]; the local array and the fresh [PCMData] start as [mem]. *)
Definition wav_extract (signed_char : bool) (mem : array) (meta : WAVMeta)
    (data : array) (start samples : Z) : PCM.PCMData :=
  let dx := data_start meta + start * Z.quot (resolution meta) 8 in
  let '(ix, dx, pcm_data) :=
    for_range 0 samples
      (fun i st =>
         for_range 0 (channels meta)
           (fun ch '(ix, dx, pcm_data) =>
              let '(dx, sample) := read_sample signed_char meta data dx in
              (ix + 1, dx, upd pcm_data ix sample))
           st)
      (0, dx, mem) in
  let pcm := PCM.new_PCMData mem in
  let pcm := PCM.pcm_change_resolution mem pcm (resolution meta) in
  let pcm :=
    PCM.mkPCM (PCM.size pcm) (PCM.data pcm) (channels meta)
              (PCM.resolution pcm) in
  PCM.set_pcm_data pcm ix pcm_data.

End WAV.

(** ** pro3_wavetable.h *)

Module Wavetable.

Import Packing PCM.

Definition PCM_MAX : Z := 176000.
Definition PRO3_SAMPLE_SIZE : Z := 1024.
Definition PRO3_WAVES : Z := 16.

(** [struct _Wavetable]: [ref k i] is [ref[k][i]]. *)
Record Wavetable := mkWT {
  ref : Z -> array;
  isset : array
}.

(** [table->ref[k][i] = v] and [table->isset[k] = v]. *)
Definition set_ref (table : Wavetable) (k i v : Z) : Wavetable :=
  mkWT (fun k' => if k' =? k then upd (ref table k') i v else ref table k')
       (isset table).

Definition set_isset (table : Wavetable) (k v : Z) : Wavetable :=
  mkWT (ref table) (upd (isset table) k v).

(** [new_Wavetable]: every flag and every sample is zero. *)
Definition new_Wavetable : Wavetable :=
  for_range 0 PRO3_WAVES
    (fun i table =>
       let table := set_isset table i 0 in
       for_range 0 PRO3_SAMPLE_SIZE (fun j table => set_ref table i j 0) table)
    (mkWT (fun _ _ => 0) (fun _ => 0)).

(** The innermost loops of [wavetable_fill]: waveform [t] of the range that
    starts at [c] and ends before [n]. *)
Definition fill_target `{Float32} (c n t : Z) (table : Wavetable) : Wavetable :=
  let div := float_of_int (n - c) in
  let ix := float_of_int (t - c + 1) in
  let scale := float_div ix div in
  for_range 0 PRO3_SAMPLE_SIZE
    (fun i table =>
       let pcm_diff :=
         float_of_int (wrap32 (ref table n i - ref table (c - 1) i)) in
       let v :=
         float_add (float_of_int (ref table (c - 1) i))
                   (float_mul pcm_diff scale) in
       set_ref table t i (int_of_float v))
    table.

(** [for (n = c; n < 16; n++)], left at the first [n] that is set, after
    filling the waveforms from [c] to [n - 1]; [left] iterations remain. *)
Fixpoint fill_next `{Float32} (left : nat) (c n : Z) (table : Wavetable)
    : Wavetable :=
  match left with
  | O => table
  | S left' =>
      if isset table n =? 1 then
        for_range c n (fun t table => fill_target c n t table) table
      else fill_next left' c (n + 1) table
  end.

Definition wavetable_fill `{Float32} (table : Wavetable) : Wavetable :=
  if isset table 0 =? 0 then table
  else
    let table :=
      if isset table (PRO3_WAVES - 1) =? 0 then
        let table :=
          for_range 0 PRO3_SAMPLE_SIZE
            (fun i table => set_ref table (PRO3_WAVES - 1) i (ref table 0 i))
            table in
        set_isset table (PRO3_WAVES - 1) 1
      else table in
    for_range 1 16
      (fun c table =>
         if isset table c =? 0
         then fill_next (Z.to_nat (16 - c)) c c table
         else table)
      table.

(** Locals of [wavetable_sysex_dump]: [pro3_data] holds the [dx] values
    written so far. *)
Record dump_state := mkDump {
  pro3_data : list Z;
  checksum : Z
}.

(** The body shared by the four serialising loops: a sample is written
    high byte first and its byte-swapped value is added to the checksum. *)
Definition serialize_sample (v : Z) (st : dump_state) : dump_state :=
  let sample := to_int16 v in
  let high := to_uint32 (Z.shiftr sample 8) in
  let low := to_uint32 (Z.land sample 0xff) in
  let check :=
    to_uint16 (Z.lor (Z.shiftr (to_uint16 sample) 8)
                     (Z.shiftl (to_uint16 sample) 8)) in
  mkDump (pro3_data st ++ [high; low]) (to_uint16 (checksum st + check)).

(** [for (i = 0; i < pcm.size; i++)] over that body. *)
Definition serialize_pcm (pcm : PCMData) (st : dump_state) : dump_state :=
  for_range 0 (size pcm) (fun i st => serialize_sample (data pcm i) st) st.

(** Body of the loop over the sixteen waveforms. *)
Definition dump_wave `{Float32} (fuel : nat) (mem : array) (table : Wavetable)
    (k : Z) (st : dump_state) : option dump_state :=
  let pcm := new_PCMData mem in
  let pcm := set_pcm_data pcm PRO3_SAMPLE_SIZE (ref table k) in
  let st := serialize_pcm pcm st in
  match pcm_change_size fuel mem pcm (PRO3_SAMPLE_SIZE / 2) with
  | None => None
  | Some pcm =>
      let st := serialize_pcm pcm st in
      match pcm_change_size fuel mem pcm (PRO3_SAMPLE_SIZE / 4) with
      | None => None
      | Some pcm =>
          let st := for_range 0 2 (fun j st => serialize_pcm pcm st) st in
          match pcm_change_size fuel mem pcm (PRO3_SAMPLE_SIZE / 8) with
          | None => None
          | Some pcm =>
              Some (for_range 0 8 (fun j st => serialize_pcm pcm st) st)
          end
      end
  end.

(** [for (k = 0; k < 16; k++)]. *)
Definition dump_waves `{Float32} (fuel : nat) (mem : array) (table : Wavetable)
    : option dump_state :=
  for_range 0 16
    (fun k st =>
       match st with
       | None => None
       | Some st => dump_wave fuel mem table k st
       end)
    (Some (mkDump [] 0)).

(** Standard output: the bytes written so far.  [putchar] writes its
    argument converted to [unsigned char]. *)
Definition putchar (c : Z) (out : list Z) : list Z := out ++ [to_uchar c].

(** [Seq_dump]. *)
Definition Seq_dump (d : SequentialData) (out : list Z) : list Z :=
  fold_left (fun out v => putchar v out) d out.

(** A C string: its characters up to the terminating zero. *)
Definition c_string := list Ascii.ascii.

Definition char_code (a : Ascii.ascii) : Z := Z.of_N (Ascii.N_of_ascii a).

Definition strlen (s : c_string) : Z := len s.

Definition strcat (s t : c_string) : c_string := s ++ t.

Definition space : Ascii.ascii := Ascii.ascii_of_N 32.

(** [while (strlen(name) < 8) strcat(name, " ");] with [fuel] rounds; every
    round makes the name one character longer, so that eight rounds are
    always enough. *)
Fixpoint pad_name (fuel : nat) (name : c_string) : option c_string :=
  match fuel with
  | O => if strlen name <? 8 then None else Some name
  | S fuel' =>
      if strlen name <? 8 then pad_name fuel' (strcat name [space])
      else Some name
  end.

(** [printf("%.8s", name)]. *)
Definition printf_8s (name : c_string) (out : list Z) : list Z :=
  fold_left (fun out a => out ++ [char_code a]) (firstn 8 name) out.

(** [wavetable_sysex_dump]: what is written to standard output. *)
Definition wavetable_sysex_dump `{Float32} (fuel : nat) (mem : array)
    (table : Wavetable) (num : Z) (name : c_string) : option (list Z) :=
  match dump_waves fuel mem table with
  | None => None
  | Some st =>
      let pro3_wavetable := Seq_set (len (pro3_data st)) (pro3_data st) in
      let pro3_sysex := Seq_pack pro3_wavetable in
      let out := [] in
      let out := putchar 0xf0 out in
      let out := putchar 0x01 out in
      let out := putchar 0x31 out in
      let out := putchar 0x6a out in
      let out := putchar 0x6c out in
      let out := putchar 0x01 out in
      let out := putchar 0x6b out in
      let out := putchar num out in
      match pad_name 8 name with
      | None => None
      | Some name =>
          let out := printf_8s name out in
          let out := putchar 0x00 out in
          let out := Seq_dump pro3_sysex out in
          let out := putchar (to_char (Z.land (checksum st) 0x7f)) out in
          let out :=
            putchar (Z.land (to_char (Z.shiftr (checksum st) 8)) 0x7f) out in
          let out := putchar 0xf7 out in
          Some out
      end
  end.

(** [set_reference]; [None] when [pcm_change_size] runs out of fuel. *)
Definition set_reference `{Float32} (fuel : nat) (mem : array)
    (table : Wavetable) (reference : PCMData) (num : Z) : option Wavetable :=
  let clone := pcm_clone mem reference in
  let resized :=
    if negb (size clone =? PRO3_SAMPLE_SIZE)
    then pcm_change_size fuel mem clone PRO3_SAMPLE_SIZE
    else Some clone in
  match resized with
  | None => None
  | Some clone =>
      let clone :=
        if negb (resolution clone =? 16)
        then pcm_change_resolution mem clone 16 else clone in
      let table :=
        for_range 0 PRO3_SAMPLE_SIZE
          (fun i table => set_ref table num i (data clone i)) table in
      Some (set_isset table num 1)
  end.

(** [wavetable_pcm_dump]: what is written to standard output. *)
Definition wavetable_pcm_dump (table : Wavetable) (out : list Z) : list Z :=
  for_range 0 PRO3_WAVES
    (fun r out =>
       for_range 0 PRO3_SAMPLE_SIZE
         (fun s out =>
            let sample := ref table r s in
            let hi := to_char (Z.shiftr sample 8) in
            let lo := to_char (Z.land sample 0xff) in
            let out := putchar hi out in
            putchar lo out)
         out)
    out.

End Wavetable.

(** * Definitions used in the statements *)

Import Packing PCM Wavetable.

(** Invariant of the loop of [pack] after reading [x]: the values flushed so
    far are whole groups of eight, the packet holds the last [pos] values of
    [x] with their high bits in [packbyte], and flushing now gives
    something that decodes to [x].  The pack byte may still receive higher
    bits ([hi]), which does not change what the packet decodes to. *)
Definition pack_inv (x : list Z) (st : pack_state) : Prop :=
  0 <= p_pos st <= 7
  /\ length (p_packet st) = 7%nat
  /\ 0 <= p_packbyte st < 2 ^ p_pos st
  /\ (x <> [] -> 1 <= p_pos st)
  /\ (exists m, 0 <= m /\ len (p_values st) = 8 * m
                /\ len x = 7 * m + p_pos st)
  /\ forall hi, 0 <= hi ->
       unpack_run
         (p_values st ++ (p_packbyte st + 2 ^ p_pos st * hi)
            :: firstn (Z.to_nat (p_pos st)) (p_packet st)) unpack_init
       = mkU (p_packbyte st + 2 ^ p_pos st * hi) (Z.land (p_pos st + 1) 0x07) x.

(** What [pack] does to one value: the high bit as a number, and the value
    stored in the packet. *)
Definition high_bit (c : Z) : Z := if Z.land c 0x80 =? 0 then 0 else 1.
Definition low_bits (c : Z) : Z := if Z.land c 0x80 =? 0 then c else Z.land c 0x7f.

(** The part of the invariant that is about sizes only; it holds whatever
    the values are. *)
Definition pack_shape (x : list Z) (st : pack_state) : Prop :=
  0 <= p_pos st <= 7
  /\ length (p_packet st) = 7%nat
  /\ (x <> [] -> 1 <= p_pos st)
  /\ exists m, 0 <= m /\ len (p_values st) = 8 * m
               /\ len x = 7 * m + p_pos st.

(** An input that fits an [UnpackedData] and whose packed form does not fit
    a [PackedData]: 18000 groups of seven zero bytes. *)
Definition long_input : UnpackedData := repeat 0 (Z.to_nat 126000).

(** Checking a decidable property on every integer of an interval. *)
Fixpoint all_from (f : Z -> bool) (n : nat) (lo : Z) : bool :=
  match n with
  | O => true
  | S n' => f lo && all_from f n' (lo + 1)
  end.

(** An 8-bit buffer and a 16-bit buffer with one sample each. *)
Definition one_sample (res s : Z) : PCMData := mkPCM 1 (fun _ => s) 1 res.

(** The local array [data] of [pcm_change_size] before the loops: only the
    first [size] entries are copied, whatever the number of channels. *)
Definition local_data (mem : array) (pcm : PCMData) : array :=
  for_range 0 (size pcm) (fun i d => upd d i (data pcm i)) mem.

(** A stereo buffer of two samples per channel. *)
Definition stereo_pcm : PCMData :=
  mkPCM 2 (array_of_list [10; 20; 30; 40]) 2 16.

(** Little-endian fields of a WAV header. *)
Definition le16 (n : Z) : list Z := [n mod 256; (n / 256) mod 256].
Definition le32 (n : Z) : list Z :=
  [n mod 256; (n / 256) mod 256; (n / 65536) mod 256; (n / 16777216) mod 256].

(** The canonical 44-byte header of a PCM file: "RIFF", the length of the
    rest, "WAVE", "fmt ", 16, format 1, channels, sample rate, byte rate,
    block size, bits per sample, "data", the length of the data. *)
Definition wav_header (chans bits rate data_len : Z) : list Z :=
  [82; 73; 70; 70] ++ le32 (36 + data_len) ++ [87; 65; 86; 69]
  ++ [102; 109; 116; 32] ++ le32 16 ++ le16 1 ++ le16 chans ++ le32 rate
  ++ le32 (rate * chans * bits / 8) ++ le16 (chans * bits / 8) ++ le16 bits
  ++ [100; 97; 116; 97] ++ le32 data_len.

(** The header of a 16-bit mono file, followed by 8 bytes of data that are
    all zero. *)
Definition synthetic_wav : list Z :=
  wav_header 1 16 44100 8 ++ [0; 0; 0; 0; 0; 0; 0; 0].

(** The same with 4 bytes of data: the two samples 0 and 0. *)
Definition two_sample_wav : list Z :=
  wav_header 1 16 44100 4 ++ [0; 0; 0; 0].

(** A new wavetable in which waveform 0 alone has been set. *)
Definition first_only : Wavetable := set_isset new_Wavetable 0 1.

(** Values that [pack] turns into seven-bit values: the high bit is either
    set (and then masked out, with everything above it) or the value is
    below 128. *)
Definition packable (c : Z) : Prop := Z.land c 0x80 <> 0 \/ 0 <= c < 128.
Definition seven_bit (v : Z) : Prop := 0 <= v < 128.

(** What the loop of [pack] keeps true when its input is packable. *)
Definition pack_clean (st : pack_state) : Prop :=
  0 <= p_pos st <= 7
  /\ length (p_packet st) = 7%nat
  /\ 0 <= p_packbyte st < 2 ^ p_pos st
  /\ Forall seven_bit (p_values st)
  /\ Forall seven_bit (firstn (Z.to_nat (p_pos st)) (p_packet st)).

(** [packable], as a test that computes. *)
Definition packableb (c : Z) : bool :=
  negb (Z.land c 0x80 =? 0) || ((0 <=? c) && (c <? 128)).

(** The spec's words: the name padded with spaces, or cut, to exactly eight
    characters. *)
Definition pad8 (name : c_string) : c_string :=
  firstn 8 (name ++ repeat space (8 - length name)).

(** The wire format of the spec:
    F0 01 31 6A 6C 01 6B, slot, name, 00, packed payload, the low seven bits
    of the checksum, the seven low bits of its high byte, F7. *)
Definition sysex_frame (slot : Z) (name8 packed : list Z) (ck : Z) : list Z :=
  [0xF0; 0x01; 0x31; 0x6A; 0x6C; 0x01; 0x6B] ++ [slot] ++ name8 ++ [0x00]
  ++ packed ++ [Z.land ck 0x7f; Z.land (Z.shiftr ck 8) 0x7f; 0xF7].

(** ** Used in the further properties *)

(** A packed stream made of whole packets: a pack byte and seven values. *)
Inductive whole_packets : list Z -> Prop :=
| wp_nil : whole_packets []
| wp_cons pb c1 c2 c3 c4 c5 c6 c7 rest :
    whole_packets rest ->
    whole_packets (pb :: c1 :: c2 :: c3 :: c4 :: c5 :: c6 :: c7 :: rest).

(** What [Seq_unpack] makes of the value at position [k] (from 1) of a
    packet whose pack byte is [pb]. *)
Definition decode_value (pb k c : Z) : Z :=
  if Z.testbit pb (k - 1) then Z.lor c 0x80 else c.

(** Bit [k] of a pack byte, as a number. *)
Definition pack_bit (pb k : Z) : Z := if Z.testbit pb k then 1 else 0.

(** The values that a stream of whole packets stands for. *)
Fixpoint decode_all (p : list Z) : list Z :=
  match p with
  | pb :: c1 :: c2 :: c3 :: c4 :: c5 :: c6 :: c7 :: rest =>
      [decode_value pb 1 c1; decode_value pb 2 c2; decode_value pb 3 c3;
       decode_value pb 4 c4; decode_value pb 5 c5; decode_value pb 6 c6;
       decode_value pb 7 c7] ++ decode_all rest
  | _ => []
  end.





(** The value that [pcm_change_size] puts between two samples. *)
Definition half_sum (a b : Z) : Z := Z.quot (to_int16 a) 2 + Z.quot (to_int16 b) 2.

(** Where one round of expansion has put its output when it reaches the
    entry [dx] of [data]: two places for every entry that has a successor
    in its channel, one for the entries of the last frame. *)
Definition expanded_index (chans data_size dx : Z) : Z :=
  if dx <=? (data_size - 1) * chans then 2 * dx
  else dx + (data_size - 1) * chans.

(** What the round has written for the entries below [dx]. *)
Definition expanded_below (chans data_size : Z) (data0 : array) (dx : Z)
    (expanded_data : array) : Prop :=
  forall d, 0 <= d < dx ->
    if d <? (data_size - 1) * chans then
      expanded_data (2 * d) = data0 d
      /\ expanded_data (2 * d + 1) = half_sum (data0 d) (data0 (d + chans))
    else expanded_data (d + (data_size - 1) * chans) = data0 d.

(** The 16-bit word whose low byte is at [p]. *)
Definition word_at (data : array) (p : Z) : Z := data p + 256 * data (p + 1).

(** The indices [lo], ..., [lo + n - 1] of a loop. *)
Definition indices (lo : Z) (n : nat) : list Z :=
  map (fun k => lo + Z.of_nat k) (seq 0 n).

(** A 16-bit word, high byte first. *)
Definition big_endian (w : Z) : list Z := [w / 256; w mod 256].

(** The first step of [wavetable_fill]: the last waveform, when it is not
    set, becomes a copy of the first one. *)
Definition fill_last (table : Wavetable) : Wavetable :=
  if isset table (PRO3_WAVES - 1) =? 0 then
    let table :=
      for_range 0 PRO3_SAMPLE_SIZE
        (fun i table => set_ref table (PRO3_WAVES - 1) i (ref table 0 i))
        table in
    set_isset table (PRO3_WAVES - 1) 1
  else table.

(** Interpolating between two equal values [a] gives [a]: what the float
    operations have to do for [a + (0 * scale)].  Single precision does for
    every [a] below 2^24 in absolute value and every finite [scale]. *)
Definition float_keeps_level `{Float32} (a : Z) : Prop :=
  forall scale : float,
    int_of_float
      (float_add (float_of_int a) (float_mul (float_of_int 0) scale)) = a.

(** The waveforms below [c] and the waveforms that are set all hold [w]. *)
Definition uniform_upto (w : array) (c : Z) (table : Wavetable) : Prop :=
  forall k i, 0 <= k <= 15 -> 0 <= i < 1024 ->
              k < c \/ isset table k = 1 -> ref table k i = w i.

(** ** The payload of the system exclusive dump, in the spec's words *)

(** A decimation of a waveform: [n] samples, every [step]-th one. *)
Definition decimated (w : array) (step : Z) (n : nat) : list Z :=
  map (fun i => w (step * i)) (indices 0 n).

(** The four detail levels of a waveform: the 1024 samples once, the 512
    sample decimation once, the 256 sample decimation twice, the 128 sample
    decimation eight times. *)
Definition wave_levels (w : array) : list Z :=
  decimated w 1 1024
  ++ decimated w 2 512
  ++ concat (repeat (decimated w 4 256) 2)
  ++ concat (repeat (decimated w 8 128) 8).

(** The samples of the payload: the levels of the 16 waveforms in turn. *)
Definition payload_samples (table : Wavetable) : list Z :=
  flat_map (fun k => wave_levels (ref table k)) (indices 0 16).

(** Each sample as a big-endian signed 16-bit value: high byte, low byte. *)
Definition payload (table : Wavetable) : list Z :=
  flat_map (fun v => big_endian (to_uint16 v)) (payload_samples table).

(** A 16-bit word with its two bytes exchanged. *)
Definition byte_swap (w : Z) : Z := 256 * (w mod 256) + w / 256.

(** The running 16-bit checksum over the byte-swapped samples. *)
Definition payload_checksum (table : Wavetable) : Z :=
  fold_left (fun ck v => (ck + byte_swap (to_uint16 v)) mod 2 ^ 16)
            (payload_samples table) 0.

(** What the decimations of the dump need from the float operations: for a
    buffer of [2 n] samples cut down to [n], the index [i * (2n / n) * 1 + 0]
    is [2 i].  Single precision computes it exactly: [2n / n] is 2 and every
    value is an integer below 2^11. *)
Definition halving_exact `{Float32} : Prop :=
  forall n i, In n [512; 256; 128] -> 0 <= i < n ->
    int_of_float
      (float_add
         (float_mul
            (float_mul (float_of_int i)
               (float_div (float_of_int (2 * n)) (float_of_int n)))
            (float_of_int 1))
         (float_of_int 0)) = 2 * i.

(** The serialising loops over a list of samples. *)
Definition serialize_list (l : list Z) (st : dump_state) : dump_state :=
  fold_left (fun st v => serialize_sample v st) l st.

(** The two values that [serialize_sample] stores for a sample. *)
Definition stored_bytes (v : Z) : list Z :=
  [to_uint32 (Z.shiftr (to_int16 v) 8); to_uint32 (Z.land (to_int16 v) 0xff)].

(** * Properties *)

(** ** Lists, arrays and bits *)

Lemma len_app {A : Type} (l1 l2 : list A) : len (l1 ++ l2) = len l1 + len l2.
Proof. unfold len. rewrite length_app. lia. Qed.

Lemma len_cons {A : Type} (a : A) (l : list A) : len (a :: l) = 1 + len l.
Proof. unfold len. simpl length. lia. Qed.

Lemma len_nil {A : Type} : len (@nil A) = 0.
Proof. reflexivity. Qed.

Lemma len_nonneg {A : Type} (l : list A) : 0 <= len l.
Proof. unfold len. lia. Qed.

Lemma set_nth_length {A : Type} (i : nat) (v : A) (l : list A) :
  length (set_nth i v l) = length l.
Proof.
  revert i; induction l as [|h t IH]; intros [|i]; simpl; auto.
Qed.

Lemma firstn_set_nth {A : Type} (i : nat) (v : A) (l : list A) :
  (i < length l)%nat ->
  firstn (S i) (set_nth i v l) = firstn i l ++ [v].
Proof.
  revert i; induction l as [|h t IH]; intros [|i] Hi; simpl in *; try lia.
  - reflexivity.
  - f_equal. apply IH. lia.
Qed.

(** Bit [k] of [a], read the way the C code does: [a & (1 << k)]. *)
Lemma land_shiftl_1_eqb (a k : Z) :
  0 <= k ->
  (Z.land a (Z.shiftl 1 k) =? 0) = negb (Z.testbit a k).
Proof.
  intros Hk. rewrite Z.shiftl_1_l.
  destruct (Z.testbit a k) eqn:Hb; simpl.
  - apply Z.eqb_neq. intros H0.
    assert (Hk' : Z.testbit (Z.land a (2 ^ k)) k = true).
    { rewrite Z.land_spec, Hb, Z.pow2_bits_true by lia. reflexivity. }
    rewrite H0, Z.bits_0 in Hk'. discriminate.
  - apply Z.eqb_eq. apply Z.bits_inj'. intros n Hn.
    rewrite Z.land_spec, Z.bits_0.
    destruct (Z.eq_dec n k) as [->|Hne].
    + rewrite Hb. reflexivity.
    + rewrite (Z.pow2_bits_false k n) by lia. apply andb_false_r.
Qed.

Lemma testbit_add_pow2 (pb k t : Z) :
  0 <= k -> 0 <= pb < 2 ^ k ->
  Z.testbit (pb + 2 ^ k * t) k = Z.odd t.
Proof.
  intros Hk Hpb.
  rewrite Z.testbit_odd, Z.shiftr_div_pow2 by lia.
  replace (pb + 2 ^ k * t) with (pb + t * 2 ^ k) by ring.
  rewrite Z.div_add by lia.
  rewrite Z.div_small by lia. reflexivity.
Qed.

(** A byte is put back together from its low seven bits and its high bit. *)
Lemma byte_high_bit_restore (c : Z) :
  0 <= c < 256 ->
  (if Z.land c 0x80 =? 0 then c else Z.lor (Z.land c 0x7f) 0x80) = c.
Proof.
  intros Hc.
  destruct (Z.land c 0x80 =? 0) eqn:E; [reflexivity|].
  apply Z.bits_inj'. intros n Hn.
  rewrite Z.lor_spec, Z.land_spec.
  change 0x7f with (Z.ones 7).
  change 0x80 with (2 ^ 7).
  destruct (Z_lt_le_dec n 7) as [Hlt|Hge].
  - rewrite Z.ones_spec_low by lia.
    rewrite (Z.pow2_bits_false 7 n) by lia.
    rewrite andb_true_r, orb_false_r. reflexivity.
  - rewrite Z.ones_spec_high by lia. rewrite andb_false_r, orb_false_l.
    destruct (Z.eq_dec n 7) as [->|Hne].
    + rewrite Z.pow2_bits_true by lia.
      change 0x80 with (Z.shiftl 1 7) in E.
      rewrite land_shiftl_1_eqb in E by lia.
      destruct (Z.testbit c 7); [reflexivity|discriminate].
    + rewrite (Z.pow2_bits_false 7 n) by lia.
      symmetry. apply (Z.bits_above_log2 c n); [lia|].
      destruct (Z.eq_dec c 0) as [->|Hc0]; [simpl; lia|].
      assert (Z.log2 c < 8) by (apply Z.log2_lt_pow2; lia). lia.
Qed.

(** ** sequential_packing.h *)

Example Seq_pack_spec_scenario :
  Seq_pack [0x81; 0x02; 0x83; 0x04; 0x85; 0x06; 0x87]
  = [0x55; 0x01; 0x02; 0x03; 0x04; 0x05; 0x06; 0x07].
Proof. reflexivity. Qed.

Example Seq_unpack_scenario :
  Seq_unpack [0x55; 0x01; 0x02; 0x03; 0x04; 0x05; 0x06; 0x07; 0x01; 0x10]
  = [0x81; 0x02; 0x83; 0x04; 0x85; 0x06; 0x87; 0x90].
Proof. reflexivity. Qed.

Lemma land_7 (a : Z) : Z.land a 0x07 = a mod 8.
Proof. change 0x07 with (Z.ones 3). rewrite Z.land_ones by lia. reflexivity. Qed.

(** *** One iteration of each loop *)

Lemma unpack_body_pos (c : Z) (st : unpack_state) :
  u_pos (unpack_body c st) = (u_pos st + 1) mod 8.
Proof.
  unfold unpack_body. destruct (u_pos st =? 0); cbn [u_pos]; apply land_7.
Qed.

Lemma unpack_body_len (c : Z) (st : unpack_state) :
  len (u_values (unpack_body c st))
  = len (u_values st) + (if u_pos st =? 0 then 0 else 1).
Proof.
  unfold unpack_body. destruct (u_pos st =? 0); cbn [u_values].
  - lia.
  - rewrite len_app, len_cons. change (len (@nil Z)) with 0. lia.
Qed.

Lemma unpack_body_extends (c : Z) (st : unpack_state) :
  exists r, u_values (unpack_body c st) = u_values st ++ r.
Proof.
  unfold unpack_body. destruct (u_pos st =? 0); cbn [u_values].
  - exists []. now rewrite app_nil_r.
  - eexists. reflexivity.
Qed.

Lemma pack_body_pos (c : Z) (st : pack_state) :
  p_pos (pack_body c st) = if p_pos st =? 7 then 1 else p_pos st + 1.
Proof.
  unfold pack_body.
  destruct (p_pos st =? 7); destruct (Z.land c 0x80 =? 0); reflexivity.
Qed.

Lemma pack_body_values (c : Z) (st : pack_state) :
  p_values (pack_body c st) = if p_pos st =? 7 then flush st else p_values st.
Proof.
  unfold pack_body.
  destruct (p_pos st =? 7); destruct (Z.land c 0x80 =? 0); reflexivity.
Qed.

Lemma flush_len_le (st : pack_state) :
  0 <= p_pos st <= 7 ->
  len (p_values st) + 1 <= len (flush st) <= len (p_values st) + 1 + p_pos st.
Proof.
  intros Hp. unfold flush. rewrite len_app, len_cons.
  assert (H := firstn_le_length (Z.to_nat (p_pos st)) (p_packet st)).
  pose proof (len_nonneg (firstn (Z.to_nat (p_pos st)) (p_packet st))).
  unfold len in *. lia.
Qed.

(** *** The loops against their break-free versions *)

Lemma unpack_run_app (a b : list Z) (st : unpack_state) :
  unpack_run (a ++ b) st = unpack_run b (unpack_run a st).
Proof. apply fold_left_app. Qed.

Lemma pack_run_app (a b : list Z) (st : pack_state) :
  pack_run (a ++ b) st = pack_run b (pack_run a st).
Proof. apply fold_left_app. Qed.

Lemma unpack_run_extends (input : list Z) (st : unpack_state) :
  exists r, u_values (unpack_run input st) = u_values st ++ r.
Proof.
  unfold unpack_run. revert st.
  induction input as [|c rest IH]; intros st; simpl.
  - exists []. now rewrite app_nil_r.
  - destruct (IH (unpack_body c st)) as [r Hr].
    destruct (unpack_body_extends c st) as [r0 Hr0].
    exists (r0 ++ r). rewrite Hr, Hr0, app_assoc.
    reflexivity.
Qed.

Lemma unpack_run_len_mono (input : list Z) (st : unpack_state) :
  len (u_values st) <= len (u_values (unpack_run input st)).
Proof.
  destruct (unpack_run_extends input st) as [r ->].
  rewrite len_app. pose proof (len_nonneg r). lia.
Qed.

Lemma unpack_loop_eq_run (input : list Z) (st : unpack_state) :
  len (u_values (unpack_run input st)) <= SEQUENTIAL_DATA_MAX ->
  unpack_loop input st = unpack_run input st.
Proof.
  revert st. induction input as [|c rest IH]; intros st H.
  - reflexivity.
  - pose proof (unpack_run_len_mono rest (unpack_body c st)) as Hm.
    change (unpack_run (c :: rest) st)
      with (unpack_run rest (unpack_body c st)) in *.
    cbn [unpack_loop].
    destruct (Z.gtb_spec (len (u_values (unpack_body c st))) SEQUENTIAL_DATA_MAX).
    + lia.
    + apply IH. exact H.
Qed.

Ltac split_eqb :=
  repeat match goal with
         | |- context [?a =? ?b] => destruct (Z.eqb_spec a b)
         | H : context [?a =? ?b] |- _ => destruct (Z.eqb_spec a b)
         end.

(** Eight packed values never decode to more than seven. *)
Lemma unpack_loop_len_upper (input : list Z) (st : unpack_state) :
  0 <= u_pos st <= 7 ->
  8 * len (u_values (unpack_loop input st))
  <= 8 * len (u_values st) + 7 * len input
     + (if u_pos st =? 0 then 0 else 8 - u_pos st).
Proof.
  revert st. induction input as [|c rest IH]; intros st Hp.
  - change (len (@nil Z)) with 0. cbn [unpack_loop unpack_run fold_left].
    split_eqb; lia.
  - cbn [unpack_loop]. rewrite len_cons.
    pose proof (unpack_body_pos c st) as Hpos.
    pose proof (unpack_body_len c st) as Hlen.
    assert (Hp' : 0 <= u_pos (unpack_body c st) <= 7) by (rewrite Hpos; Z.div_mod_to_equations; lia).
    specialize (IH _ Hp').
    destruct (len (u_values (unpack_body c st)) >? SEQUENTIAL_DATA_MAX).
    + pose proof (len_nonneg rest). split_eqb; lia.
    + rewrite Hlen in IH. rewrite Hpos in IH.
      split_eqb; Z.div_mod_to_equations; lia.
Qed.

Lemma unpack_run_len_lower (input : list Z) (st : unpack_state) :
  0 <= u_pos st <= 7 ->
  8 * len (u_values st) + 7 * len input
  - (if u_pos st =? 0 then 7 else u_pos st - 1)
  <= 8 * len (u_values (unpack_run input st)).
Proof.
  revert st. induction input as [|c rest IH]; intros st Hp.
  - change (len (@nil Z)) with 0. cbn [unpack_loop unpack_run fold_left].
    split_eqb; lia.
  - change (unpack_run (c :: rest) st)
      with (unpack_run rest (unpack_body c st)).
    rewrite len_cons.
    pose proof (unpack_body_pos c st) as Hpos.
    pose proof (unpack_body_len c st) as Hlen.
    assert (Hp' : 0 <= u_pos (unpack_body c st) <= 7) by (rewrite Hpos; Z.div_mod_to_equations; lia).
    specialize (IH _ Hp').
    rewrite Hlen in IH. rewrite Hpos in IH.
    split_eqb; Z.div_mod_to_equations; lia.
Qed.

(** The capacity test is [size > SEQUENTIAL_DATA_MAX]: the loop is left
    with one value more than the capacity. *)
Lemma unpack_loop_cap (input : list Z) (st : unpack_state) :
  len (u_values st) <= SEQUENTIAL_DATA_MAX ->
  SEQUENTIAL_DATA_MAX < len (u_values (unpack_run input st)) ->
  len (u_values (unpack_loop input st)) = SEQUENTIAL_DATA_MAX + 1.
Proof.
  revert st. induction input as [|c rest IH]; intros st Hst Hrun.
  - simpl in *. lia.
  - cbn [unpack_loop].
    change (unpack_run (c :: rest) st)
      with (unpack_run rest (unpack_body c st)) in Hrun.
    pose proof (unpack_body_len c st) as Hlen.
    destruct (Z.gtb_spec (len (u_values (unpack_body c st))) SEQUENTIAL_DATA_MAX).
    + split_eqb; lia.
    + apply IH; [lia | exact Hrun].
Qed.

(** *** The packing loop *)

Lemma Seq_set_all (values : list Z) : Seq_set (len values) values = values.
Proof. unfold Seq_set, len. rewrite Nat2Z.id. apply firstn_all. Qed.

Lemma flush_len_ge (st : pack_state) : len (p_values st) + 1 <= len (flush st).
Proof.
  unfold flush. rewrite len_app, len_cons.
  pose proof (len_nonneg (firstn (Z.to_nat (p_pos st)) (p_packet st))). lia.
Qed.

Lemma pack_run_len_mono (input : list Z) (st : pack_state) :
  len (p_values st) <= len (p_values (pack_run input st)).
Proof.
  unfold pack_run. revert st.
  induction input as [|c rest IH]; intros st; simpl; [lia|].
  specialize (IH (pack_body c st)). rewrite pack_body_values in IH at 1.
  pose proof (flush_len_ge st). destruct (p_pos st =? 7); lia.
Qed.

Lemma pack_loop_eq_run (input : list Z) (st : pack_state) :
  len (p_values (pack_run input st)) + 8 <= SEQUENTIAL_DATA_MAX ->
  pack_loop input st = pack_run input st.
Proof.
  revert st. induction input as [|c rest IH]; intros st H.
  - reflexivity.
  - pose proof (pack_run_len_mono rest (pack_body c st)) as Hm.
    change (pack_run (c :: rest) st)
      with (pack_run rest (pack_body c st)) in *.
    cbn [pack_loop].
    destruct (Z.gtb_spec (len (p_values (pack_body c st)) + 8) SEQUENTIAL_DATA_MAX).
    + lia.
    + apply IH. exact H.
Qed.

(** Whatever the input, the loop of [pack] is left with at most
    [SEQUENTIAL_DATA_MAX] values written and a packet still to flush. *)
Lemma pack_loop_bounds (input : list Z) (st : pack_state) :
  0 <= p_pos st <= 7 ->
  len (p_values st) + 8 <= SEQUENTIAL_DATA_MAX ->
  0 <= p_pos (pack_loop input st) <= 7
  /\ len (p_values (pack_loop input st)) <= SEQUENTIAL_DATA_MAX.
Proof.
  revert st. induction input as [|c rest IH]; intros st Hp Hv.
  - cbn [pack_loop]. lia.
  - cbn [pack_loop].
    pose proof (pack_body_pos c st) as Hpos.
    pose proof (pack_body_values c st) as Hval.
    pose proof (flush_len_le st Hp) as Hfl.
    assert (Hp' : 0 <= p_pos (pack_body c st) <= 7)
      by (rewrite Hpos; split_eqb; lia).
    assert (Hv' : len (p_values (pack_body c st)) <= SEQUENTIAL_DATA_MAX)
      by (rewrite Hval; split_eqb; lia).
    destruct (Z.gtb_spec (len (p_values (pack_body c st)) + 8) SEQUENTIAL_DATA_MAX).
    + split; assumption.
    + apply IH; [assumption | lia].
Qed.

Lemma Seq_pack_len_le (x : UnpackedData) :
  len (Seq_pack x) <= SEQUENTIAL_DATA_MAX + 8.
Proof.
  unfold Seq_pack. rewrite Seq_set_all.
  destruct (pack_loop_bounds x pack_init) as [Hp Hv].
  - cbn. lia.
  - unfold SEQUENTIAL_DATA_MAX, len. cbn. lia.
  - pose proof (flush_len_le _ Hp). lia.
Qed.

Lemma Seq_unpack_len_le (packed : PackedData) :
  8 * len (Seq_unpack packed) <= 7 * len packed.
Proof.
  unfold Seq_unpack. rewrite Seq_set_all.
  pose proof (unpack_loop_len_upper packed unpack_init) as H.
  cbn [unpack_init u_pos u_values] in H. change (len (@nil Z)) with 0 in H.
  change (0 =? 0) with true in H. cbv iota in H. lia.
Qed.

Lemma pack_inv_init : pack_inv [] pack_init.
Proof.
  unfold pack_inv, pack_init. cbn [p_pos p_packet p_packbyte p_values].
  split; [lia|]. split; [reflexivity|]. split; [cbn; lia|].
  split; [congruence|]. split.
  - exists 0. cbn. lia.
  - intros hi Hhi. cbn [Z.to_nat firstn app].
    generalize (0 + 2 ^ 0 * hi). intros v. reflexivity.
Qed.

Lemma unpack_body_at_0 (c pb : Z) (v : list Z) :
  unpack_body c (mkU pb 0 v) = mkU c 1 v.
Proof. reflexivity. Qed.

Lemma unpack_body_at_pos (c pb pos : Z) (v : list Z) :
  1 <= pos <= 7 ->
  unpack_body c (mkU pb pos v)
  = mkU pb (Z.land (pos + 1) 0x07)
        (v ++ [if Z.testbit pb (pos - 1) then Z.lor c 0x80 else c]).
Proof.
  intros Hp. unfold unpack_body. cbn [u_pos u_packbyte u_values].
  destruct (Z.eqb_spec pos 0); [lia|].
  cbn [u_pos u_packbyte u_values].
  rewrite land_shiftl_1_eqb by lia.
  destruct (Z.testbit pb (pos - 1)); reflexivity.
Qed.

Lemma pow2_succ (k : Z) : 0 <= k -> 2 ^ (k + 1) = 2 * 2 ^ k.
Proof. intros Hk. rewrite Z.pow_add_r by lia. change (2 ^ 1) with 2. ring. Qed.

Lemma pack_body_eq (c : Z) (st : pack_state) :
  pack_body c st
  = let st1 := if p_pos st =? 7 then mkP (flush st) 0 0 (p_packet st) else st in
    mkP (p_values st1) (p_packbyte st1 + high_bit c * 2 ^ p_pos st1)
        (p_pos st1 + 1)
        (set_nth (Z.to_nat (p_pos st1)) (low_bits c) (p_packet st1)).
Proof.
  unfold pack_body, high_bit, low_bits. cbv zeta.
  destruct (Z.land c 0x80 =? 0).
  - f_equal. lia.
  - destruct (p_pos st =? 7); cbn [p_pos p_packbyte].
    + reflexivity.
    + f_equal. rewrite Z.shiftl_1_l. lia.
Qed.

Lemma high_bit_range (c : Z) : 0 <= high_bit c <= 1.
Proof. unfold high_bit. destruct (Z.land c 0x80 =? 0); lia. Qed.

Lemma decode_low_bits (c : Z) :
  is_byte c ->
  (if Z.odd (high_bit c) then Z.lor (low_bits c) 0x80 else low_bits c) = c.
Proof.
  intros Hc. pose proof (byte_high_bit_restore c Hc) as H.
  unfold high_bit, low_bits. destruct (Z.land c 0x80 =? 0); exact H.
Qed.

Lemma pack_inv_step (x : list Z) (c : Z) (st : pack_state) :
  pack_inv x st -> is_byte c -> pack_inv (x ++ [c]) (pack_body c st).
Proof.
  intros (Hp & Hpk & Hpb & Hne & (m & Hm & HV & Hx) & Hun) Hc.
  destruct st as [V pb pos packet].
  cbn [p_values p_packbyte p_pos p_packet] in *.
  pose proof (decode_low_bits c Hc) as Hdec.
  pose proof (high_bit_range c) as Hbit.
  rewrite pack_body_eq. cbv zeta. cbn [p_values p_packbyte p_pos p_packet].
  unfold pack_inv.
  destruct (Z.eqb_spec pos 7) as [->|Hn7];
    cbn [p_values p_packbyte p_pos p_packet].
  - (* the packet is full: it is flushed and a new one is started *)
    change (0 + 1) with 1. change (Z.to_nat 0) with 0%nat.
    change (2 ^ 0) with 1. change (2 ^ 1) with 2.
    change (Z.to_nat 1) with 1%nat.
    assert (Hfl : flush (mkP V pb 7 packet) = V ++ pb :: packet).
    { unfold flush. cbn [p_values p_packbyte p_pos p_packet].
      replace (Z.to_nat 7) with (length packet) by lia.
      rewrite firstn_all. reflexivity. }
    split; [lia|]. split; [rewrite set_nth_length; exact Hpk|].
    split; [lia|]. split; [lia|]. split.
    + exists (m + 1). rewrite Hfl, !len_app, !len_cons.
      change (len (@nil Z)) with 0. unfold len in *. lia.
    + intros hi Hhi.
      destruct packet as [|p0 packet']; [discriminate Hpk|].
      cbn [set_nth firstn].
      specialize (Hun 0 ltac:(lia)).
      rewrite Z.mul_0_r, Z.add_0_r in Hun.
      replace (Z.to_nat 7) with (length (p0 :: packet')) in Hun by lia.
      rewrite firstn_all in Hun.
      rewrite Hfl, unpack_run_app, Hun.
      change (Z.land (7 + 1) 0x07) with 0.
      cbn [unpack_run fold_left].
      rewrite unpack_body_at_0, unpack_body_at_pos by lia.
      change (1 - 1) with 0. change (Z.land (1 + 1) 0x07) with 2.
      rewrite Z.bit0_odd.
      replace (0 + high_bit c * 1 + 2 * hi) with (high_bit c + 2 * hi) by lia.
      rewrite Z.odd_add_mul_2, Hdec. reflexivity.
  - (* the value joins the current packet *)
    assert (Hnat : Z.to_nat (pos + 1) = S (Z.to_nat pos)) by lia.
    split; [lia|]. split; [rewrite set_nth_length; exact Hpk|].
    split; [rewrite pow2_succ by lia; nia|]. split; [lia|]. split.
    + exists m. rewrite len_app, len_cons.
      change (len (@nil Z)) with 0. lia.
    + intros hi Hhi.
      rewrite Hnat, firstn_set_nth by lia.
      rewrite app_comm_cons, app_assoc, unpack_run_app.
      replace (pb + high_bit c * 2 ^ pos + 2 ^ (pos + 1) * hi)
        with (pb + 2 ^ pos * (high_bit c + 2 * hi))
        by (rewrite pow2_succ by lia; ring).
      rewrite Hun by lia.
      rewrite (land_7 (pos + 1)), Z.mod_small by lia.
      cbn [unpack_run fold_left].
      rewrite unpack_body_at_pos by lia.
      replace (pos + 1 - 1) with pos by lia.
      rewrite testbit_add_pow2 by lia.
      rewrite Z.odd_add_mul_2, Hdec. reflexivity.
Qed.

Lemma pack_inv_run (x : list Z) :
  Forall is_byte x -> pack_inv x (pack_run x pack_init).
Proof.
  induction x as [|c x IH] using rev_ind; intros HF.
  - apply pack_inv_init.
  - apply Forall_app in HF. destruct HF as [HF1 HF2].
    rewrite pack_run_app. cbn [pack_run fold_left].
    apply pack_inv_step.
    + apply IH. exact HF1.
    + inversion HF2; assumption.
Qed.

Lemma pack_shape_run (x : list Z) : pack_shape x (pack_run x pack_init).
Proof.
  induction x as [|c x IH] using rev_ind.
  - unfold pack_shape. cbn. repeat split; try lia; try congruence.
    exists 0. lia.
  - rewrite pack_run_app. cbn [pack_run fold_left].
    destruct IH as (Hp & Hpk & Hne & (m & Hm & HV & Hx)).
    unfold pack_shape. rewrite pack_body_eq. cbv zeta.
    destruct (Z.eqb_spec (p_pos (pack_run x pack_init)) 7) as [E|E];
      cbn [p_values p_packbyte p_pos p_packet];
      (split; [lia|]); (split; [rewrite set_nth_length; exact Hpk|]);
      (split; [lia|]).
    + exists (m + 1). unfold flush. rewrite E.
      replace (Z.to_nat 7) with (length (p_packet (pack_run x pack_init)))
        by lia.
      rewrite firstn_all, !len_app, !len_cons.
      change (len (@nil Z)) with 0. unfold len in *. lia.
    + exists m. rewrite len_app, len_cons.
      change (len (@nil Z)) with 0. lia.
Qed.

(** As long as the packed form fits the capacity, the loop of [pack] is
    never left early. *)
Lemma pack_loop_complete (x : list Z) :
  len x + (len x + 6) / 7 <= SEQUENTIAL_DATA_MAX ->
  pack_loop x pack_init = pack_run x pack_init.
Proof.
  intros Hfit. apply pack_loop_eq_run.
  destruct (pack_shape_run x) as (Hp & _ & Hne & (m & Hm & HV & Hx)).
  rewrite HV. unfold SEQUENTIAL_DATA_MAX in *.
  destruct x as [|c x'].
  - change (len (@nil Z)) with 0 in *. lia.
  - specialize (Hne ltac:(discriminate)).
    Z.div_mod_to_equations. lia.
Qed.

Lemma Seq_pack_complete (x : list Z) :
  len x + (len x + 6) / 7 <= SEQUENTIAL_DATA_MAX ->
  Seq_pack x = flush (pack_run x pack_init).
Proof.
  intros Hfit. unfold Seq_pack.
  rewrite Seq_set_all, pack_loop_complete by exact Hfit. reflexivity.
Qed.

Example Seq_pack_empty : Seq_pack [] = [0].
Proof. reflexivity. Qed.

Example Seq_pack_short_run :
  Seq_pack [0xff; 0x7f; 0x80] = [0x05; 0x7f; 0x7f; 0x00].
Proof. reflexivity. Qed.

Example Seq_pack_two_groups :
  Seq_pack [1; 2; 3; 4; 5; 6; 7; 0x88] = [0; 1; 2; 3; 4; 5; 6; 7; 1; 8].
Proof. reflexivity. Qed.

Lemma long_input_len : len long_input = 126000.
Proof. unfold long_input, len. rewrite repeat_length. lia. Qed.

Lemma long_input_bytes : Forall is_byte long_input.
Proof.
  apply Forall_forall. intros c Hc. apply repeat_spec in Hc. subst c.
  unfold is_byte. lia.
Qed.

(** C1, as stated, fails: [long_input] is a sequence of bytes whose
    length is a multiple of 7 and at most [SEQUENTIAL_DATA_MAX], and
    unpacking its packed form does not give it back (the loop of [pack] is
    left at value 112000, when the packed size reaches the capacity). *)
Lemma Seq_roundtrip_fails_over_112000 :
  Forall is_byte long_input
  /\ len long_input mod 7 = 0
  /\ len long_input <= SEQUENTIAL_DATA_MAX
  /\ Seq_unpack (Seq_pack long_input) <> long_input.
Proof.
  split; [exact long_input_bytes|]. rewrite long_input_len.
  split; [reflexivity|]. split; [unfold SEQUENTIAL_DATA_MAX; lia|].
  intros Heq.
  pose proof (Seq_unpack_len_le (Seq_pack long_input)) as Hu.
  pose proof (Seq_pack_len_le long_input) as Hp.
  rewrite Heq, long_input_len in Hu. unfold SEQUENTIAL_DATA_MAX in Hp. lia.
Qed.

(** C1, amended: for every sequence [x] of byte values whose packed form
    fits the capacity (length n with n + ceil(n/7) <= SEQUENTIAL_DATA_MAX,
    that is n <= 112000), [Seq_unpack (Seq_pack x)] equals [x] element for
    element, whether or not n is a multiple of 7. *)
Theorem Seq_unpack_pack_roundtrip (x : UnpackedData) :
  Forall is_byte x ->
  len x + (len x + 6) / 7 <= SEQUENTIAL_DATA_MAX ->
  Seq_unpack (Seq_pack x) = x.
Proof.
  intros Hbytes Hfit.
  rewrite Seq_pack_complete by exact Hfit.
  destruct (pack_inv_run x Hbytes) as (_ & _ & _ & _ & _ & Hdecode).
  specialize (Hdecode 0 ltac:(lia)).
  rewrite Z.mul_0_r, Z.add_0_r in Hdecode.
  unfold Seq_unpack, flush.
  assert (Hx : len x <= SEQUENTIAL_DATA_MAX).
  { assert (0 <= (len x + 6) / 7) by (apply Z.div_pos; unfold len; lia). lia. }
  rewrite unpack_loop_eq_run; rewrite Hdecode; cbn [u_values].
  - apply Seq_set_all.
  - exact Hx.
Qed.

Lemma Seq_unpack_pack_roundtrip_witness :
  Seq_unpack (Seq_pack [0x81; 0x02; 0x83; 0x04; 0x85; 0x06; 0x87; 0xff; 0x00])
  = [0x81; 0x02; 0x83; 0x04; 0x85; 0x06; 0x87; 0xff; 0x00].
Proof.
  apply Seq_unpack_pack_roundtrip.
  - repeat constructor; unfold is_byte; lia.
  - vm_compute. discriminate.
Defined.

(** C3, as stated, fails at n = 0: the empty input is packed into one
    pack byte, and ceil(0/7) + 0 = 0. *)
Lemma Seq_pack_size_fails_at_0 :
  len (@nil Z) + (len (@nil Z) + 6) / 7 <= SEQUENTIAL_DATA_MAX
  /\ Seq_pack [] = [0]
  /\ len (Seq_pack []) <> (len (@nil Z) + 6) / 7 + len (@nil Z).
Proof.
  split; [vm_compute; discriminate|]. split; [reflexivity|].
  vm_compute. discriminate.
Qed.

(** C3, amended: for every unpacked input of n >= 1 values whose packed
    form fits the capacity, the size of the output of [Seq_pack] is
    ceil(n/7) + n, a final short run included; for n = 0 the output is a
    single pack byte. *)
Theorem Seq_pack_size (x : UnpackedData) :
  len x + (len x + 6) / 7 <= SEQUENTIAL_DATA_MAX ->
  len (Seq_pack x) = if len x =? 0 then 1 else (len x + 6) / 7 + len x.
Proof.
  intros Hfit. rewrite Seq_pack_complete by exact Hfit.
  destruct (pack_shape_run x) as (Hp & Hpk & Hne & (m & Hm & HV & Hx)).
  unfold flush. rewrite len_app, len_cons, HV.
  assert (Hfirst : len (firstn (Z.to_nat (p_pos (pack_run x pack_init)))
                          (p_packet (pack_run x pack_init)))
                   = p_pos (pack_run x pack_init)).
  { unfold len. rewrite length_firstn. lia. }
  rewrite Hfirst.
  destruct x as [|c x'].
  - change (len (@nil Z)) with 0 in *. cbn [Z.eqb]. lia.
  - specialize (Hne ltac:(discriminate)).
    destruct (Z.eqb_spec (len (c :: x')) 0) as [E|E].
    + rewrite len_cons in E. pose proof (len_nonneg x'). lia.
    + Z.div_mod_to_equations. lia.
Qed.

Lemma Seq_pack_size_witness :
  len (Seq_pack [1; 2; 3; 4; 5; 6; 7; 8; 9]) = 11.
Proof.
  apply (Seq_pack_size [1; 2; 3; 4; 5; 6; 7; 8; 9]).
  vm_compute. discriminate.
Defined.

Lemma unpack_init_len : len (u_values unpack_init) <= SEQUENTIAL_DATA_MAX.
Proof. vm_compute. discriminate. Qed.



(** ** Loops over arrays *)

Lemma for_loop_inv {S : Type} (P : S -> Prop) (body : Z -> S -> S) :
  (forall i s, P s -> P (body i s)) ->
  forall n i s, P s -> P (for_loop n i body s).
Proof.
  intros Hbody n. induction n as [|n IH]; intros i s Hs; simpl.
  - exact Hs.
  - apply IH. apply Hbody. exact Hs.
Qed.

Lemma for_range_inv {S : Type} (P : S -> Prop) (body : Z -> S -> S) lo hi s :
  (forall i s, P s -> P (body i s)) -> P s -> P (for_range lo hi body s).
Proof. intros Hbody Hs. unfold for_range. now apply for_loop_inv. Qed.

(** The same with an invariant that follows the index. *)
Lemma for_loop_inv_bounded {St : Type} (P : Z -> St -> Prop)
    (body : Z -> St -> St) (n : nat) :
  forall i s,
    (forall k s, i <= k < i + Z.of_nat n -> P k s -> P (k + 1) (body k s)) ->
    P i s -> P (i + Z.of_nat n) (for_loop n i body s).
Proof.
  induction n as [|n IH]; intros i s Hbody Hs.
  - cbn [for_loop]. change (Z.of_nat 0) with 0. rewrite Z.add_0_r. exact Hs.
  - cbn [for_loop].
    replace (i + Z.of_nat (S n)) with (i + 1 + Z.of_nat n) by lia.
    apply IH.
    + intros k s' Hk. apply Hbody. lia.
    + apply Hbody; [lia | exact Hs].
Qed.

(** A loop that stores [g k] at every index [k] it visits. *)
Lemma for_loop_upd (g : Z -> Z) (n : nat) (i : Z) (a : array) (j : Z) :
  for_loop n i (fun k d => upd d k (g k)) a j
  = if (i <=? j) && (j <? i + Z.of_nat n) then g j else a j.
Proof.
  revert i a. induction n as [|n IH]; intros i a.
  - simpl for_loop.
    destruct (Z.leb_spec i j); destruct (Z.ltb_spec j (i + Z.of_nat 0));
      simpl; try reflexivity; lia.
  - simpl for_loop. rewrite IH. unfold upd.
    destruct (Z.leb_spec (i + 1) j); destruct (Z.ltb_spec j (i + 1 + Z.of_nat n));
      destruct (Z.leb_spec i j); destruct (Z.ltb_spec j (i + Z.of_nat (S n)));
      destruct (Z.eqb_spec j i); simpl; try reflexivity; try lia.
    subst j. reflexivity.
Qed.

Lemma for_range_upd (g : Z -> Z) (lo hi : Z) (a : array) (j : Z) :
  for_range lo hi (fun k d => upd d k (g k)) a j
  = if (lo <=? j) && (j <? hi) then g j else a j.
Proof.
  unfold for_range. rewrite for_loop_upd.
  destruct (Z.leb_spec lo j); destruct (Z.ltb_spec j hi);
    destruct (Z.ltb_spec j (lo + Z.of_nat (Z.to_nat (hi - lo))));
    simpl; try reflexivity; lia.
Qed.

(** A loop whose body adds [k] to a counter kept next to its data. *)
Lemma for_loop_count {A : Type} (body : Z -> Z * A -> Z * A) (k : Z) :
  (forall i st, fst (body i st) = fst st + k) ->
  forall n i st, fst (for_loop n i body st) = fst st + Z.of_nat n * k.
Proof.
  intros Hbody n. induction n as [|n IH]; intros i st.
  - simpl. lia.
  - simpl for_loop. rewrite IH, Hbody. lia.
Qed.

Lemma for_range_count {A : Type} (body : Z -> Z * A -> Z * A) (k lo hi : Z) st :
  (forall i st, fst (body i st) = fst st + k) ->
  lo <= hi ->
  fst (for_range lo hi body st) = fst st + (hi - lo) * k.
Proof.
  intros Hbody Hle. unfold for_range.
  rewrite (for_loop_count body k Hbody), Z2Nat.id by lia. reflexivity.
Qed.

Lemma all_from_spec (f : Z -> bool) (n : nat) (lo : Z) :
  all_from f n lo = true ->
  forall z, lo <= z < lo + Z.of_nat n -> f z = true.
Proof.
  revert lo. induction n as [|n IH]; intros lo H z Hz.
  - lia.
  - simpl in H. apply andb_prop in H. destruct H as [H0 H1].
    destruct (Z.eq_dec z lo) as [->|Hne]; [exact H0|].
    apply (IH (lo + 1) H1). lia.
Qed.

Lemma wrap32_small (z : Z) : - 2 ^ 31 <= z < 2 ^ 31 -> wrap32 z = z.
Proof. intros H. unfold wrap32. rewrite Z.mod_small; lia. Qed.

(** ** pcm_proc.h: resolution *)

Lemma set_pcm_data_data (pcm : PCMData) (sz : Z) (src : array) (j : Z) :
  data (set_pcm_data pcm sz src) j
  = if (0 <=? j) && (j <? sz) then src j else data pcm j.
Proof. unfold set_pcm_data. cbn [data]. apply for_range_upd. Qed.










(** C4: the limits that [pcm_change_resolution] compares against are
    [(1 << new_resolution) - 1] and its complement, twice the range of the
    new resolution, so a rounded sample is never clamped.  The 16-bit
    sample 0x7F80 (discarded bits 1000 0000) narrows to 127, is rounded up to
    128 and wraps to the unsigned 8-bit value 0; the largest and smallest
    16-bit samples change sign; a 32-bit sample leaves the 16-bit range. *)
Theorem narrowing_does_not_clamp (mem : array) :
  data (pcm_change_resolution mem (one_sample 16 0x7f80) 8) 0 = 0
  /\ change_sample 16 8 32767 = 0
  /\ change_sample 16 8 (-32768) = 255
  /\ change_sample 32 16 0x7fff8000 = 32768.
Proof. repeat split; vm_compute; reflexivity. Qed.

(** ** pcm_proc.h: size *)

Lemma expand_loop_done (fuel : nat) (chans new_size data_size : Z)
    (mem data0 : array) :
  new_size <= data_size ->
  expand_loop fuel chans new_size data_size mem data0 = Some (data_size, data0).
Proof.
  intros Hle. destruct fuel; simpl;
    destruct (Z.ltb_spec data_size new_size); try lia; reflexivity.
Qed.

Lemma local_data_spec (mem : array) (pcm : PCMData) (j : Z) :
  local_data mem pcm j
  = if (0 <=? j) && (j <? size pcm) then data pcm j else mem j.
Proof. apply for_range_upd. Qed.

(** When the buffer is not made longer, [pcm_change_size] returns, with
    [new_size] samples per channel, and every sample of the result is an
    entry of [local_data]. *)
Lemma pcm_change_size_no_growth `{Float32} (fuel : nat) (mem : array)
    (pcm : PCMData) (new_size : Z) :
  1 < size pcm ->
  1 <= channels pcm ->
  0 <= new_size <= size pcm ->
  new_size <= Z.quot PCM_PROC_MAX (channels pcm) ->
  exists resized : array,
    pcm_change_size fuel mem pcm new_size
    = Some (set_pcm_data pcm (new_size * channels pcm) resized)
    /\ forall j, resized j = mem j \/ exists ix, resized j = local_data mem pcm ix.
Proof.
  intros Hsize Hch Hnew Hmax. unfold pcm_change_size.
  destruct (Z.gtb_spec new_size (Z.quot PCM_PROC_MAX (channels pcm))); [lia|].
  destruct (Z.gtb_spec (size pcm) 1); [|lia].
  rewrite expand_loop_done by lia.
  fold (local_data mem pcm).
  match goal with
  | |- context [for_range 0 new_size ?body (0, mem)] =>
      set (outer := body);
      destruct (for_range 0 new_size outer (0, mem)) as [dx resized] eqn:E
  end.
  assert (Hinner : forall i st, fst (outer i st) = fst st + channels pcm).
  { intros i st. unfold outer.
    rewrite (for_range_count _ 1) by (try lia; intros ch [d r]; reflexivity).
    lia. }
  assert (Hdx : dx = new_size * channels pcm).
  { pose proof (for_range_count outer (channels pcm) 0 new_size (0, mem)
                  Hinner ltac:(lia)) as Hc.
    rewrite E in Hc. cbn [fst] in Hc. lia. }
  assert (Hres : forall j, resized j = mem j
                           \/ exists ix, resized j = local_data mem pcm ix).
  { change resized with (snd (dx, resized)). rewrite <- E.
    apply (for_range_inv
             (fun st => forall j, snd st j = mem j
                                  \/ exists ix, snd st j = local_data mem pcm ix)).
    - intros i st Hst. unfold outer. apply for_range_inv; [|exact Hst].
      intros ch [d r] Hr j. cbn [snd] in *. unfold upd.
      destruct (j =? d); [right; eexists; reflexivity | apply Hr].
    - intros j. left. reflexivity. }
  exists resized. subst dx. split; [reflexivity | exact Hres].
Qed.

(** With one channel the call with the current size is the identity, as
    soon as the float operations compute [i * (size / size) * 1 + 0] as [i];
    single precision does, every index being below 2^24. *)
Lemma pcm_change_size_same_size_mono `{Float32} (fuel : nat) (mem : array)
    (pcm : PCMData) :
  channels pcm = 1 ->
  1 < size pcm <= PCM_PROC_MAX ->
  (forall i, 0 <= i < size pcm ->
     int_of_float
       (float_add
          (float_mul
             (float_mul (float_of_int i)
                (float_div (float_of_int (size pcm)) (float_of_int (size pcm))))
             (float_of_int 1))
          (float_of_int 0)) = i) ->
  exists r,
    pcm_change_size fuel mem pcm (size pcm) = Some r
    /\ size r = size pcm /\ channels r = 1 /\ resolution r = resolution pcm
    /\ forall j, data r j = data pcm j.
Proof.
  intros Hch Hsz Hexact. unfold pcm_change_size. rewrite Hch.
  change (Z.quot PCM_PROC_MAX 1) with PCM_PROC_MAX.
  destruct (Z.gtb_spec (size pcm) PCM_PROC_MAX); [lia|].
  destruct (Z.gtb_spec (size pcm) 1); [|lia].
  rewrite expand_loop_done by lia.
  fold (local_data mem pcm).
  match goal with
  | |- context [for_range 0 (size pcm) ?body (0, mem)] =>
      set (outer := body);
      destruct (for_range 0 (size pcm) outer (0, mem)) as [dx resized] eqn:E
  end.
  assert (Hinv : fst (dx, resized) = size pcm
                 /\ forall j, 0 <= j < size pcm ->
                              snd (dx, resized) j = data pcm j).
  { rewrite <- E. unfold for_range.
    pose proof (for_loop_inv_bounded
                  (fun i st => fst st = i
                               /\ forall j, 0 <= j < i -> snd st j = data pcm j)
                  outer (Z.to_nat (size pcm - 0)) 0 (0, mem)) as Hloop.
    replace (0 + Z.of_nat (Z.to_nat (size pcm - 0))) with (size pcm)
      in Hloop by lia.
    apply Hloop.
    - intros k [d r] Hk [Hd Hr]. cbn [fst snd] in Hd, Hr. subst d.
      unfold outer, for_range. change (Z.to_nat (1 - 0)) with 1%nat.
      cbn [for_loop fst snd]. rewrite Hexact by lia.
      destruct (Z.geb_spec k (size pcm * 1)); [lia|].
      split; [reflexivity|]. intros j Hj. unfold upd.
      destruct (Z.eqb_spec j k) as [->|Hne].
      + rewrite local_data_spec.
        destruct (Z.leb_spec 0 k); destruct (Z.ltb_spec k (size pcm));
          try lia. reflexivity.
      + apply Hr. lia.
    - split; [reflexivity|]. intros j Hj. lia. }
  cbn [fst snd] in Hinv. destruct Hinv as [Hdx Hres]. subst dx.
  eexists. split; [reflexivity|]. unfold set_pcm_data. cbn [size channels resolution data].
  split; [rewrite Hch; apply Z.div_1_r|]. split; [exact Hch|].
  split; [reflexivity|].
  intros j. rewrite for_range_upd.
  destruct (Z.leb_spec 0 j); destruct (Z.ltb_spec j (size pcm));
    cbn [andb]; try reflexivity.
  apply Hres. lia.
Qed.

(** C8: [pcm_change_size] copies [size] entries into its local array and
    then reads [size * channels] of them.  For [stereo_pcm] and a stack
    that holds zeros, the call with the current size returns a buffer whose
    sample 2 is not the 30 that was stored, however the float operations
    round. *)
Theorem pcm_change_size_same_size_stereo `{Float32} (fuel : nat) :
  exists r,
    pcm_change_size fuel (fun _ => 0) stereo_pcm (size stereo_pcm) = Some r
    /\ size r = size stereo_pcm
    /\ channels r = channels stereo_pcm
    /\ data stereo_pcm 2 = 30
    /\ data r 2 <> 30.
Proof.
  destruct (pcm_change_size_no_growth fuel (fun _ => 0) stereo_pcm
              (size stereo_pcm)) as (resized & Heq & Hres).
  - reflexivity.
  - cbn. lia.
  - cbn. lia.
  - vm_compute. discriminate.
  - eexists. split; [exact Heq|].
    split; [reflexivity|]. split; [reflexivity|]. split; [reflexivity|].
    rewrite set_pcm_data_data.
    change ((0 <=? 2) && (2 <? size stereo_pcm * channels stereo_pcm))
      with true. cbv iota.
    destruct (Hres 2) as [H0|[ix Hix]].
    + rewrite H0. discriminate.
    + rewrite Hix, local_data_spec.
      destruct ((0 <=? ix) && (ix <? size stereo_pcm)) eqn:E;
        [|discriminate].
      apply andb_prop in E. destruct E as [E0 E1].
      apply Z.leb_le in E0. apply Z.ltb_lt in E1.
      change (size stereo_pcm) with 2 in E1.
      assert (Hc : ix = 0 \/ ix = 1) by lia.
      destruct Hc as [-> | ->]; vm_compute; discriminate.
Qed.

(** ** pcm_proc.h: morph *)

(** C10: the buffer returned by [pcm_morph] has one channel and 16 bits
    whatever the channels and resolution of its inputs, as many samples per
    channel as [start], and sample [j] of it, for [j] below [start]'s size
    per channel, is computed from entry [j] of the two arrays; the rest of
    its storage is what it was before the call.  So two pairs of inputs that
    agree on their first [size start] entries give the same samples: the
    interleaved entries beyond are never read. *)
Theorem pcm_morph_result `{Float32} (mem : array) (start end_ : PCMData)
    (scale : float) :
  let morphed := pcm_morph mem start end_ scale in
  channels morphed = 1
  /\ resolution morphed = 16
  /\ size morphed = size start
  /\ (forall j,
        data morphed j
        = if (0 <=? j) && (j <? size start)
          then morph_sample (data start j) (data end_ j) scale
          else mem j)
  /\ (forall start' end',
        size start' = size start ->
        (forall j, 0 <= j < size start ->
                   data start' j = data start j /\ data end' j = data end_ j) ->
        forall j, data (pcm_morph mem start' end' scale) j = data morphed j).
Proof.
  assert (Hdata : forall s e j,
            data (pcm_morph mem s e scale) j
            = if (0 <=? j) && (j <? size s)
              then morph_sample (data s j) (data e j) scale
              else mem j).
  { intros s e j. unfold pcm_morph. cbv zeta.
    rewrite set_pcm_data_data, for_range_upd. cbn [data new_PCMData].
    destruct ((0 <=? j) && (j <? size s)); reflexivity. }
  intros morphed. split; [reflexivity|]. split; [reflexivity|].
  split; [|split].
  - unfold morphed, pcm_morph, set_pcm_data, new_PCMData.
    cbn [size channels]. apply Z.div_1_r.
  - intros j. apply Hdata.
  - intros start' end' Hsz Hagree j. unfold morphed. rewrite !Hdata, Hsz.
    destruct (Z.leb_spec 0 j); destruct (Z.ltb_spec j (size start));
      cbn [andb]; try reflexivity.
    destruct (Hagree j ltac:(lia)) as [-> ->]. reflexivity.
Qed.

(** ** pcm_proc.h: WAV files *)

(** C9, as stated, fails: for the 44-byte header of a 16-bit mono file and
    8 bytes of data, [get_wav_meta] reports 4 samples, not 2. *)
Lemma get_wav_meta_scenario_reports_4 :
  len (wav_header 1 16 44100 8) = 44
  /\ len synthetic_wav = 52
  /\ WAV.samples (WAV.get_wav_meta (WAV.mkMeta 0 0 0 0 0) 52
                                   (array_of_list synthetic_wav)) <> 2.
Proof.
  split; [reflexivity|]. split; [reflexivity|]. vm_compute. discriminate.
Qed.

(** C9, amended: for the 44-byte canonical header of a 16-bit mono file
    followed by 8 bytes of data, [get_wav_meta] reports channels = 1,
    resolution = 16 and samples = 4, the 8 bytes being four 16-bit samples
    (the data starts at byte 44 and ends at byte 52); it reports
    samples = 2 when the data are the 4 bytes of two samples. *)
Theorem get_wav_meta_scenario (meta : WAV.WAVMeta) :
  WAV.get_wav_meta meta (len synthetic_wav) (array_of_list synthetic_wav)
  = WAV.mkMeta 44 52 4 1 16
  /\ WAV.get_wav_meta meta (len two_sample_wav) (array_of_list two_sample_wav)
     = WAV.mkMeta 44 48 2 1 16.
Proof. split; vm_compute; reflexivity. Qed.

(** ** pro3_wavetable.h: filling *)

Lemma fill_target_isset `{Float32} (c n t : Z) (table : Wavetable) :
  isset (fill_target c n t table) = isset table.
Proof.
  unfold fill_target. cbv zeta.
  apply (for_range_inv (fun tb => isset tb = isset table)).
  - intros i tb Htb. exact Htb.
  - reflexivity.
Qed.

Lemma fill_next_isset `{Float32} (left : nat) (c n : Z) (table : Wavetable) :
  isset (fill_next left c n table) = isset table.
Proof.
  revert n. induction left as [|left IH]; intros n; simpl.
  - reflexivity.
  - destruct (isset table n =? 1).
    + apply (for_range_inv (fun tb => isset tb = isset table)).
      * intros t tb Htb. rewrite fill_target_isset. exact Htb.
      * reflexivity.
    + apply IH.
Qed.

(** The only flag that [wavetable_fill] ever writes is the last one. *)
Lemma wavetable_fill_isset `{Float32} (table : Wavetable) :
  isset (wavetable_fill table)
  = if isset table 0 =? 0 then isset table
    else if isset table (PRO3_WAVES - 1) =? 0
         then upd (isset table) (PRO3_WAVES - 1) 1
         else isset table.
Proof.
  unfold wavetable_fill.
  destruct (isset table 0 =? 0); [reflexivity|]. cbv zeta.
  match goal with
  | |- isset (for_range 1 16 ?body ?tb) = ?r =>
      assert (Htb : isset tb = r);
      [| rewrite <- Htb;
         apply (for_range_inv (fun t => isset t = isset tb));
         [| reflexivity] ]
  end.
  - destruct (isset table (PRO3_WAVES - 1) =? 0); [|reflexivity].
    unfold set_isset. cbn [isset].
    apply (f_equal (fun a => upd a (PRO3_WAVES - 1) 1)).
    apply (for_range_inv (fun t => isset t = isset table)).
    + intros i t Ht. exact Ht.
    + reflexivity.
  - intros c t Ht. destruct (isset t c =? 0); [|exact Ht].
    rewrite fill_next_isset. exact Ht.
Qed.

(** The part of C7 that holds: without waveform 0 nothing is changed. *)
Lemma wavetable_fill_without_first `{Float32} (table : Wavetable) :
  isset table 0 = 0 -> wavetable_fill table = table.
Proof. intros H0. unfold wavetable_fill. rewrite H0. reflexivity. Qed.

Lemma new_Wavetable_isset (k : Z) : isset new_Wavetable k = 0.
Proof.
  unfold new_Wavetable.
  apply (for_range_inv (fun tb => isset tb k = 0)).
  - intros i tb Htb.
    apply (for_range_inv (fun tb => isset tb k = 0)).
    + intros j tb' Htb'. exact Htb'.
    + unfold set_isset, upd. cbn [isset]. destruct (k =? i); [reflexivity|].
      exact Htb.
  - reflexivity.
Qed.

Lemma first_only_isset (k : Z) : isset first_only k = if k =? 0 then 1 else 0.
Proof.
  unfold first_only, set_isset, upd. cbn [isset].
  destruct (k =? 0); [reflexivity|]. apply new_Wavetable_isset.
Qed.

Lemma fill_first_only_isset `{Float32} (k : Z) :
  isset (wavetable_fill first_only) k
  = if k =? 15 then 1 else if k =? 0 then 1 else 0.
Proof.
  rewrite wavetable_fill_isset.
  rewrite (first_only_isset 0), (first_only_isset (PRO3_WAVES - 1)).
  change ((if 0 =? 0 then 1 else 0) =? 0) with false.
  change ((if PRO3_WAVES - 1 =? 0 then 1 else 0) =? 0) with true.
  cbv iota. unfold upd. change (PRO3_WAVES - 1) with 15.
  rewrite first_only_isset. reflexivity.
Qed.

(** C7: [wavetable_fill] writes the samples of the waveforms it fills and
    not their flags ([isset] is assigned for the last waveform alone).  On
    [first_only] it changes the table (flag 15 goes from 0 to 1) and leaves
    the flags of waveforms 1 to 14 at 0, so that afterwards neither every
    slot is set nor is the table unmodified. *)
Theorem wavetable_fill_leaves_flags_unset `{Float32} :
  isset first_only 0 = 1
  /\ isset first_only 15 = 0
  /\ isset (wavetable_fill first_only) 15 = 1
  /\ forall k, 1 <= k <= 14 -> isset (wavetable_fill first_only) k = 0.
Proof.
  rewrite !first_only_isset, fill_first_only_isset.
  split; [reflexivity|]. split; [reflexivity|]. split; [reflexivity|].
  intros k Hk. rewrite fill_first_only_isset.
  destruct (Z.eqb_spec k 15); [lia|].
  destruct (Z.eqb_spec k 0); [lia|]. reflexivity.
Qed.

(** ** pro3_wavetable.h: the system exclusive dump *)

Lemma for_loop_inv_idx {St : Type} (P : Z -> St -> Prop) (body : Z -> St -> St) :
  (forall i s, P i s -> P (i + 1) (body i s)) ->
  forall n i s, P i s -> P (i + Z.of_nat n) (for_loop n i body s).
Proof.
  intros Hbody n. induction n as [|n IH]; intros i s Hs.
  - cbn [for_loop]. change (Z.of_nat 0) with 0. rewrite Z.add_0_r. exact Hs.
  - cbn [for_loop].
    replace (i + Z.of_nat (S n)) with (i + 1 + Z.of_nat n) by lia.
    apply IH. apply Hbody. exact Hs.
Qed.

Lemma for_loop_measure {St : Type} (m : St -> Z) (body : Z -> St -> St) (k : Z) :
  (forall i s, m (body i s) = m s + k) ->
  forall n i s, m (for_loop n i body s) = m s + Z.of_nat n * k.
Proof.
  intros Hbody n. induction n as [|n IH]; intros i s.
  - simpl. lia.
  - simpl for_loop. rewrite IH, Hbody. lia.
Qed.

Lemma land_0x7f_range (a : Z) : 0 <= Z.land a 0x7f < 128.
Proof.
  change 0x7f with (Z.ones 7). rewrite Z.land_ones by lia.
  apply Z.mod_pos_bound. reflexivity.
Qed.

Lemma low_bits_seven_bit (c : Z) : packable c -> seven_bit (low_bits c).
Proof.
  intros Hc. unfold low_bits, seven_bit.
  destruct (Z.eqb_spec (Z.land c 0x80) 0) as [E|E].
  - destruct Hc as [Hc|Hc]; [contradiction | exact Hc].
  - apply land_0x7f_range.
Qed.

Lemma pow2_le_128 (k : Z) : 0 <= k <= 7 -> 2 ^ k <= 128.
Proof.
  intros Hk. change 128 with (2 ^ 7). apply Z.pow_le_mono_r; lia.
Qed.

Lemma flush_clean (st : pack_state) :
  pack_clean st -> Forall seven_bit (flush st).
Proof.
  intros (Hp & _ & Hpb & Hv & Hk). unfold flush.
  apply Forall_app. split; [exact Hv|].
  constructor; [|exact Hk].
  pose proof (pow2_le_128 _ Hp). unfold seven_bit. lia.
Qed.

Lemma pack_body_clean (c : Z) (st : pack_state) :
  packable c -> pack_clean st -> pack_clean (pack_body c st).
Proof.
  intros Hc Hst. pose proof (flush_clean st Hst) as Hfl.
  destruct Hst as (Hp & Hpk & Hpb & Hv & Hk).
  pose proof (low_bits_seven_bit c Hc) as Hlow.
  pose proof (high_bit_range c) as Hbit.
  rewrite pack_body_eq. cbv zeta. unfold pack_clean.
  destruct (Z.eqb_spec (p_pos st) 7) as [E|E];
    cbn [p_values p_packbyte p_pos p_packet].
  - change (0 + 1) with 1. change (2 ^ 0) with 1. change (2 ^ 1) with 2.
    split; [lia|]. split; [rewrite set_nth_length; exact Hpk|].
    split; [lia|]. split; [exact Hfl|].
    destruct (p_packet st) as [|p0 rest]; [discriminate Hpk|].
    cbn. constructor; [exact Hlow | constructor].
  - assert (Hnat : Z.to_nat (p_pos st + 1) = S (Z.to_nat (p_pos st))) by lia.
    split; [lia|]. split; [rewrite set_nth_length; exact Hpk|].
    split; [rewrite pow2_succ by lia; nia|]. split; [exact Hv|].
    rewrite Hnat, firstn_set_nth by lia.
    apply Forall_app. split; [exact Hk|]. constructor; [exact Hlow|constructor].
Qed.

Lemma pack_loop_clean (input : list Z) (st : pack_state) :
  Forall packable input -> pack_clean st -> pack_clean (pack_loop input st).
Proof.
  revert st. induction input as [|c rest IH]; intros st Hin Hst.
  - exact Hst.
  - cbn [pack_loop]. inversion Hin as [|? ? Hc Hrest]; subst.
    pose proof (pack_body_clean c st Hc Hst) as Hst'.
    destruct (len (p_values (pack_body c st)) + 8 >? SEQUENTIAL_DATA_MAX).
    + exact Hst'.
    + apply IH; assumption.
Qed.

(** Packed data are seven-bit clean, as system exclusive data must be. *)
Lemma Seq_pack_seven_bit (x : UnpackedData) :
  Forall packable x -> Forall seven_bit (Seq_pack x).
Proof.
  intros Hx. unfold Seq_pack. rewrite Seq_set_all.
  apply flush_clean. apply pack_loop_clean; [exact Hx|].
  unfold pack_clean, pack_init. cbn [p_pos p_packet p_packbyte p_values].
  split; [lia|]. split; [reflexivity|]. split; [cbn; lia|].
  split; constructor.
Qed.

Lemma packableb_packable (c : Z) : packableb c = true -> packable c.
Proof.
  unfold packableb, packable. intros H.
  apply orb_prop in H. destruct H as [H|H].
  - left. apply negb_true_iff in H. apply Z.eqb_neq. exact H.
  - right. apply andb_prop in H. destruct H as [H0 H1].
    apply Z.leb_le in H0. apply Z.ltb_lt in H1. lia.
Qed.

Lemma to_int16_range (v : Z) : -32768 <= to_int16 v < 32768.
Proof.
  unfold to_int16. change (2 ^ 15) with 32768. change (2 ^ 16) with 65536.
  pose proof (Z.mod_pos_bound (v + 32768) 65536 ltac:(lia)). lia.
Qed.

(** *** Standard output *)

Lemma Seq_dump_out (d : SequentialData) (out : list Z) :
  Seq_dump d out = out ++ map to_uchar d.
Proof.
  unfold Seq_dump. revert out. induction d as [|v d IH]; intros out; simpl.
  - now rewrite app_nil_r.
  - rewrite IH. unfold putchar. rewrite <- app_assoc. reflexivity.
Qed.

Lemma printf_8s_out (name : c_string) (out : list Z) :
  printf_8s name out = out ++ map char_code (firstn 8 name).
Proof.
  unfold printf_8s. generalize (firstn 8 name). intros l. revert out.
  induction l as [|a l IH]; intros out; simpl.
  - now rewrite app_nil_r.
  - rewrite IH, <- app_assoc. reflexivity.
Qed.

Lemma to_uchar_small (v : Z) : 0 <= v < 256 -> to_uchar v = v.
Proof. intros Hv. unfold to_uchar. apply Z.mod_small. exact Hv. Qed.

Lemma map_to_uchar_seven_bit (l : list Z) :
  Forall seven_bit l -> map to_uchar l = l.
Proof.
  induction 1 as [|v l Hv Hl IH]; simpl; [reflexivity|].
  rewrite IH, to_uchar_small; [reflexivity|]. unfold seven_bit in Hv. lia.
Qed.

(** The two checksum bytes, as the casts of the code leave them. *)
Lemma checksum_low_byte (ck : Z) :
  to_uchar (to_char (Z.land ck 0x7f)) = Z.land ck 0x7f.
Proof.
  pose proof (land_0x7f_range ck) as Hr.
  unfold to_uchar, to_char. change (2 ^ 7) with 128. change (2 ^ 8) with 256.
  rewrite (Z.mod_small (Z.land ck 0x7f + 128)) by lia.
  rewrite Z.mod_small; lia.
Qed.

Lemma checksum_high_byte (ck : Z) :
  to_uchar (Z.land (to_char (Z.shiftr ck 8)) 0x7f)
  = Z.land (Z.shiftr ck 8) 0x7f.
Proof.
  rewrite to_uchar_small
    by (pose proof (land_0x7f_range (to_char (Z.shiftr ck 8))); lia).
  change 0x7f with (Z.ones 7). rewrite !Z.land_ones by lia.
  unfold to_char. change (2 ^ 7) with 128. change (2 ^ 8) with 256.
  generalize (Z.shiftr ck 8). intros h. Z.div_mod_to_equations. lia.
Qed.

(** *** The name *)

Lemma pad8_length (name : c_string) : length (pad8 name) = 8%nat.
Proof.
  unfold pad8. rewrite length_firstn, length_app, repeat_length. lia.
Qed.

Lemma pad_name_enough (fuel : nat) (name : c_string) :
  (8 - length name <= fuel)%nat ->
  pad_name fuel name = Some (name ++ repeat space (8 - length name)).
Proof.
  revert name. induction fuel as [|fuel IH]; intros name Hf;
    cbn [pad_name]; unfold strlen, len;
    destruct (Z.ltb_spec (Z.of_nat (length name)) 8) as [Hlt|Hge].
  - lia.
  - replace (8 - length name)%nat with 0%nat by lia.
    cbn [repeat]. now rewrite app_nil_r.
  - rewrite IH by (unfold strcat; rewrite length_app; cbn [length]; lia).
    unfold strcat. rewrite length_app. cbn [length].
    replace (8 - length name)%nat with (S (8 - (length name + 1))) by lia.
    cbn [repeat]. rewrite <- app_assoc. reflexivity.
  - replace (8 - length name)%nat with 0%nat by lia.
    cbn [repeat]. now rewrite app_nil_r.
Qed.

(** Eight rounds of the padding loop are always enough, and what is then
    printed is the spec's padded name. *)
Lemma pad_name_8 (name : c_string) :
  exists padded, pad_name 8 name = Some padded /\ firstn 8 padded = pad8 name.
Proof.
  eexists. split; [apply pad_name_enough; lia | reflexivity].
Qed.

(** ** Examples, run with exact arithmetic *)

(** Halving a mono buffer keeps every other sample. *)
Example pcm_change_size_halves :
  option_map (fun r => (size r, map (data r) [0; 1]))
    (@pcm_change_size exact_float 0 (fun _ => 0)
       (mkPCM 4 (array_of_list [1; 2; 3; 4]) 1 16) 2)
  = Some (2, [1; 3]).
Proof. vm_compute. reflexivity. Qed.

(** Growing one puts mean values in between; one round of doubling is
    needed here, and no round is not enough. *)
Example pcm_change_size_grows :
  option_map (fun r => (size r, map (data r) [0; 1; 2]))
    (@pcm_change_size exact_float 1 (fun _ => 0)
       (mkPCM 2 (array_of_list [0; 10]) 1 16) 3)
  = Some (3, [0; 5; 10])
  /\ @pcm_change_size exact_float 0 (fun _ => 0)
       (mkPCM 2 (array_of_list [0; 10]) 1 16) 3 = None.
Proof. split; vm_compute; reflexivity. Qed.

(** The stereo buffer of C8, resized to its own size on a zeroed stack. *)
Example pcm_change_size_stereo_run :
  option_map (fun r => (size r, channels r, map (data r) [0; 1; 2; 3]))
    (@pcm_change_size exact_float 0 (fun _ => 0) stereo_pcm 2)
  = Some (2, 2, [10; 20; 0; 0]).
Proof. vm_compute. reflexivity. Qed.

(** Halfway between two waveforms. *)
Example pcm_morph_halfway :
  let morphed :=
    @pcm_morph exact_float (fun _ => 0)
      (mkPCM 2 (array_of_list [0; 100; 7; 7]) 2 8)
      (mkPCM 2 (array_of_list [10; -100; 9; 9]) 2 8)
      (QArith_base.Qmake 1 2) in
  (size morphed, channels morphed, resolution morphed,
   map (data morphed) [0; 1; 2; 3])
  = (2, 1, 16, [5; 0; 0; 0]).
Proof. vm_compute. reflexivity. Qed.

(** * Further properties *)

(** ** sequential_packing.h: sizes, limits, the other round trip *)

Lemma unpack_run_within (packed : list Z) :
  len packed <= SEQUENTIAL_DATA_MAX ->
  unpack_loop packed unpack_init = unpack_run packed unpack_init.
Proof.
  intros Hin.
  destruct (Z_le_gt_dec (len (u_values (unpack_run packed unpack_init)))
                        SEQUENTIAL_DATA_MAX) as [Hle|Hgt].
  - apply unpack_loop_eq_run. exact Hle.
  - pose proof (unpack_loop_len_upper packed unpack_init) as Hup.
    rewrite unpack_loop_cap in Hup; [|exact unpack_init_len|lia].
    cbn [unpack_init u_pos u_values] in Hup.
    change (len (@nil Z)) with 0 in Hup. change (0 =? 0) with true in Hup.
    cbv iota in Hup. unfold SEQUENTIAL_DATA_MAX in *. lia.
Qed.

(** X1: on a packed input that a [PackedData] can hold (at most
    [SEQUENTIAL_DATA_MAX] values) [Seq_unpack] returns exactly
    [7 * size / 8] values, rounded down: one value for every input value
    that is not a pack byte, a short last packet included. *)
Theorem Seq_unpack_size (packed : PackedData) :
  len packed <= SEQUENTIAL_DATA_MAX ->
  len (Seq_unpack packed) = 7 * len packed / 8.
Proof.
  intros Hin. unfold Seq_unpack. rewrite Seq_set_all.
  pose proof (unpack_loop_len_upper packed unpack_init) as Hup.
  pose proof (unpack_run_len_lower packed unpack_init) as Hlow.
  rewrite unpack_run_within in * by exact Hin.
  cbn [unpack_init u_pos u_values] in Hup, Hlow.
  change (len (@nil Z)) with 0 in Hup, Hlow.
  change (0 =? 0) with true in Hup, Hlow. cbv iota in Hup, Hlow.
  specialize (Hup ltac:(lia)). specialize (Hlow ltac:(lia)).
  Z.div_mod_to_equations. lia.
Qed.

Lemma Seq_unpack_size_witness :
  len (Seq_unpack [0x55; 1; 2; 3; 4; 5; 6; 7; 0x01; 8; 9]) = 9.
Proof.
  apply (Seq_unpack_size [0x55; 1; 2; 3; 4; 5; 6; 7; 0x01; 8; 9]).
  vm_compute. discriminate.
Defined.

Lemma is_byte_packable (c : Z) : is_byte c -> packable c.
Proof.
  intros Hc.
  assert (H : all_from packableb 256 0 = true) by (vm_compute; reflexivity).
  apply packableb_packable. apply (all_from_spec _ _ _ H).
  unfold is_byte in Hc. lia.
Qed.

(** X2: when every input value is a byte (0 to 255), every value that
    [Seq_pack] returns is below 128, pack bytes included. *)
Theorem Seq_pack_bytes_seven_bit (x : UnpackedData) :
  Forall is_byte x -> Forall seven_bit (Seq_pack x).
Proof.
  intros Hx. apply Seq_pack_seven_bit.
  apply Forall_impl with (P := is_byte); [exact is_byte_packable | exact Hx].
Qed.

Lemma Seq_pack_bytes_seven_bit_witness :
  Forall seven_bit (Seq_pack [0xff; 0x80; 0x7f; 0x00; 0xaa; 0x55; 0x01; 0xfe]).
Proof.
  apply Seq_pack_bytes_seven_bit.
  repeat constructor; unfold is_byte; lia.
Defined.

Lemma pack_loop_app (a b : list Z) (st : pack_state) :
  len (p_values (pack_run a st)) + 8 <= SEQUENTIAL_DATA_MAX ->
  pack_loop (a ++ b) st = pack_loop b (pack_run a st).
Proof.
  revert st. induction a as [|c a IH]; intros st H.
  - reflexivity.
  - change (pack_run (c :: a) st) with (pack_run a (pack_body c st)) in *.
    pose proof (pack_run_len_mono a (pack_body c st)) as Hm.
    cbn [app pack_loop].
    destruct (Z.gtb_spec (len (p_values (pack_body c st)) + 8) SEQUENTIAL_DATA_MAX).
    + lia.
    + apply IH. exact H.
Qed.

Lemma firstn_skipn_len (x : list Z) (n : Z) :
  0 <= n <= len x -> len (firstn (Z.to_nat n) x) = n.
Proof. intros Hn. unfold len in *. rewrite length_firstn. lia. Qed.

(** Past 112000 values the loop of [pack] is left: only the first 112001
    values are packed. *)
Lemma Seq_pack_truncates (x : UnpackedData) :
  112000 < len x ->
  Seq_pack x = flush (pack_run (firstn (Z.to_nat 112001) x) pack_init).
Proof.
  intros Hlen. unfold Seq_pack. rewrite Seq_set_all. f_equal.
  assert (Hsplit : exists a c rest, x = a ++ c :: rest /\ len a = 112000).
  { exists (firstn (Z.to_nat 112000) x).
    destruct (skipn (Z.to_nat 112000) x) as [|c rest] eqn:Hsk.
    - pose proof (firstn_skipn (Z.to_nat 112000) x) as Hx.
      rewrite Hsk, app_nil_r in Hx.
      pose proof (firstn_skipn_len x 112000) as Hl. rewrite Hx in Hl. lia.
    - exists c, rest. split.
      + rewrite <- Hsk. symmetry. apply firstn_skipn.
      + apply firstn_skipn_len. lia. }
  destruct Hsplit as (a & c & rest & Hx & Ha). subst x.
  assert (Hfirst : firstn (Z.to_nat 112001) (a ++ c :: rest) = a ++ [c]).
  { replace (Z.to_nat 112001) with (S (length a)).
    - rewrite firstn_app.
      replace (S (length a) - length a)%nat with 1%nat by lia.
      rewrite firstn_all2 by lia. reflexivity.
    - apply Nat2Z.inj. rewrite Nat2Z.inj_succ. fold (len a). rewrite Ha.
      rewrite Z2Nat.id by lia. reflexivity. }
  rewrite Hfirst, pack_run_app.
  destruct (pack_shape_run a) as (Hp & Hpk & Hne & (m & Hm & HV & Hm')).
  assert (Hpos : p_pos (pack_run a pack_init) = 7).
  { assert (a <> []) by (intros ->; discriminate Ha). specialize (Hne H). lia. }
  rewrite pack_loop_app by (rewrite HV; unfold SEQUENTIAL_DATA_MAX; lia).
  cbn [pack_loop pack_run fold_left].
  pose proof (pack_body_values c (pack_run a pack_init)) as Hval.
  rewrite Hpos in Hval. change (7 =? 7) with true in Hval. cbv iota in Hval.
  pose proof (flush_len_ge (pack_run a pack_init)) as Hge.
  destruct (Z.gtb_spec (len (p_values (pack_body c (pack_run a pack_init))) + 8)
                       SEQUENTIAL_DATA_MAX) as [_|Hno]; [reflexivity|].
  exfalso. rewrite Hval in Hno. unfold flush in Hno.
  rewrite len_app, len_cons, Hpos in Hno.
  replace (Z.to_nat 7) with (length (p_packet (pack_run a pack_init))) in Hno by lia.
  rewrite firstn_all in Hno. unfold len in Hno, HV. rewrite Hpk in Hno.
  unfold SEQUENTIAL_DATA_MAX in Hno. lia.
Qed.

(** X3: on an input of more than 112000 values the loop of [Seq_pack] is
    left early, and the result has [SEQUENTIAL_DATA_MAX + 2] values: the
    last pack byte and the one value after it are stored past the 128000
    entries of the [values] array. *)
Theorem Seq_pack_overflows (x : UnpackedData) :
  112000 < len x ->
  len (Seq_pack x) = SEQUENTIAL_DATA_MAX + 2.
Proof.
  intros Hlen. rewrite Seq_pack_truncates by exact Hlen.
  destruct (pack_shape_run (firstn (Z.to_nat 112001) x))
    as (Hp & Hpk & Hne & (m & Hm & HV & Hm')).
  rewrite firstn_skipn_len in Hm' by lia.
  assert (Hnn : firstn (Z.to_nat 112001) x <> []).
  { intros E. apply (f_equal (@len Z)) in E.
    rewrite firstn_skipn_len in E by lia. discriminate E. }
  specialize (Hne Hnn).
  unfold flush. rewrite len_app, len_cons, HV.
  unfold len at 1. rewrite length_firstn.
  unfold SEQUENTIAL_DATA_MAX. lia.
Qed.

Lemma Seq_pack_overflows_witness :
  len (Seq_pack long_input) = SEQUENTIAL_DATA_MAX + 2.
Proof.
  apply Seq_pack_overflows. rewrite long_input_len. lia.
Defined.

(** What the [values] array holds of the result of [Seq_pack] on an input
    of more than 112000 values: the packets of the first 112000. *)
Lemma Seq_pack_kept (x : UnpackedData) :
  112000 < len x ->
  firstn (Z.to_nat SEQUENTIAL_DATA_MAX) (Seq_pack x)
  = flush (pack_run (firstn (Z.to_nat 112000) x) pack_init)
  /\ len (firstn (Z.to_nat 112000) x) = 112000.
Proof.
  intros Hlen. rewrite Seq_pack_truncates by exact Hlen.
  assert (Hsplit : exists a c rest, x = a ++ c :: rest /\ len a = 112000).
  { exists (firstn (Z.to_nat 112000) x).
    destruct (skipn (Z.to_nat 112000) x) as [|c rest] eqn:Hsk.
    - pose proof (firstn_skipn (Z.to_nat 112000) x) as Hx.
      rewrite Hsk, app_nil_r in Hx.
      pose proof (firstn_skipn_len x 112000) as Hl. rewrite Hx in Hl. lia.
    - exists c, rest. split.
      + rewrite <- Hsk. symmetry. apply firstn_skipn.
      + apply firstn_skipn_len. lia. }
  destruct Hsplit as (a & c & rest & Hx & Ha). subst x.
  assert (Hla : length a = Z.to_nat 112000).
  { apply Nat2Z.inj. fold (len a). rewrite Ha, Z2Nat.id by lia. reflexivity. }
  assert (Hfirst : firstn (Z.to_nat 112001) (a ++ c :: rest) = a ++ [c]).
  { replace (Z.to_nat 112001) with (S (length a)) by lia.
    rewrite firstn_app.
    replace (S (length a) - length a)%nat with 1%nat by lia.
    rewrite firstn_all2 by lia. reflexivity. }
  assert (Hprefix : firstn (Z.to_nat 112000) (a ++ c :: rest) = a).
  { rewrite <- Hla, firstn_app, firstn_all, Nat.sub_diag.
    cbn [firstn]. apply app_nil_r. }
  rewrite Hfirst, Hprefix, pack_run_app. split; [|exact Ha].
  cbn [pack_run fold_left]. fold (pack_run a pack_init).
  destruct (pack_shape_run a) as (Hp & Hpk & Hne & (m & Hm & HV & Hm')).
  assert (Hpos : p_pos (pack_run a pack_init) = 7).
  { assert (a <> []) by (intros ->; discriminate Ha). specialize (Hne H). lia. }
  pose proof (pack_body_values c (pack_run a pack_init)) as Hval.
  rewrite Hpos in Hval. change (7 =? 7) with true in Hval. cbv iota in Hval.
  assert (Hfl : length (flush (pack_run a pack_init))
                = Z.to_nat SEQUENTIAL_DATA_MAX).
  { apply Nat2Z.inj. fold (len (flush (pack_run a pack_init))).
    unfold flush. rewrite len_app, len_cons, HV, Hpos.
    replace (Z.to_nat 7) with (length (p_packet (pack_run a pack_init))) by lia.
    rewrite firstn_all. unfold len. rewrite Hpk.
    unfold SEQUENTIAL_DATA_MAX. lia. }
  unfold flush at 1. rewrite Hval, <- Hfl, firstn_app, firstn_all, Nat.sub_diag.
  cbn [firstn]. apply app_nil_r.
Qed.

(** X4: on an input of more than 112000 values, the 128000 values of the
    result of [Seq_pack] that the [values] array of a [PackedData] holds are
    the packed form of the first 112000 values of the input, and, for an
    input of bytes, unpacking them gives exactly these.  The values of the
    input from position 112000 on are not in the array, and nothing reports
    it. *)
Theorem Seq_roundtrip_truncated (x : UnpackedData) :
  112000 < len x ->
  firstn (Z.to_nat SEQUENTIAL_DATA_MAX) (Seq_pack x)
  = Seq_pack (firstn (Z.to_nat 112000) x)
  /\ (Forall is_byte x ->
      Seq_unpack (firstn (Z.to_nat SEQUENTIAL_DATA_MAX) (Seq_pack x))
      = firstn (Z.to_nat 112000) x).
Proof.
  intros Hlen. destruct (Seq_pack_kept x Hlen) as [Hkept Ha].
  rewrite Hkept. split.
  - symmetry. apply Seq_pack_complete. rewrite Ha.
    unfold SEQUENTIAL_DATA_MAX. reflexivity.
  - intros Hb.
    assert (Hba : Forall is_byte (firstn (Z.to_nat 112000) x)).
    { rewrite <- (firstn_skipn (Z.to_nat 112000) x) in Hb.
      apply Forall_app in Hb. destruct Hb as [Hba _]. exact Hba. }
    destruct (pack_inv_run _ Hba) as (_ & _ & _ & _ & _ & Hdecode).
    specialize (Hdecode 0 ltac:(lia)).
    rewrite Z.mul_0_r, Z.add_0_r in Hdecode.
    unfold Seq_unpack, flush.
    rewrite unpack_loop_eq_run; rewrite Hdecode; cbn [u_values].
    + apply Seq_set_all.
    + rewrite Ha. unfold SEQUENTIAL_DATA_MAX. lia.
Qed.

Lemma Seq_roundtrip_truncated_witness :
  firstn (Z.to_nat SEQUENTIAL_DATA_MAX) (Seq_pack long_input)
  = Seq_pack (firstn (Z.to_nat 112000) long_input)
  /\ Seq_unpack (firstn (Z.to_nat SEQUENTIAL_DATA_MAX) (Seq_pack long_input))
     = firstn (Z.to_nat 112000) long_input.
Proof.
  destruct (Seq_roundtrip_truncated long_input) as [Hpacked Hround].
  - rewrite long_input_len. lia.
  - split; [exact Hpacked | apply Hround; exact long_input_bytes].
Defined.

Lemma whole_packets_of_length (n : nat) (p : list Z) :
  length p = (8 * n)%nat -> whole_packets p.
Proof.
  revert p. induction n as [|n IH]; intros p Hp.
  - destruct p; [constructor | discriminate Hp].
  - do 8 (destruct p as [|? p]; [simpl in Hp; lia|]).
    constructor. apply IH. simpl in Hp. lia.
Qed.

Lemma whole_packets_of_len (p : list Z) :
  len p mod 8 = 0 -> whole_packets p.
Proof.
  intros Hp. apply (whole_packets_of_length (Z.to_nat (len p / 8))).
  unfold len in *. Z.div_mod_to_equations. lia.
Qed.

(** One packet through the loop of [Seq_unpack]. *)
Lemma unpack_run_packet (pb0 pb c1 c2 c3 c4 c5 c6 c7 : Z) (out rest : list Z) :
  unpack_run (pb :: c1 :: c2 :: c3 :: c4 :: c5 :: c6 :: c7 :: rest)
             (mkU pb0 0 out)
  = unpack_run rest
      (mkU pb 0
         (out ++ [decode_value pb 1 c1; decode_value pb 2 c2;
                  decode_value pb 3 c3; decode_value pb 4 c4;
                  decode_value pb 5 c5; decode_value pb 6 c6;
                  decode_value pb 7 c7])).
Proof.
  unfold unpack_run. cbn [fold_left]. rewrite unpack_body_at_0.
  rewrite (unpack_body_at_pos c1 pb 1) by lia.
  change (Z.land (1 + 1) 0x07) with 2.
  rewrite (unpack_body_at_pos c2 pb 2) by lia.
  change (Z.land (2 + 1) 0x07) with 3.
  rewrite (unpack_body_at_pos c3 pb 3) by lia.
  change (Z.land (3 + 1) 0x07) with 4.
  rewrite (unpack_body_at_pos c4 pb 4) by lia.
  change (Z.land (4 + 1) 0x07) with 5.
  rewrite (unpack_body_at_pos c5 pb 5) by lia.
  change (Z.land (5 + 1) 0x07) with 6.
  rewrite (unpack_body_at_pos c6 pb 6) by lia.
  change (Z.land (6 + 1) 0x07) with 7.
  rewrite (unpack_body_at_pos c7 pb 7) by lia.
  change (Z.land (7 + 1) 0x07) with 0.
  rewrite <- !app_assoc. reflexivity.
Qed.

Lemma unpack_run_whole (p : list Z) :
  whole_packets p ->
  forall pb0 out,
    u_values (unpack_run p (mkU pb0 0 out)) = out ++ decode_all p.
Proof.
  induction 1 as [|pb c1 c2 c3 c4 c5 c6 c7 rest Hrest IH]; intros pb0 out.
  - cbn. now rewrite app_nil_r.
  - rewrite (unpack_run_packet pb0 pb c1 c2 c3 c4 c5 c6 c7 out rest).
    rewrite IH. cbn [decode_all]. rewrite <- app_assoc. reflexivity.
Qed.

(** One value through the body of the loop of [pack], below a full packet. *)
Lemma pack_body_at (c : Z) (V : list Z) (pb k : Z) (packet : list Z) :
  0 <= k < 7 ->
  pack_body c (mkP V pb k packet)
  = mkP V (pb + high_bit c * 2 ^ k) (k + 1)
        (set_nth (Z.to_nat k) (low_bits c) packet).
Proof.
  intros Hk. rewrite pack_body_eq. cbv zeta. cbn [p_pos].
  destruct (Z.eqb_spec k 7); [lia|]. reflexivity.
Qed.

(** With a full packet the body first flushes it. *)
Lemma pack_body_full (c : Z) (st : pack_state) :
  p_pos st = 7 ->
  pack_body c st = pack_body c (mkP (flush st) 0 0 (p_packet st)).
Proof.
  intros Hp. unfold pack_body. cbn [p_pos]. rewrite Hp.
  change (7 =? 7) with true. change (0 =? 7) with false. reflexivity.
Qed.

Lemma seven_bit_encode (c : Z) (b : bool) :
  seven_bit c ->
  high_bit (if b then Z.lor c 0x80 else c) = (if b then 1 else 0)
  /\ low_bits (if b then Z.lor c 0x80 else c) = c.
Proof.
  intros Hc.
  assert (H : all_from
                (fun c => (high_bit (Z.lor c 0x80) =? 1)
                          && (low_bits (Z.lor c 0x80) =? c)
                          && (high_bit c =? 0) && (low_bits c =? c))
                128 0 = true) by (vm_compute; reflexivity).
  pose proof (all_from_spec _ _ _ H c) as Hc'. cbv beta in Hc'.
  unfold seven_bit in Hc. specialize (Hc' ltac:(lia)).
  repeat (apply andb_prop in Hc'; destruct Hc' as [Hc' ?]).
  destruct b; split; apply Z.eqb_eq; assumption.
Qed.

Lemma pack_bits_sum (pb : Z) :
  0 <= pb < 128 ->
  0 + pack_bit pb 0 * 2 ^ 0 + pack_bit pb 1 * 2 ^ 1 + pack_bit pb 2 * 2 ^ 2
  + pack_bit pb 3 * 2 ^ 3 + pack_bit pb 4 * 2 ^ 4 + pack_bit pb 5 * 2 ^ 5
  + pack_bit pb 6 * 2 ^ 6 = pb.
Proof.
  intros Hpb.
  assert (H : all_from
                (fun pb =>
                   0 + pack_bit pb 0 * 2 ^ 0 + pack_bit pb 1 * 2 ^ 1
                   + pack_bit pb 2 * 2 ^ 2 + pack_bit pb 3 * 2 ^ 3
                   + pack_bit pb 4 * 2 ^ 4 + pack_bit pb 5 * 2 ^ 5
                   + pack_bit pb 6 * 2 ^ 6 =? pb)
                128 0 = true) by (vm_compute; reflexivity).
  apply Z.eqb_eq. apply (all_from_spec _ _ _ H). lia.
Qed.

(** The seven values of a decoded packet, packed again from an empty
    packet, give the packet back. *)
Lemma pack_run_decoded_packet (V : list Z) (pb c1 c2 c3 c4 c5 c6 c7 : Z)
    (packet : list Z) :
  length packet = 7%nat ->
  Forall seven_bit [pb; c1; c2; c3; c4; c5; c6; c7] ->
  pack_run [decode_value pb 1 c1; decode_value pb 2 c2; decode_value pb 3 c3;
            decode_value pb 4 c4; decode_value pb 5 c5; decode_value pb 6 c6;
            decode_value pb 7 c7]
           (mkP V 0 0 packet)
  = mkP V pb 7 [c1; c2; c3; c4; c5; c6; c7].
Proof.
  intros Hlen Hall.
  do 7 (destruct packet as [|? packet]; [discriminate Hlen|]).
  destruct packet; [|discriminate Hlen].
  inversion_clear Hall as [|? ? Hpb H1].
  inversion_clear H1 as [|? ? Hc1 H2]. inversion_clear H2 as [|? ? Hc2 H3].
  inversion_clear H3 as [|? ? Hc3 H4]. inversion_clear H4 as [|? ? Hc4 H5].
  inversion_clear H5 as [|? ? Hc5 H6]. inversion_clear H6 as [|? ? Hc6 H7].
  inversion_clear H7 as [|? ? Hc7 _].
  unfold pack_run. cbn [fold_left].
  rewrite (pack_body_at _ _ _ 0) by lia. change (0 + 1) with 1.
  rewrite (pack_body_at _ _ _ 1) by lia. change (1 + 1) with 2.
  rewrite (pack_body_at _ _ _ 2) by lia. change (2 + 1) with 3.
  rewrite (pack_body_at _ _ _ 3) by lia. change (3 + 1) with 4.
  rewrite (pack_body_at _ _ _ 4) by lia. change (4 + 1) with 5.
  rewrite (pack_body_at _ _ _ 5) by lia. change (5 + 1) with 6.
  rewrite (pack_body_at _ _ _ 6) by lia. change (6 + 1) with 7.
  change (Z.to_nat 0) with 0%nat. change (Z.to_nat 1) with 1%nat.
  change (Z.to_nat 2) with 2%nat. change (Z.to_nat 3) with 3%nat.
  change (Z.to_nat 4) with 4%nat. change (Z.to_nat 5) with 5%nat.
  change (Z.to_nat 6) with 6%nat. cbn [set_nth].
  unfold decode_value.
  change (1 - 1) with 0. change (2 - 1) with 1. change (3 - 1) with 2.
  change (4 - 1) with 3. change (5 - 1) with 4. change (6 - 1) with 5.
  change (7 - 1) with 6.
  destruct (seven_bit_encode c1 (Z.testbit pb 0) Hc1) as [-> ->].
  destruct (seven_bit_encode c2 (Z.testbit pb 1) Hc2) as [-> ->].
  destruct (seven_bit_encode c3 (Z.testbit pb 2) Hc3) as [-> ->].
  destruct (seven_bit_encode c4 (Z.testbit pb 3) Hc4) as [-> ->].
  destruct (seven_bit_encode c5 (Z.testbit pb 4) Hc5) as [-> ->].
  destruct (seven_bit_encode c6 (Z.testbit pb 5) Hc6) as [-> ->].
  destruct (seven_bit_encode c7 (Z.testbit pb 6) Hc7) as [-> ->].
  fold (pack_bit pb 0). fold (pack_bit pb 1). fold (pack_bit pb 2).
  fold (pack_bit pb 3). fold (pack_bit pb 4). fold (pack_bit pb 5).
  fold (pack_bit pb 6).
  rewrite pack_bits_sum by exact Hpb. reflexivity.
Qed.

(** Whole packets, decoded and packed again after a full packet. *)
Lemma pack_run_decoded_after_full (p : list Z) :
  whole_packets p ->
  Forall seven_bit p ->
  forall st,
    p_pos st = 7 -> length (p_packet st) = 7%nat ->
    flush (pack_run (decode_all p) st) = flush st ++ p.
Proof.
  induction 1 as [|pb c1 c2 c3 c4 c5 c6 c7 rest Hrest IH];
    intros Hall st Hpos Hlen.
  - cbn. now rewrite app_nil_r.
  - cbn [decode_all]. rewrite pack_run_app.
    assert (Hsplit : Forall seven_bit [pb; c1; c2; c3; c4; c5; c6; c7]
                     /\ Forall seven_bit rest).
    { change (pb :: c1 :: c2 :: c3 :: c4 :: c5 :: c6 :: c7 :: rest)
        with ([pb; c1; c2; c3; c4; c5; c6; c7] ++ rest) in Hall.
      apply Forall_app in Hall. exact Hall. }
    destruct Hsplit as [Hpacket Hall'].
    assert (Hrun : pack_run [decode_value pb 1 c1; decode_value pb 2 c2;
                             decode_value pb 3 c3; decode_value pb 4 c4;
                             decode_value pb 5 c5; decode_value pb 6 c6;
                             decode_value pb 7 c7] st
                   = mkP (flush st) pb 7 [c1; c2; c3; c4; c5; c6; c7]).
    { rewrite <- (pack_run_decoded_packet (flush st) pb c1 c2 c3 c4 c5 c6 c7
                    (p_packet st) Hlen Hpacket).
      unfold pack_run. cbn [fold_left].
      rewrite (pack_body_full _ st Hpos). reflexivity. }
    rewrite Hrun, IH; [|exact Hall'|reflexivity|reflexivity].
    unfold flush at 1. cbn [p_values p_packbyte p_pos p_packet].
    change (Z.to_nat 7) with 7%nat. cbn [firstn].
    rewrite <- app_assoc. reflexivity.
Qed.

Lemma pack_run_decoded (p : list Z) :
  whole_packets p ->
  Forall seven_bit p ->
  p <> [] ->
  flush (pack_run (decode_all p) pack_init) = p.
Proof.
  intros Hp Hall Hne.
  destruct Hp as [|pb c1 c2 c3 c4 c5 c6 c7 rest Hrest]; [contradiction|].
  cbn [decode_all]. rewrite pack_run_app.
  change (pb :: c1 :: c2 :: c3 :: c4 :: c5 :: c6 :: c7 :: rest)
    with ([pb; c1; c2; c3; c4; c5; c6; c7] ++ rest) in Hall.
  apply Forall_app in Hall. destruct Hall as [Hpacket Hall'].
  unfold pack_init at 1.
  rewrite (pack_run_decoded_packet [] pb c1 c2 c3 c4 c5 c6 c7 (repeat 0 7)
             eq_refl Hpacket).
  rewrite pack_run_decoded_after_full;
    [|exact Hrest|exact Hall'|reflexivity|reflexivity].
  reflexivity.
Qed.

(** X5: the round trip in the other direction.  A packed stream that is
    not empty, is made of whole packets (its size is a multiple of 8, at
    most [SEQUENTIAL_DATA_MAX]) and holds values below 128 only is what
    [Seq_pack] returns for its unpacked form. *)
Theorem Seq_pack_unpack_roundtrip (packed : PackedData) :
  0 < len packed <= SEQUENTIAL_DATA_MAX ->
  len packed mod 8 = 0 ->
  Forall seven_bit packed ->
  Seq_pack (Seq_unpack packed) = packed.
Proof.
  intros Hlen Hmod Hall.
  pose proof (whole_packets_of_len packed Hmod) as Hwhole.
  pose proof (Seq_unpack_len_le packed) as Hsize.
  assert (Hun : Seq_unpack packed = decode_all packed).
  { unfold Seq_unpack. rewrite Seq_set_all, unpack_run_within by lia.
    apply (unpack_run_whole packed Hwhole 0 []). }
  rewrite Hun in *.
  rewrite Seq_pack_complete.
  - apply pack_run_decoded; [exact Hwhole | exact Hall |].
    intros ->. cbn in Hlen. lia.
  - unfold SEQUENTIAL_DATA_MAX in *. Z.div_mod_to_equations. lia.
Qed.

Lemma Seq_pack_unpack_roundtrip_witness :
  Seq_pack (Seq_unpack [0x55; 1; 2; 3; 4; 5; 6; 7; 0x7f; 0; 0x7f; 0; 9; 8; 7; 6])
  = [0x55; 1; 2; 3; 4; 5; 6; 7; 0x7f; 0; 0x7f; 0; 9; 8; 7; 6].
Proof.
  apply Seq_pack_unpack_roundtrip.
  - vm_compute. split; [reflexivity | discriminate].
  - reflexivity.
  - repeat constructor; unfold seven_bit; lia.
Defined.

(** ** pcm_proc.h: clone, trim, channels, normalize, generators *)

Lemma for_loop_ext {St : Type} (body body' : Z -> St -> St) :
  (forall i s, body i s = body' i s) ->
  forall n i s, for_loop n i body s = for_loop n i body' s.
Proof.
  intros Hext n. induction n as [|n IH]; intros i s; cbn [for_loop].
  - reflexivity.
  - rewrite Hext. apply IH.
Qed.

Lemma in_range_true (j n : Z) : 0 <= j < n -> (0 <=? j) && (j <? n) = true.
Proof.
  intros Hj. apply andb_true_intro. split; [apply Z.leb_le | apply Z.ltb_lt]; lia.
Qed.



(** The copying loop of [pcm_trim]. *)
Lemma trim_loop (src : array) (offset n : Z) (mem : array) :
  0 <= n ->
  let r := for_range 0 n
             (fun i '(new_ix, d) => (new_ix + 1, upd d new_ix (src (i + offset))))
             (0, mem) in
  fst r = n
  /\ forall j, snd r j = if (0 <=? j) && (j <? n) then src (j + offset) else mem j.
Proof.
  intros Hn r. unfold r, for_range.
  pose proof (for_loop_inv_bounded
                (fun i (st : Z * array) =>
                   fst st = i
                   /\ forall j, snd st j
                                = if (0 <=? j) && (j <? i)
                                  then src (j + offset) else mem j)
                (fun i '(new_ix, d) =>
                   (new_ix + 1, upd d new_ix (src (i + offset))))
                (Z.to_nat (n - 0)) 0 (0, mem)) as Hloop.
  replace (0 + Z.of_nat (Z.to_nat (n - 0))) with n in Hloop by lia.
  apply Hloop.
  - intros k [ix d] Hk [Hix Hd]. cbn [fst snd] in *. subst ix.
    split; [reflexivity|]. intros j. unfold upd. rewrite Hd.
    destruct (Z.eqb_spec j k) as [->|Hne].
    + rewrite in_range_true by lia. reflexivity.
    + destruct (Z.leb_spec 0 j); destruct (Z.ltb_spec j k);
        destruct (Z.ltb_spec j (k + 1)); cbn [andb]; try reflexivity; lia.
  - split; [reflexivity|]. intros j.
    destruct (Z.leb_spec 0 j); destruct (Z.ltb_spec j 0);
      cbn [andb]; try reflexivity; lia.
Qed.

Lemma pcm_trim_in_range (mem : array) (pcm : PCMData) (start sz : Z) :
  1 <= channels pcm -> 0 <= sz ->
  start + sz <= size pcm ->
  let trimmed := pcm_trim mem pcm start sz in
  size trimmed = sz
  /\ channels trimmed = channels pcm
  /\ resolution trimmed = resolution pcm
  /\ forall j, 0 <= j < sz * channels pcm ->
               data trimmed j = data pcm (j + start * channels pcm).
Proof.
  intros Hch Hsz Hin trimmed. unfold trimmed, pcm_trim. cbv zeta.
  destruct (Z.geb_spec (size pcm) (start + sz)); [|lia].
  pose proof (trim_loop (data pcm) (start * channels pcm) (sz * channels pcm)
                mem ltac:(nia)) as Hloop.
  cbv zeta in Hloop.
  destruct (for_range 0 (sz * channels pcm) _ (0, mem)) as [new_ix d].
  cbn [fst snd] in Hloop. destruct Hloop as [_ Hd].
  split; [|split; [|split]].
  - unfold set_pcm_data. cbn [size channels]. apply Z.div_mul. lia.
  - reflexivity.
  - reflexivity.
  - intros j Hj. rewrite set_pcm_data_data, Hd, !in_range_true by lia.
    reflexivity.
Qed.

(** X7: [pcm_trim] on a buffer that fits its array, for a [start] and a
    [size] whose sum does not wrap around as an [unsigned long].  With
    [start + size] within the buffer it returns [size] frames, with the
    channels and the resolution of the buffer, whose samples are those of
    the buffer from frame [start] on; with [start + size] beyond the buffer
    it returns the untouched result of [new_PCMData]: no sample, one
    channel, 16 bits. *)
Theorem pcm_trim_result (mem : array) (pcm : PCMData) (start sz : Z) :
  1 <= channels pcm ->
  size pcm * channels pcm <= PCM_PROC_MAX ->
  0 <= start -> 0 <= sz -> start + sz < 2 ^ 64 ->
  let trimmed := pcm_trim mem pcm start sz in
  if size pcm >=? start + sz then
    size trimmed = sz
    /\ channels trimmed = channels pcm
    /\ resolution trimmed = resolution pcm
    /\ forall j, 0 <= j < sz * channels pcm ->
                 data trimmed j = data pcm (j + start * channels pcm)
  else trimmed = new_PCMData mem.
Proof.
  intros Hch _ _ Hsz _ trimmed.
  destruct (Z.geb_spec (size pcm) (start + sz)) as [Hin|Hout].
  - apply pcm_trim_in_range; assumption || lia.
  - unfold trimmed, pcm_trim. cbv zeta.
    destruct (Z.geb_spec (size pcm) (start + sz)); [lia | reflexivity].
Qed.

Lemma pcm_trim_result_witness :
  let trimmed := pcm_trim (fun _ => 0) stereo_pcm 1 1 in
  size trimmed = 1 /\ channels trimmed = 2
  /\ data trimmed 0 = 30 /\ data trimmed 1 = 40.
Proof.
  intros trimmed.
  pose proof (pcm_trim_result (fun _ => 0) stereo_pcm 1 1
                ltac:(cbn; lia) ltac:(vm_compute; discriminate)
                ltac:(lia) ltac:(lia) ltac:(lia)) as H.
  cbv zeta in H. fold trimmed in H.
  change (size stereo_pcm >=? 1 + 1) with true in H. cbv iota in H.
  destruct H as (Hs & Hc & _ & Hd).
  split; [exact Hs|]. split; [exact Hc|].
  split; (rewrite Hd by (cbn; lia); reflexivity).
Defined.

(** X8: trimming a trimmed buffer is one trim: frames [b] to [b + m] of
    frames [a] to [a + n] of a buffer are its frames [a + b] to
    [a + b + m]. *)
Theorem pcm_trim_trim (mem1 mem2 mem : array) (pcm : PCMData) (a n b m : Z) :
  1 <= channels pcm -> 0 <= n -> 0 <= b -> 0 <= m ->
  a + n <= size pcm -> b + m <= n ->
  let twice := pcm_trim mem2 (pcm_trim mem1 pcm a n) b m in
  let once := pcm_trim mem pcm (a + b) m in
  size twice = size once
  /\ channels twice = channels once
  /\ resolution twice = resolution once
  /\ forall j, 0 <= j < m * channels pcm -> data twice j = data once j.
Proof.
  intros Hch Hn Hb Hm Han Hbm twice once.
  destruct (pcm_trim_in_range mem1 pcm a n Hch Hn Han) as (Hs1 & Hc1 & Hr1 & Hd1).
  destruct (pcm_trim_in_range mem2 (pcm_trim mem1 pcm a n) b m)
    as (Hs2 & Hc2 & Hr2 & Hd2); [lia | lia | lia |].
  destruct (pcm_trim_in_range mem pcm (a + b) m Hch Hm ltac:(lia))
    as (Hs & Hc & Hr & Hd).
  fold twice in Hs2, Hc2, Hr2, Hd2. fold once in Hs, Hc, Hr, Hd.
  split; [congruence|]. split; [congruence|]. split; [congruence|].
  intros j Hj. rewrite Hd2 by (rewrite Hc1; exact Hj).
  rewrite Hc1, Hd1 by nia. rewrite Hd by exact Hj. f_equal. ring.
Qed.

Lemma pcm_trim_trim_witness :
  let pcm := mkPCM 4 (array_of_list [1; 2; 3; 4; 5; 6; 7; 8]) 2 16 in
  let twice := pcm_trim (fun _ => 0) (pcm_trim (fun _ => 0) pcm 1 3) 1 1 in
  let once := pcm_trim (fun _ => 9) pcm 2 1 in
  data twice 0 = data once 0 /\ data twice 1 = data once 1.
Proof.
  intros pcm twice once.
  destruct (pcm_trim_trim (fun _ => 0) (fun _ => 0) (fun _ => 9) pcm 1 3 1 1)
    as (_ & _ & _ & Hd); try (cbn; lia).
  fold twice once in Hd. split; apply Hd; cbn; lia.
Defined.

Lemma channel_scan_hit (left : nat) (ch channel ic chans : Z) (src d : array) :
  ch <= channel < ch + Z.of_nat left ->
  channel_scan left ch channel ic chans src d
  = upd d ic (src (ic * chans + channel)).
Proof.
  revert ch. induction left as [|left IH]; intros ch Hch.
  - lia.
  - cbn [channel_scan]. destruct (Z.eqb_spec ch channel) as [->|Hne].
    + reflexivity.
    + apply IH. lia.
Qed.

(** X9: [pcm_from_channel] returns a buffer of one channel, of the same
    size and resolution, whose sample [ic] is the sample of the chosen
    channel in frame [ic]; a channel number that is negative or not below
    the number of channels selects channel 0. *)
Theorem pcm_from_channel_samples (mem : array) (pcm : PCMData) (channel : Z) :
  1 <= channels pcm ->
  let picked := if (0 <=? channel) && (channel <? channels pcm)
                then channel else 0 in
  let mono := pcm_from_channel mem pcm channel in
  size mono = size pcm
  /\ channels mono = 1
  /\ resolution mono = resolution pcm
  /\ forall ic, 0 <= ic < size pcm ->
                data mono ic = data pcm (ic * channels pcm + picked).
Proof.
  intros Hch picked mono. unfold mono, pcm_from_channel. cbv zeta.
  assert (Hpick : (if (channel >? channels pcm - 1) || (channel <? 0)
                   then PCM_PROC_CHANNEL_LEFT else channel) = picked).
  { unfold picked, PCM_PROC_CHANNEL_LEFT.
    destruct (Z.gtb_spec channel (channels pcm - 1));
      destruct (Z.ltb_spec channel 0); destruct (Z.leb_spec 0 channel);
      destruct (Z.ltb_spec channel (channels pcm));
      cbn [orb andb]; try reflexivity; lia. }
  rewrite Hpick.
  assert (Hrange : 0 <= picked < channels pcm).
  { unfold picked. destruct (Z.leb_spec 0 channel);
      destruct (Z.ltb_spec channel (channels pcm)); cbn [andb]; lia. }
  split; [|split; [|split]].
  - unfold set_pcm_data, new_PCMData. cbn [size channels]. apply Z.div_1_r.
  - reflexivity.
  - reflexivity.
  - intros ic Hic. rewrite set_pcm_data_data, in_range_true by lia.
    unfold for_range.
    rewrite (for_loop_ext _
               (fun k d => upd d k (data pcm (k * channels pcm + picked)))).
    + rewrite for_loop_upd.
      destruct (Z.leb_spec 0 ic);
        destruct (Z.ltb_spec ic (0 + Z.of_nat (Z.to_nat (size pcm - 0))));
        cbn [andb]; try reflexivity; lia.
    + intros k d. apply channel_scan_hit. lia.
Qed.

Lemma pcm_from_channel_samples_witness :
  let right := pcm_from_channel (fun _ => 0) stereo_pcm PCM_PROC_CHANNEL_RIGHT in
  let other := pcm_from_channel (fun _ => 0) stereo_pcm 5 in
  (data right 0 = 20 /\ data right 1 = 40)
  /\ (data other 0 = 10 /\ data other 1 = 30).
Proof.
  intros right other.
  destruct (pcm_from_channel_samples (fun _ => 0) stereo_pcm
              PCM_PROC_CHANNEL_RIGHT ltac:(cbn; lia)) as (_ & _ & _ & Hr).
  destruct (pcm_from_channel_samples (fun _ => 0) stereo_pcm 5
              ltac:(cbn; lia)) as (_ & _ & _ & Ho).
  fold right in Hr. fold other in Ho.
  split; split.
  - rewrite Hr by (cbn; lia). reflexivity.
  - rewrite Hr by (cbn; lia). reflexivity.
  - rewrite Ho by (cbn; lia). reflexivity.
  - rewrite Ho by (cbn; lia). reflexivity.
Defined.

(** X10: what [pcm_normalize] does to the shape of a buffer that has at
    least one channel and fits its array.  It hands [pcm->size], not
    [size * channels], to [set_pcm_data]: the size becomes
    [size / channels], and the samples from index [size] on are never
    scaled.  With one channel neither matters; with two, half the frames
    are lost and half the samples keep their level. *)
Theorem pcm_normalize_shape `{Float32} (mem : array) (pcm : PCMData)
    (new_amplitude : float) :
  1 <= channels pcm ->
  0 <= size pcm ->
  size pcm * channels pcm <= PCM_PROC_MAX ->
  let r := pcm_normalize mem pcm new_amplitude in
  size r = size pcm / channels pcm
  /\ channels r = channels pcm
  /\ resolution r = resolution pcm
  /\ forall j, size pcm <= j -> data r j = data pcm j.
Proof.
  intros _ _ _ r. unfold r, pcm_normalize. cbv zeta.
  split; [reflexivity|]. split; [reflexivity|]. split; [reflexivity|].
  intros j Hj. rewrite set_pcm_data_data.
  destruct (Z.leb_spec 0 j); destruct (Z.ltb_spec j (size pcm));
    cbn [andb]; try reflexivity; lia.
Qed.

Lemma pcm_normalize_shape_witness :
  let r := @pcm_normalize exact_float (fun _ => 0) stereo_pcm
             (QArith_base.Qmake 1 2) in
  size r = 1 /\ channels r = 2 /\ data r 2 = 30 /\ data r 3 = 40.
Proof.
  intros r.
  destruct (@pcm_normalize_shape exact_float (fun _ => 0) stereo_pcm
              (QArith_base.Qmake 1 2)) as (Hs & Hc & _ & Hd).
  - cbn. lia.
  - cbn. lia.
  - vm_compute. discriminate.
  - fold r in Hs, Hc, Hd. split; [exact Hs|]. split; [exact Hc|].
    split; (rewrite Hd by (cbn; lia); reflexivity).
Defined.

(** A loop that stores at [k] and at [k + off], the two halves apart. *)
Lemma for_loop_upd2 (f g : Z -> Z) (off : Z) (n : nat) :
  Z.of_nat n <= off ->
  forall (i : Z) (a : array) (j : Z),
    for_loop n i (fun k d => upd (upd d k (f k)) (k + off) (g k)) a j
    = if (i <=? j) && (j <? i + Z.of_nat n) then f j
      else if (i + off <=? j) && (j <? i + off + Z.of_nat n) then g (j - off)
      else a j.
Proof.
  induction n as [|n IH]; intros Hoff i a j.
  - cbn [for_loop].
    destruct (Z.leb_spec i j); destruct (Z.ltb_spec j (i + Z.of_nat 0));
      destruct (Z.leb_spec (i + off) j);
      destruct (Z.ltb_spec j (i + off + Z.of_nat 0));
      cbn [andb]; try reflexivity; lia.
  - cbn [for_loop]. rewrite IH by lia. unfold upd.
    destruct (Z.leb_spec (i + 1) j);
      destruct (Z.ltb_spec j (i + 1 + Z.of_nat n));
      destruct (Z.leb_spec i j);
      destruct (Z.ltb_spec j (i + Z.of_nat (S n)));
      destruct (Z.leb_spec (i + 1 + off) j);
      destruct (Z.ltb_spec j (i + 1 + off + Z.of_nat n));
      destruct (Z.leb_spec (i + off) j);
      destruct (Z.ltb_spec j (i + off + Z.of_nat (S n)));
      destruct (Z.eqb_spec j (i + off)); destruct (Z.eqb_spec j i);
      cbn [andb]; try reflexivity; try lia.
    + subst j. f_equal. lia.
    + subst j. reflexivity.
Qed.

(** X11: [pcm_gen_saw] returns 1024 samples, one channel, 16 bits, and
    sample [j] is [64 * j] wrapped to 16 bits: a ramp from 0 to 32704
    followed by a ramp from -32768 to -64, whatever the stack held. *)
Theorem pcm_gen_saw_samples (mem : array) :
  let saw := pcm_gen_saw mem in
  size saw = 1024 /\ channels saw = 1 /\ resolution saw = 16
  /\ forall j, 0 <= j < 1024 -> data saw j = to_int16 (64 * j).
Proof.
  intros saw. split; [reflexivity|]. split; [reflexivity|].
  split; [reflexivity|]. intros j Hj.
  unfold saw, pcm_gen_saw. cbv zeta.
  rewrite set_pcm_data_data, in_range_true by lia.
  unfold for_range. change (Z.to_nat (512 - 0)) with 512%nat.
  rewrite (for_loop_upd2 (fun i => wrap32 (i * 64))
             (fun i => wrap32 (i * 64 - 32768)) 512 512) by lia.
  change (Z.of_nat 512) with 512.
  unfold wrap32, to_int16.
  destruct (Z.leb_spec 0 j); destruct (Z.ltb_spec j (0 + 512));
    destruct (Z.leb_spec (0 + 512) j); destruct (Z.ltb_spec j (0 + 512 + 512));
    cbn [andb]; try lia; Z.div_mod_to_equations; lia.
Qed.

(** X12: [pcm_gen_square] returns 1024 samples, one channel, 16 bits:
    512 times 32767, then 512 times -32768. *)
Theorem pcm_gen_square_samples (mem : array) :
  let square := pcm_gen_square mem in
  size square = 1024 /\ channels square = 1 /\ resolution square = 16
  /\ forall j, 0 <= j < 1024 ->
               data square j = if j <? 512 then 32767 else -32768.
Proof.
  intros square. split; [reflexivity|]. split; [reflexivity|].
  split; [reflexivity|]. intros j Hj.
  unfold square, pcm_gen_square. cbv zeta.
  rewrite set_pcm_data_data, in_range_true by lia.
  unfold for_range. change (Z.to_nat (512 - 0)) with 512%nat.
  rewrite (for_loop_upd2 (fun _ => wrap32 32767)
             (fun _ => wrap32 (-32768)) 512 512) by lia.
  change (Z.of_nat 512) with 512.
  change (wrap32 32767) with 32767. change (wrap32 (-32768)) with (-32768).
  destruct (Z.leb_spec 0 j); destruct (Z.ltb_spec j (0 + 512));
    destruct (Z.ltb_spec j 512);
    destruct (Z.leb_spec (0 + 512) j); destruct (Z.ltb_spec j (0 + 512 + 512));
    cbn [andb]; try lia; reflexivity.
Qed.

(** ** pcm_proc.h: what a change of resolution computes *)


Lemma land_ff_mod (z : Z) : Z.land z 0xff = z mod 256.
Proof. change 0xff with (Z.ones 8). rewrite Z.land_ones by lia. reflexivity. Qed.








(** ** pro3_wavetable.h: the PCM dump *)

Lemma indices_cons (lo : Z) (n : nat) :
  indices lo (S n) = lo :: indices (lo + 1) n.
Proof.
  unfold indices. cbn [seq map]. f_equal; [lia|].
  rewrite <- seq_shift, map_map. apply map_ext. intros k. lia.
Qed.

(** A loop that appends [f k] to the output at every index. *)
Lemma for_loop_emit (f : Z -> list Z) (body : Z -> list Z -> list Z) :
  (forall k out, body k out = out ++ f k) ->
  forall n lo out,
    for_loop n lo body out = out ++ flat_map f (indices lo n).
Proof.
  intros Hbody n. induction n as [|n IH]; intros lo out.
  - cbn. rewrite app_nil_r. reflexivity.
  - cbn [for_loop]. rewrite IH, Hbody, indices_cons. cbn [flat_map].
    rewrite app_assoc. reflexivity.
Qed.

Lemma flat_map_length_const {A B : Type} (f : A -> list B) (c : nat) (l : list A) :
  (forall a, length (f a) = c) -> length (flat_map f l) = (length l * c)%nat.
Proof.
  intros Hf. induction l as [|a l IH]; cbn [flat_map length].
  - reflexivity.
  - rewrite length_app, Hf, IH. lia.
Qed.

Lemma indices_length (lo : Z) (n : nat) : length (indices lo n) = n.
Proof. unfold indices. rewrite length_map, length_seq. reflexivity. Qed.

Lemma to_uchar_to_char (z : Z) : to_uchar (to_char z) = z mod 256.
Proof. unfold to_uchar, to_char. Z.div_mod_to_equations. lia. Qed.

Lemma dump_sample_bytes (v : Z) :
  [to_uchar (to_char (Z.shiftr v 8)); to_uchar (to_char (Z.land v 0xff))]
  = big_endian (to_uint16 v).
Proof.
  rewrite !to_uchar_to_char, land_ff_mod, Z.shiftr_div_pow2 by lia.
  unfold big_endian, to_uint16. f_equal; [|f_equal].
  - Z.div_mod_to_equations. lia.
  - Z.div_mod_to_equations. lia.
Qed.

(** X15: [wavetable_pcm_dump] writes 32768 bytes after what was written
    before: for each of the 16 waveforms in turn and each of its 1024
    samples in turn, the low 16 bits of the sample, high byte first. *)
Theorem wavetable_pcm_dump_bytes (table : Wavetable) (out : list Z) :
  let written :=
    flat_map (fun r =>
                flat_map (fun s => big_endian (to_uint16 (ref table r s)))
                         (indices 0 1024))
             (indices 0 16) in
  wavetable_pcm_dump table out = out ++ written
  /\ len written = 32768.
Proof.
  intros written. split.
  - unfold wavetable_pcm_dump, for_range.
    change (Z.to_nat (PRO3_WAVES - 0)) with 16%nat.
    change (Z.to_nat (PRO3_SAMPLE_SIZE - 0)) with 1024%nat.
    apply for_loop_emit. intros r o.
    apply for_loop_emit. intros s o'. cbv zeta. unfold putchar.
    rewrite <- app_assoc. cbn [app]. rewrite dump_sample_bytes. reflexivity.
  - unfold written, len.
    rewrite (flat_map_length_const _ 2048).
    + rewrite indices_length. reflexivity.
    + intros r. rewrite (flat_map_length_const _ 2).
      * rewrite indices_length. reflexivity.
      * intros s. reflexivity.
Qed.

(** ** pro3_wavetable.h: filling and the waveforms that are set *)

Lemma set_ref_other (table : Wavetable) (t i v k : Z) :
  k <> t -> ref (set_ref table t i v) k = ref table k.
Proof.
  intros Hne. unfold set_ref. cbn [ref].
  destruct (Z.eqb_spec k t); [contradiction | reflexivity].
Qed.

Lemma fill_target_other `{Float32} (c n t : Z) (table : Wavetable) (k : Z) :
  k <> t -> ref (fill_target c n t table) k = ref table k.
Proof.
  intros Hne. unfold fill_target. cbv zeta.
  apply (for_range_inv (fun tb => ref tb k = ref table k)).
  - intros i tb Htb. rewrite set_ref_other by exact Hne. exact Htb.
  - reflexivity.
Qed.

(** Filling the range from [c] to [n - 1] leaves the other waveforms. *)
Lemma fill_range_other `{Float32} (c n : Z) (table : Wavetable) (k : Z) :
  ~ c <= k < n ->
  ref (for_range c n (fun t tb => fill_target c n t tb) table) k = ref table k.
Proof.
  intros Hk. unfold for_range.
  pose proof (for_loop_inv_bounded
                (fun _ tb => ref tb k = ref table k)
                (fun t tb => fill_target c n t tb)
                (Z.to_nat (n - c)) c table) as Hloop.
  apply Hloop.
  - intros t tb Ht Htb. rewrite fill_target_other by lia. exact Htb.
  - reflexivity.
Qed.

Lemma fill_next_keeps `{Float32} (left : nat) (c n : Z) (table : Wavetable)
    (k : Z) :
  (forall t, c <= t < n -> isset table t <> 1) ->
  isset table k = 1 ->
  ref (fill_next left c n table) k = ref table k.
Proof.
  revert n. induction left as [|left IH]; intros n Hunset Hk; cbn [fill_next].
  - reflexivity.
  - destruct (Z.eqb_spec (isset table n) 1) as [Hn|Hn].
    + apply fill_range_other. intros Hin. apply (Hunset k Hin). exact Hk.
    + apply IH; [|exact Hk]. intros t Ht.
      destruct (Z.eq_dec t n) as [->|Hne]; [exact Hn | apply Hunset; lia].
Qed.

Lemma ref_set_isset (table : Wavetable) (k v : Z) :
  ref (set_isset table k v) = ref table.
Proof. reflexivity. Qed.

Lemma isset_set_isset (table : Wavetable) (k v : Z) :
  isset (set_isset table k v) = upd (isset table) k v.
Proof. reflexivity. Qed.

Lemma isset_set_ref (table : Wavetable) (k i v : Z) :
  isset (set_ref table k i v) = isset table.
Proof. reflexivity. Qed.

Lemma wavetable_fill_steps `{Float32} (table : Wavetable) :
  wavetable_fill table
  = if isset table 0 =? 0 then table
    else for_range 1 16
           (fun c table =>
              if isset table c =? 0
              then fill_next (Z.to_nat (16 - c)) c c table
              else table)
           (fill_last table).
Proof. reflexivity. Qed.

Lemma fill_last_keeps (table : Wavetable) (k : Z) :
  isset table k = 1 ->
  ref (fill_last table) k = ref table k /\ isset (fill_last table) k = 1.
Proof.
  intros Hk. unfold fill_last.
  destruct (Z.eqb_spec (isset table (PRO3_WAVES - 1)) 0) as [H15|H15];
    [|split; [reflexivity | exact Hk]].
  assert (Hne : k <> PRO3_WAVES - 1) by (intros ->; lia).
  cbv zeta. rewrite ref_set_isset, isset_set_isset. unfold upd.
  destruct (Z.eqb_spec k (PRO3_WAVES - 1)); [contradiction|].
  apply (for_range_inv (fun t => ref t k = ref table k /\ isset t k = 1)).
  - intros i t [Hr Hi]. rewrite set_ref_other by exact Hne.
    rewrite isset_set_ref. split; [exact Hr | exact Hi].
  - split; [reflexivity | exact Hk].
Qed.

(** X16: [wavetable_fill] never writes a waveform whose flag is 1: its
    samples are the same afterwards. *)
Theorem wavetable_fill_keeps_set `{Float32} (table : Wavetable) (k : Z) :
  isset table k = 1 ->
  ref (wavetable_fill table) k = ref table k.
Proof.
  intros Hk. rewrite wavetable_fill_steps.
  destruct (isset table 0 =? 0); [reflexivity|].
  pose proof (fill_last_keeps table k Hk) as Htb.
  revert Htb. generalize (fill_last table). intros tb Htb.
  refine (proj1 (for_range_inv
                   (fun t => ref t k = ref table k /\ isset t k = 1)
                   _ 1 16 tb _ Htb)).
  intros c t [Hr Hi].
  destruct (Z.eqb_spec (isset t c) 0) as [Hc|Hc];
    [|split; [exact Hr | exact Hi]].
  rewrite fill_next_isset. split; [|exact Hi].
  rewrite fill_next_keeps; [exact Hr | intros u Hu; lia | exact Hi].
Qed.

Lemma wavetable_fill_keeps_set_witness :
  let table := mkWT (fun k i => k + i) (fun k => if k =? 0 then 1 else 0) in
  ref (@wavetable_fill exact_float table) 0 3 = 3.
Proof.
  intros table.
  rewrite (@wavetable_fill_keeps_set exact_float table 0); reflexivity.
Defined.

Lemma ref_set_ref (table : Wavetable) (t i v k j : Z) :
  ref (set_ref table t i v) k j
  = if (k =? t) && (j =? i) then v else ref table k j.
Proof.
  unfold set_ref, upd. cbn [ref].
  destruct (k =? t); destruct (j =? i); reflexivity.
Qed.

Lemma fill_target_uniform `{Float32} (w : array) (c n t : Z)
    (table : Wavetable) :
  (forall i, 0 <= i < 1024 -> float_keeps_level (w i)) ->
  1 <= c <= t -> t < n <= 15 ->
  isset table n = 1 ->
  uniform_upto w t table ->
  uniform_upto w (t + 1) (fill_target c n t table).
Proof.
  intros Hlaw Hc Hn Hset Huni. unfold fill_target. cbv zeta. unfold for_range.
  set (body := fun (i : Z) (table0 : Wavetable) => set_ref table0 t i _).
  pose proof (for_loop_inv_bounded
                (fun i tb => isset tb = isset table
                             /\ uniform_upto w t tb
                             /\ forall j, 0 <= j < i -> ref tb t j = w j)
                body (Z.to_nat (PRO3_SAMPLE_SIZE - 0)) 0 table) as Hloop.
  change (0 + Z.of_nat (Z.to_nat (PRO3_SAMPLE_SIZE - 0))) with 1024 in Hloop.
  destruct Hloop as (Hi & Hu & Ht).
  - intros i tb Hi (His & Hu & Ht). unfold body.
    assert (Hlow : ref tb (c - 1) i = w i) by (apply Hu; lia).
    assert (Hhigh : ref tb n i = w i).
    { apply Hu; [lia | lia |]. right. rewrite His. exact Hset. }
    match goal with
    | |- context [set_ref tb t i ?v] =>
        assert (Hv : v = w i);
        [ rewrite Hlow, Hhigh, Z.sub_diag; change (wrap32 0) with 0;
          apply Hlaw; lia
        | rewrite !Hv ]
    end.
    split; [rewrite isset_set_ref; exact His|]. split.
    + intros k j Hk Hj Hkt. rewrite ref_set_ref.
      destruct (Z.eqb_spec k t) as [->|Hne];
        destruct (Z.eqb_spec j i) as [->|Hne'];
        cbn [andb]; try reflexivity; apply Hu; assumption.
    + intros j Hj. rewrite ref_set_ref, Z.eqb_refl. cbn [andb].
      destruct (Z.eqb_spec j i) as [->|Hne]; [reflexivity|]. apply Ht. lia.
  - split; [reflexivity|]. split; [exact Huni|]. intros j Hj. lia.
  - intros k j Hk Hj Hkt.
    destruct (Z.eq_dec k t) as [->|Hne]; [apply Ht; exact Hj|].
    apply Hu; [exact Hk | exact Hj |]. destruct Hkt; [left; lia | right; assumption].
Qed.

Lemma fill_range_uniform `{Float32} (w : array) (c n : Z) (table : Wavetable) :
  (forall i, 0 <= i < 1024 -> float_keeps_level (w i)) ->
  1 <= c <= n -> n <= 15 ->
  isset table n = 1 ->
  uniform_upto w c table ->
  uniform_upto w n (for_range c n (fun t tb => fill_target c n t tb) table).
Proof.
  intros Hlaw Hc Hn Hset Huni. unfold for_range.
  pose proof (for_loop_inv_bounded
                (fun t tb => isset tb = isset table /\ uniform_upto w t tb)
                (fun t tb => fill_target c n t tb)
                (Z.to_nat (n - c)) c table) as Hloop.
  replace (c + Z.of_nat (Z.to_nat (n - c))) with n in Hloop by lia.
  apply Hloop.
  - intros t tb Ht [His Hu]. split.
    + rewrite fill_target_isset. exact His.
    + apply fill_target_uniform; try assumption; try lia.
      rewrite His. exact Hset.
  - split; [reflexivity | exact Huni].
Qed.

Lemma uniform_upto_weaken (w : array) (c c' : Z) (table : Wavetable) :
  c' <= c -> uniform_upto w c table -> uniform_upto w c' table.
Proof.
  intros Hle Hu k i Hk Hi Hkc. apply Hu; [exact Hk | exact Hi |].
  destruct Hkc; [left; lia | right; assumption].
Qed.

Lemma uniform_upto_step (w : array) (c : Z) (table : Wavetable) :
  isset table c = 1 -> uniform_upto w c table -> uniform_upto w (c + 1) table.
Proof.
  intros Hset Hu k i Hk Hi Hkc. apply Hu; [exact Hk | exact Hi |].
  destruct (Z.eq_dec k c) as [->|Hne]; [right; exact Hset|].
  destruct Hkc; [left; lia | right; assumption].
Qed.

Lemma fill_next_uniform `{Float32} (w : array) (left : nat) (c n : Z)
    (table : Wavetable) :
  (forall i, 0 <= i < 1024 -> float_keeps_level (w i)) ->
  1 <= c <= n -> n <= 15 ->
  Z.of_nat left = 16 - n ->
  isset table 15 = 1 ->
  uniform_upto w c table ->
  uniform_upto w (c + 1) (fill_next left c n table).
Proof.
  intros Hlaw. revert n.
  induction left as [|left IH]; intros n Hc Hn Hleft H15 Huni; [lia|].
  cbn [fill_next]. destruct (Z.eqb_spec (isset table n) 1) as [Hset|Hunset].
  - apply (uniform_upto_weaken w (n + 1)); [lia|].
    apply uniform_upto_step.
    + pose proof (for_range_inv (fun tb => isset tb = isset table)
                    (fun t tb => fill_target c n t tb) c n table) as Hiss.
      rewrite Hiss; [exact Hset | | reflexivity].
      intros t tb Htb. rewrite fill_target_isset. exact Htb.
    + apply fill_range_uniform; assumption.
  - assert (n <> 15) by (intros ->; contradiction).
    apply IH; try assumption; lia.
Qed.

Lemma fill_last_uniform (w : array) (table : Wavetable) :
  isset table 0 = 1 ->
  (forall k, 0 <= k <= 15 -> isset table k = 0 \/ isset table k = 1) ->
  uniform_upto w 0 table ->
  let tb := fill_last table in
  isset tb 15 = 1
  /\ (forall k, 0 <= k <= 15 -> isset tb k = 0 \/ isset tb k = 1)
  /\ uniform_upto w 1 tb.
Proof.
  intros H0 Hflags Huni tb. unfold tb, fill_last.
  destruct (Z.eqb_spec (isset table (PRO3_WAVES - 1)) 0) as [H15|H15].
  - cbv zeta. unfold for_range.
    set (body := fun (i : Z) (table0 : Wavetable) => set_ref table0 _ i _).
    pose proof (for_loop_inv_bounded
                  (fun i tb => isset tb = isset table
                               /\ (forall k j, k <> 15 ->
                                               ref tb k j = ref table k j)
                               /\ forall j, 0 <= j < i -> ref tb 15 j = w j)
                  body (Z.to_nat (PRO3_SAMPLE_SIZE - 0)) 0 table) as Hloop.
    change (0 + Z.of_nat (Z.to_nat (PRO3_SAMPLE_SIZE - 0))) with 1024 in Hloop.
    destruct Hloop as (Hi & Ho & Hl).
    + intros i t Hi (His & Ho & Hl). unfold body.
      change (PRO3_WAVES - 1) with 15.
      split; [rewrite isset_set_ref; exact His|]. split.
      * intros k j Hk. rewrite ref_set_ref.
        destruct (Z.eqb_spec k 15); [contradiction|]. cbn [andb]. apply Ho.
        exact Hk.
      * intros j Hj. rewrite ref_set_ref. cbn [Z.eqb Pos.eqb andb].
        destruct (Z.eqb_spec j i) as [->|Hne]; [|apply Hl; lia].
        rewrite Ho by lia. apply Huni; [lia | lia |]. right. exact H0.
    + split; [reflexivity|]. split; [reflexivity|]. intros j Hj. lia.
    + change (PRO3_WAVES - 1) with 15.
      split; [rewrite isset_set_isset; unfold upd; reflexivity|]. split.
      * intros k Hk. rewrite isset_set_isset. unfold upd. rewrite Hi.
        destruct (k =? 15); [right; reflexivity | apply Hflags; exact Hk].
      * intros k i Hk Hir Hkc. rewrite isset_set_isset in Hkc. unfold upd in Hkc.
        rewrite Hi in Hkc. rewrite ref_set_isset.
        destruct (Z.eqb_spec k 15) as [->|Hne].
        -- apply Hl. exact Hir.
        -- rewrite Ho by exact Hne. apply Huni; [exact Hk | exact Hir |].
           destruct Hkc as [Hlt|Hs]; [|right; exact Hs].
           right. replace k with 0 by lia. exact H0.
  - split; [|split].
    + change (PRO3_WAVES - 1) with 15 in H15.
      destruct (Hflags 15 ltac:(lia)); [contradiction | assumption].
    + exact Hflags.
    + intros k i Hk Hi Hkc. apply Huni; [exact Hk | exact Hi |].
      destruct Hkc as [Hlt|Hs]; [|right; exact Hs].
      right. replace k with 0 by lia. exact H0.
Qed.

(** X17: when waveform 0 is set, every flag is 0 or 1 and every waveform
    that is set holds the same samples [w], [wavetable_fill] leaves all 16
    waveforms equal to [w], as soon as the float operations return [a] for
    [a + 0 * scale] on the samples of [w].  In particular a table with
    waveform 0 alone becomes 16 copies of it. *)
Theorem wavetable_fill_uniform `{Float32} (table : Wavetable) (w : array) :
  (forall i, 0 <= i < 1024 -> float_keeps_level (w i)) ->
  isset table 0 = 1 ->
  (forall k, 0 <= k <= 15 -> isset table k = 0 \/ isset table k = 1) ->
  (forall k i, 0 <= k <= 15 -> 0 <= i < 1024 -> isset table k = 1 ->
               ref table k i = w i) ->
  forall k i, 0 <= k <= 15 -> 0 <= i < 1024 ->
              ref (wavetable_fill table) k i = w i.
Proof.
  intros Hlaw H0 Hflags Hw k i Hk Hi. rewrite wavetable_fill_steps.
  rewrite H0. change (1 =? 0) with false. cbv iota.
  destruct (fill_last_uniform w table H0 Hflags) as (H15 & Hfl & Hu).
  { intros k' i' Hk' Hi' [Hlt|Hs]; [lia | apply Hw; assumption]. }
  revert H15 Hfl Hu. generalize (fill_last table). intros tb H15 Hfl Hu.
  unfold for_range.
  set (body := fun (c : Z) (t : Wavetable) => if isset t c =? 0 then _ else t).
  pose proof (for_loop_inv_bounded
                (fun c t => isset t = isset tb /\ uniform_upto w c t)
                body (Z.to_nat (16 - 1)) 1 tb) as Hloop.
  change (1 + Z.of_nat (Z.to_nat (16 - 1))) with 16 in Hloop.
  destruct Hloop as [_ Hfin].
  - intros c t Hc [His Hu']. unfold body.
    change (Z.of_nat (Z.to_nat (16 - 1))) with 15 in Hc.
    destruct (Z.eqb_spec (isset t c) 0) as [Hc0|Hc0].
    + split; [rewrite fill_next_isset; exact His|].
      apply fill_next_uniform; try assumption; try lia.
      rewrite His. exact H15.
    + split; [exact His|]. apply uniform_upto_step; [|exact Hu'].
      rewrite His in *. destruct (Hfl c ltac:(lia)); [contradiction | assumption].
  - split; [reflexivity | exact Hu].
  - apply Hfin; [exact Hk | exact Hi | left; lia].
Qed.

Lemma exact_float_keeps_level (a : Z) : @float_keeps_level exact_float a.
Proof.
  intros scale. cbn. unfold QArith_base.Qplus, QArith_base.Qmult.
  cbn. rewrite Z.add_0_r.
  rewrite Z.quot_mul; [reflexivity | discriminate].
Qed.

Lemma wavetable_fill_uniform_witness :
  let table := mkWT (fun k i => if k =? 0 then i else 0)
                    (fun k => if k =? 0 then 1 else 0) in
  ref (@wavetable_fill exact_float table) 7 3 = 3.
Proof.
  intros table.
  apply (@wavetable_fill_uniform exact_float table (fun i => i)
           (fun i _ => exact_float_keeps_level i)).
  - reflexivity.
  - intros k Hk. cbn. destruct (k =? 0); [right | left]; reflexivity.
  - intros k i Hk Hi. cbn. destruct (k =? 0); [reflexivity | discriminate].
  - lia.
  - lia.
Defined.

(** ** pcm_proc.h: growing a buffer *)

Lemma half_sum_wrap32 (a b : Z) : wrap32 (half_sum a b) = half_sum a b.
Proof.
  apply wrap32_small. unfold half_sum.
  pose proof (to_int16_range a). pose proof (to_int16_range b).
  Z.quot_rem_to_equations. lia.
Qed.

(** The body of the inner loop of a round, on the entry [dx = i * chans + ch]. *)
Lemma expand_entry (chans data_size : Z) (data0 : array) (i ch : Z)
    (st : Z * array) :
  1 <= chans -> 1 <= data_size ->
  0 <= i < data_size -> 0 <= ch < chans ->
  let dx := i * chans + ch in
  fst st = expanded_index chans data_size dx
  /\ expanded_below chans data_size data0 dx (snd st) ->
  let st' :=
    (let '(ex, expanded_data) := st in
     let dx := i * chans + ch in
     let nx := dx + chans in
     let expanded_data := upd expanded_data ex (data0 dx) in
     let ex := ex + 1 in
     if nx <? data_size * chans then
       let dx_v := to_int16 (data0 dx) in
       let nx_v := to_int16 (data0 nx) in
       (ex + 1, upd expanded_data ex (wrap32 (Z.quot dx_v 2 + Z.quot nx_v 2)))
     else (ex, expanded_data)) in
  fst st' = expanded_index chans data_size (dx + 1)
  /\ expanded_below chans data_size data0 (dx + 1) (snd st').
Proof.
  intros Hch Hds Hi Hc dx [Hex Hbelow]. destruct st as [ex ed].
  cbn [fst snd] in Hex, Hbelow. cbv zeta. fold dx.
  unfold expanded_below in *.
  fold (half_sum (data0 dx) (data0 (dx + chans))). rewrite half_sum_wrap32.
  set (L := (data_size - 1) * chans) in *.
  assert (HL : data_size * chans = L + chans) by (unfold L; ring).
  assert (Hdx : 0 <= dx < L + chans) by (unfold dx; nia).
  unfold expanded_index in *. fold L in Hex |- *.
  destruct (Z.ltb_spec (dx + chans) (data_size * chans)) as [Hnx|Hnx];
    cbn [fst snd].
  - (* an entry with a successor *)
    assert (HdxL : dx < L) by lia.
    destruct (Z.leb_spec dx L); [|lia].
    destruct (Z.leb_spec (dx + 1) L); [|lia].
    split; [lia|]. subst ex.
    intros d Hd. specialize (Hbelow d). unfold upd.
    destruct (Z.eq_dec d dx) as [->|Hne].
    + destruct (Z.ltb_spec dx L); [|lia].
      destruct (Z.eqb_spec (2 * dx) (2 * dx + 1)); [lia|].
      rewrite !Z.eqb_refl. split; reflexivity.
    + specialize (Hbelow ltac:(lia)). fold L in Hbelow |- *.
      destruct (Z.ltb_spec d L).
      * destruct (Z.eqb_spec (2 * d) (2 * dx + 1)); [lia|].
        destruct (Z.eqb_spec (2 * d) (2 * dx)); [lia|].
        destruct (Z.eqb_spec (2 * d + 1) (2 * dx + 1)); [lia|].
        destruct (Z.eqb_spec (2 * d + 1) (2 * dx)); [lia|].
        exact Hbelow.
      * lia.
  - (* an entry of the last frame *)
    assert (HdxL : L <= dx) by lia.
    assert (Hex' : ex = dx + L).
    { destruct (Z.leb_spec dx L); lia. }
    destruct (Z.leb_spec (dx + 1) L); [lia|].
    split; [lia|]. clear Hex. subst ex.
    intros d Hd. specialize (Hbelow d). unfold upd. fold L in Hbelow |- *.
    destruct (Z.eq_dec d dx) as [->|Hne].
    + destruct (Z.ltb_spec dx L); [lia|]. rewrite Z.eqb_refl. reflexivity.
    + specialize (Hbelow ltac:(lia)).
      destruct (Z.ltb_spec d L).
      * destruct (Z.eqb_spec (2 * d) (dx + L)); [lia|].
        destruct (Z.eqb_spec (2 * d + 1) (dx + L)); [lia|].
        exact Hbelow.
      * destruct (Z.eqb_spec (d + L) (dx + L)); [lia|]. exact Hbelow.
Qed.

(** One round of the [while] loop of [pcm_change_size]. *)
Lemma expand_step_spec (chans data_size : Z) (mem data0 : array) :
  1 <= chans -> 1 <= data_size ->
  fst (expand_step chans data_size mem data0) = 2 * data_size - 1
  /\ expanded_below chans data_size data0 (data_size * chans)
       (snd (expand_step chans data_size mem data0)).
Proof.
  intros Hch Hds. unfold expand_step.
  match goal with
  | |- context [for_range 0 data_size ?body (0, mem)] => set (outer := body)
  end.
  assert (Hinv : fst (for_range 0 data_size outer (0, mem))
                 = expanded_index chans data_size (data_size * chans)
                 /\ expanded_below chans data_size data0 (data_size * chans)
                      (snd (for_range 0 data_size outer (0, mem)))).
  { unfold for_range.
    pose proof (for_loop_inv_bounded
                  (fun i st =>
                     fst st = expanded_index chans data_size (i * chans)
                     /\ expanded_below chans data_size data0 (i * chans) (snd st))
                  outer (Z.to_nat (data_size - 0)) 0 (0, mem)) as Hloop.
    replace (0 + Z.of_nat (Z.to_nat (data_size - 0))) with data_size
      in Hloop by lia.
    apply Hloop.
    - intros i st Hi Hst. unfold outer, for_range.
      match goal with
      | |- context [for_loop (Z.to_nat (chans - 0)) 0 ?b st] => set (inner := b)
      end.
      pose proof (for_loop_inv_bounded
                    (fun ch st =>
                       fst st = expanded_index chans data_size (i * chans + ch)
                       /\ expanded_below chans data_size data0
                            (i * chans + ch) (snd st))
                    inner (Z.to_nat (chans - 0)) 0 st) as Hinner.
      cbv beta in Hinner.
      replace (0 + Z.of_nat (Z.to_nat (chans - 0))) with chans in Hinner by lia.
      replace ((i + 1) * chans) with (i * chans + chans) by ring.
      apply Hinner.
      + intros ch st' Hc Hst'.
        replace (i * chans + (ch + 1)) with (i * chans + ch + 1) by ring.
        apply (expand_entry chans data_size data0 i ch st');
          try assumption; lia.
      + rewrite Z.add_0_r. exact Hst.
    - cbn [fst snd]. unfold expanded_index.
      destruct (Z.leb_spec (0 * chans) ((data_size - 1) * chans)); [|nia].
      split; [reflexivity|]. intros d Hd. lia. }
  destruct (for_range 0 data_size outer (0, mem)) as [ex ed].
  cbn [fst snd] in *. destruct Hinv as [Hex Hbelow].
  assert (Hexv : ex = (2 * data_size - 1) * chans).
  { rewrite Hex. unfold expanded_index.
    destruct (Z.leb_spec (data_size * chans) ((data_size - 1) * chans)); nia. }
  split.
  - rewrite Hexv. apply Z.div_mul. lia.
  - intros d Hd. specialize (Hbelow d Hd).
    rewrite !for_range_upd.
    destruct (Z.ltb_spec d ((data_size - 1) * chans)).
    + rewrite !in_range_true by nia. exact Hbelow.
    + rewrite in_range_true by nia. exact Hbelow.
Qed.

(** X18: one round of the expansion loop of [pcm_change_size], when its
    [(2 n - 1) * channels] entries fit the arrays, takes
    [data_size] from [n] to [2 n - 1] and writes, for every entry [dx] that
    has a successor in its channel, the entry at [2 dx] and the half sum of
    the entry and its successor, both as 16-bit values, at [2 dx + 1]; the
    entries of the last frame follow.  With more than one channel the
    result is thus no longer interleaved by frame. *)
Theorem expand_step_interpolates (chans data_size : Z) (mem data0 : array) :
  1 <= chans -> 1 <= data_size ->
  (2 * data_size - 1) * chans <= PCM_PROC_MAX ->
  let expanded := snd (expand_step chans data_size mem data0) in
  fst (expand_step chans data_size mem data0) = 2 * data_size - 1
  /\ (forall dx, 0 <= dx < (data_size - 1) * chans ->
        expanded (2 * dx) = data0 dx
        /\ expanded (2 * dx + 1) = half_sum (data0 dx) (data0 (dx + chans)))
  /\ (forall ch, 0 <= ch < chans ->
        expanded (2 * (data_size - 1) * chans + ch)
        = data0 ((data_size - 1) * chans + ch)).
Proof.
  intros Hch Hds _ expanded.
  destruct (expand_step_spec chans data_size mem data0 Hch Hds) as [Hsz Hbelow].
  fold expanded in Hbelow.
  split; [exact Hsz|]. split.
  - intros dx Hdx. specialize (Hbelow dx ltac:(nia)).
    destruct (Z.ltb_spec dx ((data_size - 1) * chans)); [exact Hbelow | lia].
  - intros ch Hc. specialize (Hbelow ((data_size - 1) * chans + ch) ltac:(nia)).
    destruct (Z.ltb_spec ((data_size - 1) * chans + ch) ((data_size - 1) * chans));
      [lia|].
    rewrite <- Hbelow. f_equal. ring.
Qed.

Lemma expand_step_interpolates_witness :
  let expanded := snd (expand_step 1 3 (fun _ => 0) (array_of_list [10; 20; 40])) in
  fst (expand_step 1 3 (fun _ => 0) (array_of_list [10; 20; 40])) = 5
  /\ map expanded [0; 1; 2; 3; 4] = [10; 15; 20; 30; 40].
Proof.
  intros expanded.
  destruct (expand_step_interpolates 1 3 (fun _ => 0) (array_of_list [10; 20; 40]))
    as (Hsz & Hmid & Hlast); [lia | lia | vm_compute; discriminate |].
  fold expanded in Hmid, Hlast.
  split; [exact Hsz|].
  pose proof (Hmid 0 ltac:(lia)) as [H0 H1].
  pose proof (Hmid 1 ltac:(lia)) as [H2 H3].
  pose proof (Hlast 0 ltac:(lia)) as H4.
  cbn [map]. change (2 * 0 + 1) with 1 in *. change (2 * 0) with 0 in *.
  change (2 * 1 + 1) with 3 in *. change (2 * 1) with 2 in *.
  change (2 * (3 - 1) * 1 + 0) with 4 in *.
  rewrite H0, H1, H2, H3, H4. reflexivity.
Defined.

(** The [while] loop of [pcm_change_size] ends: every round takes
    [data_size] from [n] to [2 n - 1]. *)
Lemma expand_loop_returns (chans new_size : Z) (mem : array) (fuel : nat) :
  1 <= chans ->
  forall (data_size : Z) (data0 : array),
    2 <= data_size ->
    new_size - 1 <= 2 ^ Z.of_nat fuel * (data_size - 1) ->
    exists data_size' data',
      expand_loop fuel chans new_size data_size mem data0
      = Some (data_size', data')
      /\ new_size <= data_size' /\ data_size <= data_size'.
Proof.
  intros Hch. induction fuel as [|fuel IH]; intros data_size data0 Hds Hfuel.
  - change (2 ^ Z.of_nat 0) with 1 in Hfuel. cbn [expand_loop].
    destruct (Z.ltb_spec data_size new_size); [lia|].
    exists data_size, data0. split; [reflexivity | lia].
  - cbn [expand_loop]. destruct (Z.ltb_spec data_size new_size).
    + destruct (expand_step_spec chans data_size mem data0 Hch ltac:(lia))
        as [Hsz _].
      destruct (expand_step chans data_size mem data0) as [data_size' data'].
      cbn [fst] in Hsz.
      destruct (IH data_size' data') as (ds'' & d'' & Heq & Hn & Hd).
      * lia.
      * rewrite Nat2Z.inj_succ, Z.pow_succ_r in Hfuel by lia.
        replace (data_size' - 1) with (2 * (data_size - 1)) by lia. lia.
      * exists ds'', d''. split; [exact Heq | lia].
    + exists data_size, data0. split; [reflexivity | lia].
Qed.

(** Seventeen rounds are enough for every size that [pcm_change_size] can
    ask for. *)
Lemma expand_loop_enough (chans new_size : Z) (mem : array) (fuel : nat)
    (data_size : Z) (data0 : array) :
  1 <= chans -> (17 <= fuel)%nat ->
  2 <= data_size -> new_size <= 131072 ->
  exists data_size' data',
    expand_loop fuel chans new_size data_size mem data0
    = Some (data_size', data').
Proof.
  intros Hch Hfuel Hds Hnew.
  destruct (expand_loop_returns chans new_size mem fuel Hch data_size data0 Hds)
    as (ds & d1 & Heq & _).
  - assert (2 ^ 17 <= 2 ^ Z.of_nat fuel) by (apply Z.pow_le_mono_r; lia).
    change (2 ^ 17) with 131072 in *. nia.
  - exists ds, d1. exact Heq.
Qed.

(** The size that [pcm_change_size] works with. *)
Lemma change_size_cap (chans new_size : Z) :
  1 <= chans -> 0 <= new_size ->
  (if new_size >? Z.quot PCM_PROC_MAX chans
   then Z.quot PCM_PROC_MAX chans else new_size)
  = Z.min new_size (PCM_PROC_MAX / chans)
  /\ 0 <= Z.min new_size (PCM_PROC_MAX / chans) <= 131072.
Proof.
  intros Hch Hnew.
  rewrite Z.quot_div_nonneg by (unfold PCM_PROC_MAX; lia).
  assert (Hcap : 0 <= PCM_PROC_MAX / chans <= 131072).
  { unfold PCM_PROC_MAX. split.
    - apply Z.div_pos; lia.
    - apply Z.div_le_upper_bound; nia. }
  destruct (Z.gtb_spec new_size (PCM_PROC_MAX / chans)); lia.
Qed.


(** X19: [pcm_change_size] terminates: seventeen rounds of its [while]
    loop are always enough.  A buffer of at most one frame is returned
    as it is, whatever size was asked for.  Any other buffer that is
    shorter than its array and, when it has to grow, leaves room for twice
    the new size (every round of growth then stays inside the arrays)
    comes back with the new size and with its channels and resolution. *)
Theorem pcm_change_size_returns `{Float32} (fuel : nat) (mem : array)
    (pcm : PCMData) (new_size : Z) :
  1 <= channels pcm -> 0 <= new_size -> (17 <= fuel)%nat ->
  size pcm * channels pcm < PCM_PROC_MAX ->
  (size pcm < new_size -> 2 * new_size * channels pcm <= PCM_PROC_MAX) ->
  exists r,
    pcm_change_size fuel mem pcm new_size = Some r
    /\ channels r = channels pcm
    /\ resolution r = resolution pcm
    /\ size r = (if size pcm >? 1 then new_size else size pcm)
    /\ (size pcm <= 1 -> r = pcm).
Proof.
  intros Hch Hnew Hfuel Hfit Hroom. unfold pcm_change_size.
  destruct (change_size_cap (channels pcm) new_size Hch Hnew) as [-> Hn].
  destruct (Z.gtb_spec (size pcm) 1) as [Hsz|Hsz];
    [|eexists; split; [reflexivity|]; repeat split].
  assert (Hmin : Z.min new_size (PCM_PROC_MAX / channels pcm) = new_size).
  { apply Z.min_l. apply Z.div_le_lower_bound; [lia|].
    destruct (Z_lt_le_dec (size pcm) new_size) as [Hgrow|Hshrink].
    - specialize (Hroom Hgrow). nia.
    - nia. }
  rewrite Hmin in *.
  destruct (expand_loop_enough (channels pcm) new_size mem fuel (size pcm)
              (for_range 0 (size pcm) (fun i d => upd d i (data pcm i)) mem))
    as (ds & d1 & Heq); [exact Hch | exact Hfuel | lia | lia |].
  rewrite Heq.
  match goal with
  | |- context [for_range 0 new_size ?body (0, mem)] =>
      set (outer := body);
      destruct (for_range 0 new_size outer (0, mem)) as [dx resized] eqn:E
  end.
  assert (Hinner : forall i st, fst (outer i st) = fst st + channels pcm).
  { intros i st. unfold outer.
    rewrite (for_range_count _ 1) by (try lia; intros ch [d r]; reflexivity).
    lia. }
  assert (Hdx : dx = new_size * channels pcm).
  { pose proof (for_range_count outer (channels pcm) 0 new_size (0, mem)
                  Hinner ltac:(lia)) as Hc.
    rewrite E in Hc. cbn [fst] in Hc. lia. }
  eexists. split; [reflexivity|]. split; [reflexivity|]. split; [reflexivity|].
  split; [|lia].
  unfold set_pcm_data. cbn [size]. rewrite Hdx, Z.div_mul by lia. reflexivity.
Qed.

Lemma pcm_change_size_returns_witness :
  exists r,
    @pcm_change_size exact_float 17 (fun _ => 0) stereo_pcm 5 = Some r
    /\ size r = 5.
Proof.
  destruct (@pcm_change_size_returns exact_float 17 (fun _ => 0) stereo_pcm 5)
    as (r & Heq & _ & _ & Hs & _).
  - cbn. lia.
  - lia.
  - lia.
  - vm_compute. reflexivity.
  - intros _. vm_compute. discriminate.
  - exists r. split; [exact Heq | exact Hs].
Defined.

(** ** pro3_wavetable.h: set_reference *)

Lemma pcm_clone_same_size (mem : array) (pcm : PCMData) :
  channels pcm <> 0 -> size (pcm_clone mem pcm) = size pcm.
Proof.
  intros Hch. unfold pcm_clone, set_pcm_data. cbn [size channels].
  apply Z.div_mul. exact Hch.
Qed.

Lemma store_loop_ref (clone : array) (num : Z) (table : Wavetable) (k i : Z) :
  ref (for_range 0 PRO3_SAMPLE_SIZE
         (fun i table => set_ref table num i (clone i)) table) k i
  = if (k =? num) && ((0 <=? i) && (i <? PRO3_SAMPLE_SIZE))
    then clone i else ref table k i.
Proof.
  unfold for_range.
  pose proof (for_loop_inv_bounded
                (fun n tb =>
                   forall k i,
                     ref tb k i
                     = if (k =? num) && ((0 <=? i) && (i <? n))
                       then clone i else ref table k i)
                (fun i table => set_ref table num i (clone i))
                (Z.to_nat (PRO3_SAMPLE_SIZE - 0)) 0 table) as Hloop.
  cbv beta in Hloop.
  change (0 + Z.of_nat (Z.to_nat (PRO3_SAMPLE_SIZE - 0)))
    with PRO3_SAMPLE_SIZE in Hloop.
  apply Hloop.
  - intros n tb Hn Htb k' i'. rewrite ref_set_ref, Htb.
    destruct (Z.eqb_spec k' num); destruct (Z.eqb_spec i' n);
      destruct (Z.leb_spec 0 i'); destruct (Z.ltb_spec i' n);
      destruct (Z.ltb_spec i' (n + 1)); cbn [andb];
      try reflexivity; try lia.
    subst. reflexivity.
  - intros k' i'.
    destruct (Z.eqb_spec k' num); destruct (Z.leb_spec 0 i');
      destruct (Z.ltb_spec i' 0); cbn [andb]; try reflexivity; lia.
Qed.




(** X21: a reference of 1024 frames at 16 bits is stored as it is:
    sample [i] of waveform [num] is entry [i] of the reference. *)
Theorem set_reference_stores `{Float32} (fuel : nat) (mem : array)
    (table : Wavetable) (reference : PCMData) (num : Z) :
  0 <= num < PRO3_WAVES ->
  size reference = PRO3_SAMPLE_SIZE ->
  resolution reference = 16 ->
  1 <= channels reference ->
  exists table',
    set_reference fuel mem table reference num = Some table'
    /\ isset table' num = 1
    /\ forall i, 0 <= i < PRO3_SAMPLE_SIZE ->
                 ref table' num i = data reference i.
Proof.
  intros _ Hsz Hres Hch. unfold set_reference. cbv zeta.
  rewrite pcm_clone_same_size by lia. rewrite Hsz, Z.eqb_refl. cbn [negb].
  change (resolution (pcm_clone mem reference)) with (resolution reference).
  rewrite Hres. cbn [Z.eqb Pos.eqb negb].
  eexists. split; [reflexivity|].
  rewrite isset_set_isset, ref_set_isset. unfold upd.
  split; [rewrite Z.eqb_refl; reflexivity|].
  intros i Hi. rewrite store_loop_ref, Z.eqb_refl, in_range_true by exact Hi.
  cbn [andb]. unfold pcm_clone. cbv zeta. rewrite set_pcm_data_data.
  rewrite in_range_true; [reflexivity|]. rewrite Hsz. nia.
Qed.

Lemma set_reference_stores_witness :
  exists table',
    @set_reference exact_float 0 (fun _ => 0) new_Wavetable
      (mkPCM 1024 (fun i => 3 * i) 1 16) 2 = Some table'
    /\ ref table' 2 5 = 15.
Proof.
  destruct (@set_reference_stores exact_float 0 (fun _ => 0) new_Wavetable
              (mkPCM 1024 (fun i => 3 * i) 1 16) 2) as (t & Heq & _ & Hd).
  - unfold PRO3_WAVES. lia.
  - reflexivity.
  - reflexivity.
  - cbn. lia.
  - exists t. split; [exact Heq|].
    rewrite Hd by (unfold PRO3_SAMPLE_SIZE; lia). reflexivity.
Defined.

(** ** pcm_proc.h: extraction from a WAV file *)

Lemma read_sample_16 (signed_char : bool) (meta : WAV.WAVMeta) (data : array)
    (dx : Z) :
  WAV.resolution meta = 16 ->
  dx + 1 <= WAV.data_end meta ->
  WAV.read_sample signed_char meta data dx
  = (dx + 2,
     WAV.char_value signed_char (data dx)
     + 256 * WAV.char_value signed_char (data (dx + 1))).
Proof.
  intros Hres Hend. unfold WAV.read_sample, for_range. rewrite Hres.
  change (Z.to_nat (Z.quot 16 8 - 0)) with 2%nat. cbn [for_loop].
  destruct (Z.leb_spec dx (WAV.data_end meta)); [|lia].
  destruct (Z.leb_spec (dx + 1) (WAV.data_end meta)); [|lia].
  change (0 * 8) with 0. change ((0 + 1) * 8) with 8.
  rewrite Z.shiftl_0_r, Z.shiftl_mul_pow2 by lia. change (2 ^ 8) with 256.
  assert (Hb : forall z, -128 <= WAV.char_value signed_char z < 256).
  { intros z. unfold WAV.char_value, to_char, to_uchar.
    destruct signed_char; Z.div_mod_to_equations; lia. }
  pose proof (Hb (data dx)). pose proof (Hb (data (dx + 1))).
  f_equal; [lia|].
  rewrite (wrap32_small (WAV.char_value _ (data dx))) by lia.
  rewrite (wrap32_small (0 + _)) by lia.
  rewrite (wrap32_small (_ * 256)) by lia.
  rewrite wrap32_small by lia. lia.
Qed.

Lemma char_value_byte (signed_char : bool) (z : Z) :
  0 <= z < 256 ->
  WAV.char_value signed_char z
  = if signed_char && (128 <=? z) then z - 256 else z.
Proof.
  intros Hz. unfold WAV.char_value, to_char, to_uchar.
  destruct signed_char; destruct (Z.leb_spec 128 z); cbn [andb];
    Z.div_mod_to_equations; lia.
Qed.

(** The sample loops of [WAV.wav_extract] at 16 bits, all bytes before
    [data_end]. *)
Lemma extract_loop_16 (signed_char : bool) (mem : array) (meta : WAV.WAVMeta)
    (data : array) (dx0 samples : Z) :
  WAV.resolution meta = 16 ->
  1 <= WAV.channels meta -> 0 <= samples ->
  dx0 + 2 * (samples * WAV.channels meta) <= WAV.data_end meta + 1 ->
  let st :=
    for_range 0 samples
      (fun i st =>
         for_range 0 (WAV.channels meta)
           (fun ch '(ix, dx, pcm_data) =>
              let '(dx, sample) := WAV.read_sample signed_char meta data dx in
              (ix + 1, dx, upd pcm_data ix sample))
           st)
      (0, dx0, mem) in
  fst (fst st) = samples * WAV.channels meta
  /\ forall j, 0 <= j < samples * WAV.channels meta ->
       snd st j
       = WAV.char_value signed_char (data (dx0 + 2 * j))
         + 256 * WAV.char_value signed_char (data (dx0 + 2 * j + 1)).
Proof.
  intros Hres Hch Hs Hend st. unfold st, for_range.
  set (chans := WAV.channels meta) in *.
  set (Inv := fun (m : Z) (st : Z * Z * array) =>
                fst (fst st) = m /\ snd (fst st) = dx0 + 2 * m
                /\ forall j, 0 <= j < m ->
                     snd st j
                     = WAV.char_value signed_char (data (dx0 + 2 * j))
                       + 256 * WAV.char_value signed_char (data (dx0 + 2 * j + 1))).
  match goal with
  | |- context [for_loop (Z.to_nat (samples - 0)) 0 ?b _] => set (outer := b)
  end.
  pose proof (for_loop_inv_bounded (fun i st => Inv (i * chans) st)
                outer (Z.to_nat (samples - 0)) 0 (0, dx0, mem)) as Hloop.
  cbv beta in Hloop.
  replace (0 + Z.of_nat (Z.to_nat (samples - 0))) with samples in Hloop by lia.
  destruct Hloop as (Hix & _ & Hd).
  - intros i s Hi Hinv. unfold outer.
    match goal with
    | |- context [for_loop (Z.to_nat (chans - 0)) 0 ?b s] => set (inner := b)
    end.
    pose proof (for_loop_inv_bounded (fun ch st => Inv (i * chans + ch) st)
                  inner (Z.to_nat (chans - 0)) 0 s) as Hinner.
    cbv beta in Hinner.
    replace (0 + Z.of_nat (Z.to_nat (chans - 0))) with chans in Hinner by lia.
    replace ((i + 1) * chans) with (i * chans + chans) by ring.
    apply Hinner.
    + intros ch [[ix dx] pd] Hc (Hix & Hdx & Hd).
      cbn [fst snd] in Hix, Hdx, Hd. subst ix dx. unfold inner.
      rewrite read_sample_16 by (try exact Hres; nia).
      unfold Inv. cbn [fst snd].
      split; [ring|]. split; [ring|].
      intros j Hj. unfold upd.
      destruct (Z.eqb_spec j (i * chans + ch)) as [->|Hne];
        [reflexivity | apply Hd; lia].
    + rewrite Z.add_0_r. exact Hinv.
  - unfold Inv. cbn [fst snd].
    split; [reflexivity|]. split; [ring|]. intros j Hj. lia.
  - split; [exact Hix | exact Hd].
Qed.

(** X22: [wav_extract] at 16 bits, all bytes read before [data_end] and
    no more samples than the arrays hold.  The
    result has [samples] frames and the channels of the file, and its
    sample [j] is read from the two bytes at
    [data_start + 2 * start + 2 * j].  It is the 16-bit value they encode
    only when no sign gets in the way: with a signed [char] 256 is missing
    whenever the low byte is 128 or more, with an unsigned [char] 65536 is
    added whenever the value is negative. *)
Theorem wav_extract_16 (signed_char : bool) (mem : array) (meta : WAV.WAVMeta)
    (data : array) (start samples : Z) :
  WAV.resolution meta = 16 ->
  1 <= WAV.channels meta -> 0 <= samples ->
  samples * WAV.channels meta <= PCM_PROC_MAX ->
  0 <= WAV.data_start meta -> 0 <= start ->
  WAV.data_start meta + 2 * start + 2 * (samples * WAV.channels meta)
    <= WAV.data_end meta + 1 ->
  (forall p, 0 <= data p < 256) ->
  let pcm := WAV.wav_extract signed_char mem meta data start samples in
  size pcm = samples
  /\ channels pcm = WAV.channels meta
  /\ resolution pcm = 16
  /\ forall j, 0 <= j < samples * WAV.channels meta ->
       let p := WAV.data_start meta + 2 * start + 2 * j in
       PCM.data pcm j
       = to_int16 (word_at data p)
         + (if signed_char
            then (if 128 <=? data p then -256 else 0)
            else (if 128 <=? data (p + 1) then 65536 else 0)).
Proof.
  intros Hres Hch Hs _ _ _ Hend Hbytes pcm.
  unfold pcm, WAV.wav_extract. cbv zeta.
  rewrite Hres. change (Z.quot 16 8) with 2.
  pose proof (extract_loop_16 signed_char mem meta data
                (WAV.data_start meta + start * 2) samples Hres Hch Hs
                ltac:(lia)) as Hloop.
  cbv zeta in Hloop.
  destruct (for_range 0 samples _ (0, WAV.data_start meta + start * 2, mem))
    as [[ix dx] pcm_data].
  cbn [fst snd] in Hloop. destruct Hloop as [Hix Hd]. subst ix.
  split; [|split; [|split]].
  - unfold set_pcm_data. cbn [size channels]. apply Z.div_mul. lia.
  - reflexivity.
  - reflexivity.
  - intros j Hj. set (p := WAV.data_start meta + 2 * start + 2 * j).
    rewrite set_pcm_data_data, in_range_true by exact Hj.
    rewrite Hd by exact Hj.
    replace (WAV.data_start meta + start * 2 + 2 * j) with p by (unfold p; ring).
    pose proof (Hbytes p) as Hlo. pose proof (Hbytes (p + 1)) as Hhi.
    rewrite !char_value_byte by assumption.
    unfold word_at, to_int16.
    destruct signed_char; cbn [andb];
      destruct (Z.leb_spec 128 (data p));
      destruct (Z.leb_spec 128 (data (p + 1)));
      Z.div_mod_to_equations; lia.
Qed.

Lemma wav_extract_16_witness :
  let meta := WAV.mkMeta 0 3 2 1 16 in
  let data := array_of_list [0x80; 0x00; 0xff; 0xff] in
  let pcm := WAV.wav_extract true (fun _ => 0) meta data 0 2 in
  size pcm = 2 /\ PCM.data pcm 0 = -128 /\ PCM.data pcm 1 = -257.
Proof.
  intros meta data pcm.
  destruct (wav_extract_16 true (fun _ => 0) meta data 0 2)
    as (Hs & _ & _ & Hd).
  - reflexivity.
  - cbn. lia.
  - lia.
  - vm_compute. discriminate.
  - cbn. lia.
  - lia.
  - cbn. lia.
  - intros p. unfold data, array_of_list.
    destruct (Z.to_nat p) as [|[|[|[|[|n]]]]]; cbn; lia.
  - fold pcm in Hs, Hd. split; [exact Hs|].
    split; [rewrite (Hd 0) by (cbn; lia) | rewrite (Hd 1) by (cbn; lia)];
      reflexivity.
Defined.

(** ** pro3_wavetable.h: the system exclusive dump, byte for byte *)

(** *** Halving a buffer *)

Lemma pcm_change_size_halve `{Float32} (fuel : nat) (mem : array)
    (pcm : PCMData) (n : Z) :
  halving_exact ->
  In n [512; 256; 128] ->
  channels pcm = 1 ->
  size pcm = 2 * n ->
  exists r,
    pcm_change_size fuel mem pcm n = Some r
    /\ size r = n /\ channels r = 1
    /\ forall j, 0 <= j < n -> data r j = data pcm (2 * j).
Proof.
  intros Hlaw Hn Hch Hsz.
  assert (Hn' : 128 <= n <= 512).
  { cbn [In] in Hn. lia. }
  unfold pcm_change_size. rewrite Hch.
  change (Z.quot PCM_PROC_MAX 1) with PCM_PROC_MAX.
  destruct (Z.gtb_spec n PCM_PROC_MAX); [unfold PCM_PROC_MAX in *; lia|].
  destruct (Z.gtb_spec (size pcm) 1); [|lia].
  rewrite expand_loop_done by lia.
  fold (local_data mem pcm).
  match goal with
  | |- context [for_range 0 n ?body (0, mem)] =>
      set (outer := body);
      destruct (for_range 0 n outer (0, mem)) as [dx resized] eqn:E
  end.
  assert (Hinv : fst (dx, resized) = n
                 /\ forall j, 0 <= j < n ->
                              snd (dx, resized) j = data pcm (2 * j)).
  { rewrite <- E. unfold for_range.
    pose proof (for_loop_inv_bounded
                  (fun i st => fst st = i
                               /\ forall j, 0 <= j < i ->
                                            snd st j = data pcm (2 * j))
                  outer (Z.to_nat (n - 0)) 0 (0, mem)) as Hloop.
    replace (0 + Z.of_nat (Z.to_nat (n - 0))) with n in Hloop by lia.
    apply Hloop.
    - intros k [d r] Hk [Hd Hr]. cbn [fst snd] in Hd, Hr. subst d.
      unfold outer, for_range. change (Z.to_nat (1 - 0)) with 1%nat.
      cbn [for_loop fst snd]. rewrite Hsz, (Hlaw n k Hn) by lia.
      destruct (Z.geb_spec (2 * k) (2 * n * 1)); [lia|].
      split; [reflexivity|]. intros j Hj. unfold upd.
      destruct (Z.eqb_spec j k) as [->|Hne].
      + rewrite local_data_spec, Hsz.
        destruct (Z.leb_spec 0 (2 * k)); destruct (Z.ltb_spec (2 * k) (2 * n));
          try lia. reflexivity.
      + apply Hr. lia.
    - split; [reflexivity|]. intros j Hj. lia. }
  cbn [fst snd] in Hinv. destruct Hinv as [Hdx Hres]. subst dx.
  eexists. split; [reflexivity|].
  unfold set_pcm_data. cbn [size channels resolution data].
  split; [rewrite Hch; apply Z.div_1_r|]. split; [exact Hch|].
  intros j Hj. rewrite for_range_upd, in_range_true by lia.
  apply Hres. exact Hj.
Qed.

(** *** The serialising loops *)

Lemma for_loop_fold {St : Type} (g : Z -> St -> St) (f : Z -> Z)
    (body : Z -> St -> St) (n : nat) :
  forall lo st,
    (forall i s, lo <= i < lo + Z.of_nat n -> body i s = g (f i) s) ->
    for_loop n lo body st
    = fold_left (fun s v => g v s) (map f (indices lo n)) st.
Proof.
  induction n as [|n IH]; intros lo st Hbody.
  - reflexivity.
  - cbn [for_loop]. rewrite indices_cons. cbn [map fold_left].
    rewrite Hbody by lia. apply IH. intros i s Hi. apply Hbody. lia.
Qed.

Lemma serialize_pcm_list (pcm : PCMData) (f : Z -> Z) (st : dump_state) :
  (forall i, 0 <= i < size pcm -> data pcm i = f i) ->
  serialize_pcm pcm st
  = serialize_list (map f (indices 0 (Z.to_nat (size pcm)))) st.
Proof.
  intros Hf. unfold serialize_pcm, serialize_list, for_range.
  rewrite Z.sub_0_r.
  apply (for_loop_fold (fun v s => serialize_sample v s) f).
  intros i s Hi. rewrite Hf by lia. reflexivity.
Qed.

Lemma serialize_list_app (a b : list Z) (st : dump_state) :
  serialize_list (a ++ b) st = serialize_list b (serialize_list a st).
Proof. apply fold_left_app. Qed.

(** Serialising the same samples [n] times over. *)
Lemma serialize_repeat (l : list Z) (n : nat) :
  forall lo st,
    for_loop n lo (fun _ st => serialize_list l st) st
    = serialize_list (concat (repeat l n)) st.
Proof.
  induction n as [|n IH]; intros lo st.
  - reflexivity.
  - cbn [for_loop repeat concat]. rewrite serialize_list_app. apply IH.
Qed.

Lemma dump_wave_levels `{Float32} (fuel : nat) (mem : array)
    (table : Wavetable) (k : Z) (st : dump_state) :
  halving_exact ->
  dump_wave fuel mem table k st
  = Some (serialize_list (wave_levels (ref table k)) st).
Proof.
  intros Hlaw. unfold dump_wave. cbv zeta.
  set (pcm0 := set_pcm_data (new_PCMData mem) PRO3_SAMPLE_SIZE (ref table k)).
  assert (Hs0 : size pcm0 = 2 * 512) by reflexivity.
  assert (Hc0 : channels pcm0 = 1) by reflexivity.
  assert (Hd0 : forall j, 0 <= j < 1024 -> data pcm0 j = ref table k (1 * j)).
  { intros j Hj. unfold pcm0. rewrite set_pcm_data_data.
    unfold PRO3_SAMPLE_SIZE. rewrite in_range_true by lia.
    rewrite Z.mul_1_l. reflexivity. }
  change (PRO3_SAMPLE_SIZE / 2) with 512.
  change (PRO3_SAMPLE_SIZE / 4) with 256.
  change (PRO3_SAMPLE_SIZE / 8) with 128.
  destruct (pcm_change_size_halve fuel mem pcm0 512 Hlaw)
    as (pcm1 & E1 & Hs1 & Hc1 & Hd1);
    [cbn [In]; tauto | exact Hc0 | exact Hs0 |].
  destruct (pcm_change_size_halve fuel mem pcm1 256 Hlaw)
    as (pcm2 & E2 & Hs2 & Hc2 & Hd2);
    [cbn [In]; tauto | exact Hc1 | rewrite Hs1; reflexivity |].
  destruct (pcm_change_size_halve fuel mem pcm2 128 Hlaw)
    as (pcm3 & E3 & Hs3 & Hc3 & Hd3);
    [cbn [In]; tauto | exact Hc2 | rewrite Hs2; reflexivity |].
  rewrite E1, E2, E3. f_equal.
  rewrite (serialize_pcm_list pcm0 (fun i => ref table k (1 * i)))
    by (rewrite Hs0; exact Hd0).
  rewrite (serialize_pcm_list pcm1 (fun i => ref table k (2 * i))).
  2:{ intros i Hi. rewrite Hs1 in Hi. rewrite Hd1, Hd0 by lia.
      f_equal. lia. }
  assert (E2' : forall s, serialize_pcm pcm2 s
                = serialize_list (decimated (ref table k) 4 256) s).
  { intros s. rewrite (serialize_pcm_list pcm2 (fun i => ref table k (4 * i))).
    - rewrite Hs2. reflexivity.
    - intros i Hi. rewrite Hs2 in Hi. rewrite Hd2, Hd1, Hd0 by lia.
      f_equal. lia. }
  assert (E3' : forall s, serialize_pcm pcm3 s
                = serialize_list (decimated (ref table k) 8 128) s).
  { intros s. rewrite (serialize_pcm_list pcm3 (fun i => ref table k (8 * i))).
    - rewrite Hs3. reflexivity.
    - intros i Hi. rewrite Hs3 in Hi. rewrite Hd3, Hd2, Hd1, Hd0 by lia.
      f_equal. lia. }
  rewrite Hs0, Hs1. unfold for_range.
  rewrite (for_loop_ext (fun _ st => serialize_pcm pcm3 st)
             (fun _ st => serialize_list (decimated (ref table k) 8 128) st))
    by (intros; apply E3').
  rewrite (for_loop_ext (fun _ st => serialize_pcm pcm2 st)
             (fun _ st => serialize_list (decimated (ref table k) 4 256) st))
    by (intros; apply E2').
  rewrite !serialize_repeat.
  unfold wave_levels. rewrite !serialize_list_app.
  reflexivity.
Qed.

Lemma dump_waves_loop `{Float32} (fuel : nat) (mem : array)
    (table : Wavetable) (n : nat) :
  halving_exact ->
  forall lo st,
    for_loop n lo
      (fun k st => match st with
                   | None => None
                   | Some st => dump_wave fuel mem table k st
                   end)
      (Some st)
    = Some (serialize_list
              (flat_map (fun k => wave_levels (ref table k)) (indices lo n))
              st).
Proof.
  intros Hlaw. induction n as [|n IH]; intros lo st.
  - reflexivity.
  - cbn [for_loop]. rewrite dump_wave_levels by exact Hlaw.
    rewrite IH, indices_cons. cbn [flat_map].
    rewrite serialize_list_app. reflexivity.
Qed.

Lemma dump_waves_payload `{Float32} (fuel : nat) (mem : array)
    (table : Wavetable) :
  halving_exact ->
  dump_waves fuel mem table
  = Some (serialize_list (payload_samples table) (mkDump [] 0)).
Proof.
  intros Hlaw. unfold dump_waves, for_range.
  apply dump_waves_loop. exact Hlaw.
Qed.

(** *** What is stored, and the checksum *)

Lemma land_div_shiftl (w : Z) :
  0 <= w < 65536 -> Z.land (w / 256) (Z.shiftl w 8) = 0.
Proof.
  intros Hw. apply Z.bits_inj'. intros n Hn.
  rewrite Z.land_spec, Z.bits_0.
  destruct (Z_lt_le_dec n 8) as [Hlt|Hge].
  - rewrite Z.shiftl_spec_low by exact Hlt. apply andb_false_r.
  - assert (Hsmall : w / 256 = (w / 256) mod 2 ^ 8).
    { symmetry. apply Z.mod_small. change (2 ^ 8) with 256.
      Z.div_mod_to_equations. lia. }
    rewrite Hsmall, Z.mod_pow2_bits_high by lia. reflexivity.
Qed.

Lemma check_byte_swap (v : Z) :
  to_uint16 (Z.lor (Z.shiftr (to_uint16 (to_int16 v)) 8)
                   (Z.shiftl (to_uint16 (to_int16 v)) 8))
  = byte_swap (to_uint16 v).
Proof.
  assert (Hw : to_uint16 (to_int16 v) = to_uint16 v).
  { unfold to_uint16, to_int16. Z.div_mod_to_equations. lia. }
  rewrite Hw. set (w := to_uint16 v).
  assert (Hr : 0 <= w < 65536).
  { unfold w, to_uint16. apply Z.mod_pos_bound. reflexivity. }
  rewrite Z.shiftr_div_pow2 by lia. change (2 ^ 8) with 256.
  pose proof (Z.add_lor_land (w / 256) (Z.shiftl w 8)) as Hadd.
  rewrite land_div_shiftl in Hadd by exact Hr.
  rewrite Z.add_0_r in Hadd. rewrite Hadd.
  rewrite Z.shiftl_mul_pow2 by lia. change (2 ^ 8) with 256.
  unfold byte_swap, to_uint16. Z.div_mod_to_equations. lia.
Qed.

Lemma serialize_list_spec (l : list Z) :
  forall st,
    pro3_data (serialize_list l st) = pro3_data st ++ flat_map stored_bytes l
    /\ checksum (serialize_list l st)
       = fold_left (fun ck v => (ck + byte_swap (to_uint16 v)) mod 2 ^ 16)
                   l (checksum st).
Proof.
  induction l as [|v l IH]; intros st.
  - cbn. rewrite app_nil_r. split; reflexivity.
  - unfold serialize_list in *. cbn [fold_left flat_map].
    destruct (IH (serialize_sample v st)) as [Hd Hc]. rewrite Hd, Hc.
    unfold serialize_sample. cbv zeta. cbn [pro3_data checksum].
    rewrite check_byte_swap. split.
    + rewrite <- app_assoc. reflexivity.
    + reflexivity.
Qed.

(** *** Packing what is stored *)

(** [pack] looks at a value through its bit 7 and, when that is set, its
    seven low bits. *)
Lemma pack_body_same (c c' : Z) (st : pack_state) :
  high_bit c = high_bit c' -> low_bits c = low_bits c' ->
  pack_body c st = pack_body c' st.
Proof. intros Hh Hl. rewrite !pack_body_eq, Hh, Hl. reflexivity. Qed.

Lemma pack_loop_same (l l' : list Z) :
  Forall2 (fun c c' => high_bit c = high_bit c' /\ low_bits c = low_bits c')
          l l' ->
  forall st, pack_loop l st = pack_loop l' st.
Proof.
  induction 1 as [|c c' l l' [Hh Hl] _ IH]; intros st.
  - reflexivity.
  - cbn [pack_loop]. rewrite (pack_body_same c c' st Hh Hl).
    destruct (_ >? _); [reflexivity | apply IH].
Qed.

Lemma Seq_pack_same (l l' : list Z) :
  Forall2 (fun c c' => high_bit c = high_bit c' /\ low_bits c = low_bits c')
          l l' ->
  Seq_pack l = Seq_pack l'.
Proof.
  intros H. unfold Seq_pack. rewrite !Seq_set_all.
  rewrite (pack_loop_same l l' H). reflexivity.
Qed.

Lemma stored_high_byte (v : Z) :
  let h := to_uint32 (Z.shiftr (to_int16 v) 8) in
  high_bit h = high_bit (to_uint16 v / 256)
  /\ low_bits h = low_bits (to_uint16 v / 256).
Proof.
  intros h.
  assert (Hspec : to_uint16 v / 256 = (Z.shiftr (to_int16 v) 8) mod 256).
  { rewrite Z.shiftr_div_pow2 by lia. change (2 ^ 8) with 256.
    unfold to_uint16, to_int16. Z.div_mod_to_equations. lia. }
  assert (Hr : -128 <= Z.shiftr (to_int16 v) 8 < -128 + Z.of_nat 256).
  { pose proof (to_int16_range v).
    rewrite Z.shiftr_div_pow2 by lia. change (2 ^ 8) with 256.
    Z.div_mod_to_equations. lia. }
  rewrite Hspec. unfold h. clear Hspec.
  set (x := Z.shiftr (to_int16 v) 8) in *. clearbody x. rename Hr into Hx.
  assert (Hall : all_from
            (fun x => (high_bit (to_uint32 x) =? high_bit (x mod 256))
                      && (low_bits (to_uint32 x) =? low_bits (x mod 256)))
            256 (-128) = true) by (vm_compute; reflexivity).
  pose proof (all_from_spec _ _ _ Hall x Hx) as Hb.
  apply andb_prop in Hb. destruct Hb as [Hb1 Hb2].
  split; apply Z.eqb_eq; assumption.
Qed.

Lemma stored_low_byte (v : Z) :
  to_uint32 (Z.land (to_int16 v) 0xff) = to_uint16 v mod 256.
Proof.
  change 0xff with (Z.ones 8). rewrite Z.land_ones by lia.
  change (2 ^ 8) with 256.
  unfold to_uint32, to_uint16, to_int16. Z.div_mod_to_equations. lia.
Qed.

Lemma stored_bytes_same (l : list Z) :
  Forall2 (fun c c' => high_bit c = high_bit c' /\ low_bits c = low_bits c')
          (flat_map stored_bytes l)
          (flat_map (fun v => big_endian (to_uint16 v)) l).
Proof.
  induction l as [|v l IH]; cbn [flat_map].
  - constructor.
  - unfold stored_bytes at 1. unfold big_endian at 1. cbn [app].
    constructor; [apply stored_high_byte|].
    constructor; [|exact IH].
    rewrite stored_low_byte. split; reflexivity.
Qed.

(** *** Sizes *)

Lemma decimated_length (w : array) (step : Z) (n : nat) :
  length (decimated w step n) = n.
Proof. unfold decimated. rewrite length_map. apply indices_length. Qed.

Lemma concat_repeat_length {A : Type} (l : list A) (n : nat) :
  length (concat (repeat l n)) = (n * length l)%nat.
Proof.
  induction n as [|n IH]; cbn [repeat concat]; [reflexivity|].
  rewrite length_app, IH. lia.
Qed.

Lemma wave_levels_length (w : array) : length (wave_levels w) = 3072%nat.
Proof.
  unfold wave_levels.
  rewrite !length_app, !concat_repeat_length, !decimated_length. reflexivity.
Qed.

Lemma payload_length (table : Wavetable) : len (payload table) = 98304.
Proof.
  unfold len, payload, payload_samples.
  rewrite (flat_map_length_const _ 2) by (intros; reflexivity).
  rewrite (flat_map_length_const _ 3072) by (intros; apply wave_levels_length).
  rewrite indices_length. reflexivity.
Qed.

Lemma big_endian_bytes (v : Z) : Forall is_byte (big_endian (to_uint16 v)).
Proof.
  unfold big_endian, to_uint16, is_byte.
  repeat constructor; Z.div_mod_to_equations; lia.
Qed.

Lemma payload_bytes (table : Wavetable) : Forall is_byte (payload table).
Proof.
  unfold payload. apply Forall_flat_map. apply Forall_forall.
  intros v _. apply big_endian_bytes.
Qed.

Lemma fold_checksum_range (l : list Z) (ck : Z) :
  0 <= ck < 2 ^ 16 ->
  0 <= fold_left (fun ck v => (ck + byte_swap (to_uint16 v)) mod 2 ^ 16) l ck
    < 2 ^ 16.
Proof.
  revert ck. induction l as [|v l IH]; intros ck Hck; cbn [fold_left].
  - exact Hck.
  - apply IH. apply Z.mod_pos_bound. reflexivity.
Qed.

Lemma serialized_payload (table : Wavetable) :
  let st := serialize_list (payload_samples table) (mkDump [] 0) in
  Seq_pack (pro3_data st) = Seq_pack (payload table)
  /\ checksum st = payload_checksum table.
Proof.
  intros st. unfold st, payload, payload_checksum.
  generalize (payload_samples table). intros l.
  destruct (serialize_list_spec l (mkDump [] 0)) as [Hd Hc].
  split.
  - rewrite Hd. apply Seq_pack_same. apply stored_bytes_same.
  - exact Hc.
Qed.

Lemma payload_checksum_range (table : Wavetable) :
  0 <= payload_checksum table < 2 ^ 16.
Proof.
  unfold payload_checksum. generalize (payload_samples table). intros l.
  apply fold_checksum_range. split; [reflexivity | reflexivity].
Qed.

(** C2: for every wavetable, slot number and name, [wavetable_sysex_dump]
    returns and has written exactly F0 01 31 6A 6C 01 6B, the slot number
    (as the byte [putchar] makes of it), the name padded with spaces or cut
    to exactly 8 characters, 00, the [Seq_pack]-packed payload, the low 7
    bits of the 16-bit checksum, the high byte of the checksum masked to 7
    bits, and F7, in that order and nothing else.  The payload is the one of
    the spec: the four detail levels of the 16 waveforms of the table, high
    byte then low byte of every sample, 98304 bytes before packing and
    seven-bit values after; the checksum is the running 16-bit sum of the
    byte-swapped samples.  The float operations have to compute the three
    halvings exactly ([halving_exact]), as single precision does. *)
Theorem wavetable_sysex_dump_format `{Float32} (fuel : nat) (mem : array)
    (table : Wavetable) (num : Z) (name : c_string) :
  halving_exact ->
  wavetable_sysex_dump fuel mem table num name
  = Some (sysex_frame (to_uchar num) (map char_code (pad8 name))
                      (Seq_pack (payload table)) (payload_checksum table))
  /\ length (pad8 name) = 8%nat
  /\ len (payload table) = 98304
  /\ Forall is_byte (payload table)
  /\ Forall seven_bit (Seq_pack (payload table))
  /\ 0 <= payload_checksum table < 2 ^ 16.
Proof.
  intros Hlaw.
  assert (Hclean : Forall seven_bit (Seq_pack (payload table))).
  { apply Seq_pack_seven_bit.
    apply (Forall_impl _ is_byte_packable), payload_bytes. }
  split; [|split; [apply pad8_length|]; split; [apply payload_length|];
           split; [apply payload_bytes|];
           split; [exact Hclean | apply payload_checksum_range]].
  destruct (pad_name_8 name) as (padded & Ep & Hfirst).
  destruct (serialized_payload table) as [Hd Hc].
  revert Hclean Hd Hc.
  generalize (Seq_pack (payload table)) (payload_checksum table).
  intros packed ck Hclean Hd Hc.
  unfold wavetable_sysex_dump.
  rewrite (dump_waves_payload fuel mem table Hlaw), Ep. cbv zeta.
  rewrite Seq_set_all, Hd, Hc.
  rewrite Seq_dump_out, printf_8s_out, Hfirst.
  rewrite (map_to_uchar_seven_bit _ Hclean).
  unfold putchar. rewrite checksum_low_byte, checksum_high_byte.
  unfold sysex_frame. rewrite <- !app_assoc. reflexivity.
Qed.

Lemma exact_float_halving : @halving_exact exact_float.
Proof.
  intros n i Hn Hi. cbn [In] in Hn.
  assert (Hpos : exists p, n = Z.pos p).
  { destruct n; try lia. eexists; reflexivity. }
  destruct Hpos as [p ->].
  remember (2 * i) as r eqn:Hr.
  cbn. unfold QArith_base.Qmult, QArith_base.Qplus, QArith_base.Qinv.
  cbn. rewrite !Pos.mul_1_r, !Z.mul_1_r, Z.add_0_r, Pos2Z.inj_xO.
  replace (i * (2 * Z.pos p)) with (r * Z.pos p) by (subst r; ring).
  apply Z.quot_mul. discriminate.
Qed.

Lemma wavetable_sysex_dump_format_witness :
  @wavetable_sysex_dump exact_float 0 (fun _ => 0) first_only 3
    [Ascii.ascii_of_N 80; Ascii.ascii_of_N 51]
  = Some (sysex_frame (to_uchar 3)
            (map char_code (pad8 [Ascii.ascii_of_N 80; Ascii.ascii_of_N 51]))
            (Seq_pack (payload first_only)) (payload_checksum first_only)).
Proof.
  apply (@wavetable_sysex_dump_format exact_float 0 (fun _ => 0) first_only 3
           [Ascii.ascii_of_N 80; Ascii.ascii_of_N 51] exact_float_halving).
Defined.
